(** * SLATE tile runtime: pivot engine, scheduler pattern and tile kernels

    A shallow embedding of the parts of the SLATE sources that the
    specification's testable properties talk about:

    - [src/internal/internal_swap.cc]: [makeParallelPivot],
      [permuteRows], [swapRow], [swapElement], [permuteRowsCols];
    - [src/geqrf.cc]: options, device queues, the search for the panel
      of the device workspace and the task pattern;
    - [src/hip/device_tzset.hip.cc]: the [tzset_func] kernel body and
      the two launchers;
    - [src/internal/internal_tzset.cc]: [set] on a trapezoid matrix;
    - [src/internal/internal_ttmqr.cc]: the reduction tree of [ttmqr];
    - [examples/ex13_non_uniform_block_size.cc]: the tile-width check
      and the owner of a tile;
    - [test/test_scale_row_col.cc]: the local part of the scaling
      factors.

    The program is SPMD: every MPI rank runs the same routine on its own
    tiles.  A [World] gives every rank its own tile memory; a routine is
    embedded as the call each rank makes at a given loop iteration, and
    [spmd] is the joint effect of all ranks making their call. *)

From Stdlib Require Import ZArith List Bool Lia Permutation Sorted.
Import ListNotations.
Local Open Scope Z_scope.

(** ** Enumerations of [slate/enums.hh] used by the sources *)

Inductive Direction := Forward | Backward.
Inductive Target := HostTask | HostNest | HostBatch | Devices.
Inductive Layout := ColMajor | RowMajor.
Inductive Op := NoTrans | Trans | ConjTrans.
Inductive Uplo := Upper | Lower | General.
Inductive Side := Left | Right.

Definition Op_eqb (a b : Op) : bool :=
  match a, b with
  | NoTrans, NoTrans | Trans, Trans | ConjTrans, ConjTrans => true
  | _, _ => false
  end.

(** ** Scalars

    [scalar_t] is a template parameter (float, double and their complex
    versions); the routines only move scalars around and conjugate them.
    Conjugation flips the sign bit of the imaginary part, so applying it
    twice gives back the same bits. *)

Class Scalar (T : Type) := {
  conj : T -> T;
  conj_involutive : forall x : T, conj (conj x) = x
}.

(** Real scalars: conjugation is the identity. *)
#[export] Instance Scalar_real : Scalar Z :=
  {| conj := fun x => x; conj_involutive := fun x => eq_refl |}.

(** Complex scalars as (re, im) pairs. *)
Definition cconj (z : Z * Z) : Z * Z := (fst z, - snd z).

#[export] Instance Scalar_complex : Scalar (Z * Z).
Proof.
  refine {| conj := cconj |}.
  intros [a b]; unfold cconj; simpl; f_equal; lia.
Defined.

(** ** Pivots and loops over the pivot vector *)

Record Pivot := mkPivot { tileIndex : Z; elementOffset : Z }.

Definition pivot_at (pivot : list Pivot) (i : Z) : Pivot :=
  nth (Z.to_nat i) pivot (mkPivot 0 0).

Definition pivot_size (pivot : list Pivot) : Z := Z.of_nat (length pivot).

(** [for (int64_t i = begin; i != end; i += inc)]: the indices visited,
    with [fuel] bounding the number of iterations. *)
Fixpoint for_ne (fuel : nat) (i stop inc : Z) : list Z :=
  match fuel with
  | O => []
  | S f => if i =? stop then [] else i :: for_ne f (i + inc) stop inc
  end.

(** [begin], [end], [inc] as chosen from [direction].  [pivot.size() - 1]
    on an empty vector wraps around in [size_t] and converts to the
    [int64_t] value [-1], which is what [size - 1] is here. *)
Definition pivot_begin (d : Direction) (size : Z) : Z :=
  match d with Forward => 0 | Backward => size - 1 end.
Definition pivot_end (d : Direction) (size : Z) : Z :=
  match d with Forward => size | Backward => -1 end.
Definition pivot_inc (d : Direction) : Z :=
  match d with Forward => 1 | Backward => -1 end.

Definition pivot_order_fuel (fuel : nat) (d : Direction) (size : Z) : list Z :=
  for_ne fuel (pivot_begin d size) (pivot_end d size) (pivot_inc d).

Definition pivot_order (d : Direction) (size : Z) : list Z :=
  pivot_order_fuel (S (Z.to_nat size)) d size.

(** [for (int64_t j = lo; j < hi; ++j)] *)
Definition range (lo hi : Z) : list Z :=
  map (fun k => lo + Z.of_nat k) (seq 0 (Z.to_nat (hi - lo))).

(** ** Tile memory

    A cell is element [(row, col)] of tile [(i, j)].  Every rank has its
    own memory ([Tiles]); [World] is the memory of all ranks. *)

Record Cell := mkCell { c_i : Z; c_j : Z; c_row : Z; c_col : Z }.

Definition Tiles (T : Type) := Cell -> T.
Definition World (T : Type) := Z -> Tiles T.

Definition weq {T} (W1 W2 : World T) : Prop :=
  forall me c, W1 me c = W2 me c.

(** A strided vector inside a tile: [n] consecutive elements of row
    [v_off] of [op(A(v_i, v_j))], starting at column [v_lo].  With
    [v_trans] the tile is viewed transposed, so the vector runs down
    column [v_off] of the stored tile. *)
Record Vec := mkVec { v_i : Z; v_j : Z; v_trans : bool; v_off : Z; v_lo : Z }.

Definition vec_cell (v : Vec) (d : Z) : Cell :=
  if v_trans v
  then mkCell (v_i v) (v_j v) (v_lo v + d) (v_off v)
  else mkCell (v_i v) (v_j v) (v_off v) (v_lo v + d).

(** Position of cell [c] in the first [n] elements of [v], if any. *)
Definition vec_pos (v : Vec) (n : Z) (c : Cell) : option Z :=
  let fixed := if v_trans v then c_col c else c_row c in
  let k := if v_trans v then c_row c else c_col c in
  if (c_i c =? v_i v) && (c_j c =? v_j v) && (fixed =? v_off v)
     && (v_lo v <=? k) && (k <? v_lo v + n)
  then Some (k - v_lo v) else None.

(** Row [i] of tile [(ti, tj)], from column [j_offset]. *)
Definition row_of (ti tj : Z) (op : Op) (i j_offset : Z) : Vec :=
  mkVec ti tj (negb (Op_eqb op NoTrans)) i j_offset.

(** ** Calls a rank makes, and what they do

    The bodies of [swapLocalRow], [swapRemoteRow], [swapRemoteElement]
    (internal_swap.hh), [blas::swap] and [lapack::lacgv] are not part of
    the sources at hand; the routines below are embedded as the calls
    they make, and the calls are given their meaning here. *)

Inductive Call :=
| Lacgv (n : Z) (v : Vec)
| SwapLocalRow (n : Z) (v1 v2 : Vec)
| SwapRemoteRow (n : Z) (v : Vec) (other_rank tag : Z)
| ConjElement (v : Vec)
| SwapElement (v1 v2 : Vec)
| SwapRemoteElement (v : Vec) (other_rank tag : Z).

Section Memory.
Context {T : Type} `{Scalar T}.

(** [lapack::lacgv]: conjugate the [n] elements of [v] in place. *)
Definition conj_vec (n : Z) (v : Vec) (L : Tiles T) : Tiles T :=
  fun c =>
    match vec_pos v n c with
    | Some _ => conj (L c)
    | None => L c
    end.

(** Modelled from the spec: [swapLocalRow] / [blas::swap] / [std::swap],
    the "local row swap" of section 4.9 -- the two vectors trade their
    elements position by position. *)
Definition swap_vec (n : Z) (v1 v2 : Vec) (L : Tiles T) : Tiles T :=
  fun c =>
    match vec_pos v1 n c with
    | Some d => L (vec_cell v2 d)
    | None =>
        match vec_pos v2 n c with
        | Some d => L (vec_cell v1 d)
        | None => L c
        end
    end.

(** A pending exchange: the vector this rank sends and then overwrites
    with what [x_peer] sends back. *)
Record Xchg := mkXchg { x_n : Z; x_vec : Vec; x_peer : Z; x_tag : Z }.

(** A rank's part of one collective step: its local work and the
    exchange it then enters, if any. *)
Definition RankStep := Tiles T -> Tiles T * option Xchg.

Definition xchg_matches (me : Z) (x y : Xchg) : bool :=
  (x_peer y =? me) && (x_tag y =? x_tag x) && (x_n y =? x_n x).

(** Modelled from the spec: [swapRemoteRow] / [swapRemoteElement], the
    "paired remote swap" of section 4.9 -- each side sends its vector
    and both "receive and overwrite".  [Lp] is the peer's memory at the
    time it sends, [y] the exchange the peer entered. *)
Definition recv_into (L : Tiles T) (x : Xchg) (Lp : Tiles T) (y : Xchg)
  : Tiles T :=
  fun c =>
    match vec_pos (x_vec x) (x_n x) c with
    | Some d => Lp (vec_cell (x_vec y) d)
    | None => L c
    end.

Definition run_call (c : Call) (st : Tiles T * option Xchg)
  : Tiles T * option Xchg :=
  let '(L, ox) := st in
  match c with
  | Lacgv n v => (conj_vec n v L, ox)
  | SwapLocalRow n v1 v2 => (swap_vec n v1 v2 L, ox)
  | SwapRemoteRow n v r tag => (L, Some (mkXchg n v r tag))
  | ConjElement v => (conj_vec 1 v L, ox)
  | SwapElement v1 v2 => (swap_vec 1 v1 v2 L, ox)
  | SwapRemoteElement v r tag => (L, Some (mkXchg 1 v r tag))
  end.

(** The calls of one rank in one collective step, in program order. *)
Definition run_calls (cs : list Call) : RankStep :=
  fun L => fold_left (fun st c => run_call c st) cs (L, None).

(** All ranks run their part of the step.  A rank that enters an
    exchange gets the vector its peer sends; if the peer does not enter
    the matching exchange the rank keeps its data (it would block). *)
Definition spmd (prog : Z -> RankStep) (W : World T) : World T :=
  fun me =>
    let '(L, ox) := prog me (W me) in
    match ox with
    | None => L
    | Some x =>
        let '(Lp, oy) := prog (x_peer x) (W (x_peer x)) in
        match oy with
        | Some y => if xchg_matches me x y then recv_into L x Lp y else L
        | None => L
        end
    end.

(** Every exchange a rank enters is answered by its peer. *)
Definition exchange_answered (prog : Z -> RankStep) (W : World T) (me : Z)
  : bool :=
  match snd (prog me (W me)) with
  | None => true
  | Some x =>
      match snd (prog (x_peer x) (W (x_peer x))) with
      | Some y => xchg_matches me x y && negb (x_peer x =? me)
      | None => false
      end
  end.

(** Joint effect of a swap between vector [v1] in the memory of rank
    [r1] and vector [v2] in the memory of rank [r2]. *)
Definition wswap (n : Z) (r1 : Z) (v1 : Vec) (r2 : Z) (v2 : Vec)
    (W : World T) : World T :=
  fun me c =>
    match (if me =? r1 then vec_pos v1 n c else None) with
    | Some d => W r2 (vec_cell v2 d)
    | None =>
        match (if me =? r2 then vec_pos v2 n c else None) with
        | Some d => W r1 (vec_cell v1 d)
        | None => W me c
        end
    end.

(** Conjugation of vector [v] in the memory of rank [r]. *)
Definition wconj (n : Z) (r : Z) (v : Vec) (W : World T) : World T :=
  fun me c =>
    match (if me =? r then vec_pos v n c else None) with
    | Some _ => conj (W me c)
    | None => W me c
    end.

End Memory.

Arguments RankStep T : clear implicits.

(** ** Matrix descriptor

    What the routines ask of a [Matrix]/[HermitianMatrix] object: tile
    counts, tile sizes and the owner of each tile. *)

Record MatrixDesc := mkMatrix {
  mt : Z;
  nt : Z;
  tileMb : Z -> Z;
  tileNb : Z -> Z;
  tileRank : Z -> Z -> Z
}.

(** Conversion to [int] (32 bits, two's complement). *)
Definition to_int (z : Z) : Z := (z + 2 ^ 31) mod 2 ^ 32 - 2 ^ 31.

(** ** [permuteRows] (internal_swap.cc, lines 195-316) *)

Section PermuteRows.
Context {T : Type} `{Scalar T}.
Variable A : MatrixDesc.
Variable pivot : list Pivot.

(** Lines 226-266: what rank [me] does for block-column [j] and pivot
    entry [i]. *)
Definition permuteRows_body (tag me j i : Z) : list Call :=
  let root := me =? tileRank A 0 j in
  let p := pivot_at pivot i in
  let pivot_rank := tileRank A (tileIndex p) j in
  if pivot_rank =? me then
    if root then
      if (tileIndex p >? 0) || (elementOffset p >? i) then
        [SwapLocalRow (tileNb A j)
           (row_of 0 j NoTrans i 0)
           (row_of (tileIndex p) j NoTrans (elementOffset p) 0)]
      else []
    else
      [SwapRemoteRow (tileNb A j)
         (row_of (tileIndex p) j NoTrans (elementOffset p) 0)
         (tileRank A 0 j) tag]
  else
    if root then
      [SwapRemoteRow (tileNb A j) (row_of 0 j NoTrans i 0) pivot_rank tag]
    else [].

(** One iteration of the inner loop, on all ranks. *)
Definition permuteRows_step (tag j i : Z) (W : World T) : World T :=
  spmd (fun me => run_calls (permuteRows_body tag me j i)) W.

(** Lines 210-268 for one block-column [j]. *)
Definition permuteRows_column (direction : Direction) (tag j : Z)
    (W : World T) : World T :=
  fold_left (fun W i => permuteRows_step tag j i W)
            (pivot_order direction (pivot_size pivot)) W.

(** [permuteRows(TargetType<HostTask>, ...)].  [tileGetAllForWriting]
    only makes the host copies current and leaves their values alone. *)
Definition permuteRows_HostTask (direction : Direction)
    (layout : Layout) (priority tag queue_index : Z) (W : World T)
  : World T :=
  fold_left (fun W j => permuteRows_column direction tag j W)
            (range 0 (nt A)) W.

(** [permuteRows(TargetType<HostNest>, ...)]: forward to HostTask. *)
Definition permuteRows_HostNest (direction : Direction)
    (layout : Layout) (priority tag queue_index : Z) (W : World T)
  : World T :=
  permuteRows_HostTask direction layout priority tag queue_index W.

(** [permuteRows(TargetType<HostBatch>, ...)]: forward to HostTask. *)
Definition permuteRows_HostBatch (direction : Direction)
    (layout : Layout) (priority tag queue_index : Z) (W : World T)
  : World T :=
  permuteRows_HostTask direction layout priority tag queue_index W.

(** [permuteRows(TargetType<Devices>, ...)], lines 327-418: the same
    loops on the device copies of the tiles ([blas::swap] on the
    device's queue, [swapRemoteRowDevice]); [None] is the failed
    [assert(layout == Layout::RowMajor)]. *)
Definition permuteRows_Devices (direction : Direction)
    (layout : Layout) (priority tag queue_index : Z) (W : World T)
  : option (World T) :=
  match layout with
  | RowMajor =>
      Some (fold_left (fun W j => permuteRows_column direction tag j W)
                      (range 0 (nt A)) W)
  | ColMajor => None
  end.

(** [permuteRows<target>(...)], lines 308-316: dispatch on the target. *)
Definition permuteRows (target : Target) (direction : Direction)
    (layout : Layout) (priority tag queue_index : Z) (W : World T)
  : option (World T) :=
  match target with
  | HostTask =>
      Some (permuteRows_HostTask direction layout priority tag queue_index W)
  | HostNest =>
      Some (permuteRows_HostNest direction layout priority tag queue_index W)
  | HostBatch =>
      Some (permuteRows_HostBatch direction layout priority tag queue_index W)
  | Devices =>
      permuteRows_Devices direction layout priority tag queue_index W
  end.

End PermuteRows.

(** ** [swapRow], [swapElement], [permuteRowsCols]
    (internal_swap.cc, lines 428-703) *)

Section PermuteRowsCols.
Context {T : Type} `{Scalar T}.
Variable A : MatrixDesc.

Definition elem_of (ti tj row col : Z) : Vec := mkVec ti tj false row col.

(** [swapRow], lines 428-490, as run by rank [me]. *)
Definition swapRow (me j_offset n : Z)
    (op1 : Op) (ij_tuple_1 : Z * Z) (offset_i1 : Z)
    (op2 : Op) (ij_tuple_2 : Z * Z) (offset_i2 : Z)
    (tag : Z) : list Call :=
  if n =? 0 then [] else
  let i1 := fst ij_tuple_1 in
  let j1 := snd ij_tuple_1 in
  let i2 := fst ij_tuple_2 in
  let j2 := snd ij_tuple_2 in
  let v1 := row_of i1 j1 op1 offset_i1 j_offset in
  let v2 := row_of i2 j2 op2 offset_i2 j_offset in
  if tileRank A i1 j1 =? me then
    if tileRank A i2 j2 =? me then
      (if negb (Op_eqb op1 op2) then [Lacgv n v1; Lacgv n v2] else [])
      ++ [SwapLocalRow n v1 v2]
    else
      (if negb (Op_eqb op1 op2) then [Lacgv n v1] else [])
      ++ [SwapRemoteRow n v1 (tileRank A i2 j2) tag]
  else if tileRank A i2 j2 =? me then
    (if negb (Op_eqb op1 op2) then [Lacgv n v2] else [])
    ++ [SwapRemoteRow n v2 (tileRank A i1 j1) tag]
  else [].

(** [swapElement], lines 499-529, as run by rank [me]. *)
Definition swapElement (me : Z)
    (ij_tuple_1 : Z * Z) (offset_i1 offset_j1 : Z)
    (ij_tuple_2 : Z * Z) (offset_i2 offset_j2 : Z)
    (tag : Z) : list Call :=
  let i1 := fst ij_tuple_1 in
  let j1 := snd ij_tuple_1 in
  let i2 := fst ij_tuple_2 in
  let j2 := snd ij_tuple_2 in
  let e1 := elem_of i1 j1 offset_i1 offset_j1 in
  let e2 := elem_of i2 j2 offset_i2 offset_j2 in
  if tileRank A i1 j1 =? me then
    if tileRank A i2 j2 =? me then [SwapElement e1 e2]
    else [SwapRemoteElement e1 (tileRank A i2 j2) tag]
  else if tileRank A i2 j2 =? me then
    [SwapRemoteElement e2 (tileRank A i1 j1) tag]
  else [].

(** Lines 609-685: the collective steps for pivot entry [i1], each as
    the calls of rank [me]. *)
Definition permuteRowsCols_pivot (tag i1 : Z) (p : Pivot)
  : list (Z -> list Call) :=
  let i2 := elementOffset p in
  let t2 := tileIndex p in
  if (t2 >? 0) || (i2 >? i1) then
    [fun me => swapRow me 0 i1 NoTrans (0, 0) i1 NoTrans (t2, 0) i2 tag]
    ++ (if t2 =? 0 then
          [fun me => swapRow me (i1 + 1) (i2 - i1 - 1)
                       Trans (0, 0) i1 NoTrans (0, 0) i2 tag;
           fun me => swapRow me (i2 + 1) (tileNb A 0 - i2 - 1)
                       Trans (0, 0) i1 Trans (0, 0) i2 tag]
        else
          [fun me => swapRow me (i1 + 1) (tileNb A 0 - i1 - 1)
                       Trans (0, 0) i1 NoTrans (t2, 0) i2 tag;
           fun me => swapRow me 0 i2
                       Trans (t2, 0) i1 NoTrans (t2, t2) i2 (to_int (tag + 1));
           fun me => swapRow me (i2 + 1) (tileNb A t2 - i2 - 1)
                       Trans (t2, 0) i1 Trans (t2, t2) i2 (to_int (tag + 1))])
    ++ [fun me => if tileRank A t2 0 =? me
                  then [ConjElement (elem_of t2 0 i2 i1)] else []]
    ++ [fun me => swapElement me (0, 0) i1 i1 (t2, t2) i2 i2 tag]
    ++ map (fun t me => swapRow me 0 (tileNb A t)
                          Trans (t, 0) i1 NoTrans (t2, t) i2
                          (to_int (tag + 1 + t)))
           (range 1 t2)
    ++ map (fun t me => swapRow me 0 (tileNb A t)
                          Trans (t, 0) i1 Trans (t, t2) i2
                          (to_int (tag + 1 + t)))
           (range (t2 + 1) (nt A))
  else [].

Definition run_steps (steps : list (Z -> list Call)) (W : World T)
  : World T :=
  fold_left (fun W step => spmd (fun me => run_calls (step me)) W) steps W.

(** [permuteRowsCols(TargetType<HostTask>, ...)], lines 570-688, for a
    lower-stored Hermitian matrix ([assert(A.uplo() == Uplo::Lower)]). *)
Definition permuteRowsCols (direction : Direction) (pivot : list Pivot)
    (priority tag : Z) (W : World T) : World T :=
  fold_left
    (fun W i1 => run_steps (permuteRowsCols_pivot tag i1 (pivot_at pivot i1)) W)
    (pivot_order direction (pivot_size pivot)) W.

(** The matrix a lower-stored Hermitian [A] stands for.  A logical row
    or column index is a pair (tile index, offset in the tile); entry
    [(a, b)] is stored on the owner of its tile when it is in the lower
    triangle, and is the conjugate of entry [(b, a)] otherwise. *)
Definition idx_le (a b : Z * Z) : bool :=
  (fst a <? fst b) || ((fst a =? fst b) && (snd a <=? snd b)).

Definition stored (W : World T) (a b : Z * Z) : T :=
  W (tileRank A (fst a) (fst b)) (mkCell (fst a) (fst b) (snd a) (snd b)).

Definition herm (W : World T) (a b : Z * Z) : T :=
  if idx_le b a then stored W a b else conj (stored W b a).

Definition valid_idx (a : Z * Z) : Prop :=
  0 <= fst a < nt A /\ 0 <= snd a < tileNb A (fst a).

End PermuteRowsCols.

(** ** [geqrf] (geqrf.cc): options, device queues, task pattern *)

(** The keys of [enum class Option] that the sources at hand read. *)
Module Option.
Inductive t := Lookahead | InnerBlocking | MaxPanelThreads | Target.
End Option.

(** [Options] is a [std::map<Option, OptionValue>]; the values read
    here are the [int64_t] member of [OptionValue]. *)
Definition Options := Option.t -> option Z.

(** Modelled from the spec: [get_option<int64_t>(opts, key, default)]
    (slate/internal/util.hh, not in src/) -- the value stored under the
    key, or the default ("Lookahead ... depth L", "InnerBlocking ...
    (default 16)" in section 6). *)
Definition get_option (opts : Options) (key : Option.t) (default : Z) : Z :=
  match opts key with
  | Some v => v
  | None => default
  end.

(** Lines 42-43. *)
Definition geqrf_lookahead (opts : Options) : Z :=
  get_option opts Option.Lookahead 1.
Definition geqrf_ib (opts : Options) : Z :=
  get_option opts Option.InnerBlocking 16.

(** The two matrices [geqrf] sets up on the devices. *)
Inductive GeqrfMatrix := Mat_A | Mat_W.

Inductive DeviceSetup :=
| allocateBatchArrays (M : GeqrfMatrix) (batch_size num_queues : Z)
| reserveDeviceWorkspace (M : GeqrfMatrix).

(** Line 70: [int num_queues = 3 + lookahead;] narrows the [int64_t]
    sum to [int]. *)
Definition geqrf_num_queues (opts : Options) : Z :=
  to_int (3 + geqrf_lookahead opts).

(** Lines 68-73: the device set-up calls made for [target]. *)
Definition geqrf_device_setup (target : Target) (opts : Options)
  : list DeviceSetup :=
  match target with
  | Devices =>
      let batch_size_default := 0 in
      let num_queues := geqrf_num_queues opts in
      [allocateBatchArrays Mat_A batch_size_default num_queues;
       reserveDeviceWorkspace Mat_A;
       allocateBatchArrays Mat_W batch_size_default num_queues]
  | _ => []
  end.

(** Modelled from the spec: [allocateBatchArrays(batch_size, num_queues)]
    (BaseMatrix.hh, not in src/) gives every device of the matrix
    [num_queues] batch-array queues ("the number of queues =
    3 + lookahead", section 5). *)
Definition queues_per_device (M : GeqrfMatrix) (calls : list DeviceSetup)
  : option Z :=
  fold_left
    (fun acc c =>
       match c with
       | allocateBatchArrays M' _ nq =>
           match M, M' with
           | Mat_A, Mat_A | Mat_W, Mat_W => Some nq
           | _, _ => acc
           end
       | reserveDeviceWorkspace _ => acc
       end)
    calls None.

(** *** Tasks and their [depend] clauses *)

Inductive DepType := dep_in | dep_inout.

(** [depend(in: block[b])] or [depend(inout: block[b])]. *)
Record Depend := mkDep { d_type : DepType; d_block : Z }.

Inductive TaskKind :=
| Panel
| LookaheadUpdate (j : Z)
| Trailing
| Cleanup.

Record Task := mkTask {
  t_step : Z;
  t_kind : TaskKind;
  t_priority : Z;
  t_depend : list Depend
}.

(** A task pragma without a [priority] clause has OpenMP's default
    priority, 0. *)
Definition default_priority : Z := 0.

(** Lines 140-291: the tasks the master thread emits at step [k], in
    program order. *)
Definition geqrf_step_tasks (lookahead A_nt k : Z) : list Task :=
  [mkTask k Panel 1 [mkDep dep_inout k]]
  ++ map (fun j => mkTask k (LookaheadUpdate j) 1
                     [mkDep dep_in k; mkDep dep_inout j])
         (range (k + 1) (Z.min (k + 1 + lookahead) A_nt))
  ++ (if k + 1 + lookahead <? A_nt
      then [mkTask k Trailing default_priority
              [mkDep dep_in k;
               mkDep dep_inout (k + 1 + lookahead);
               mkDep dep_inout (A_nt - 1)]]
      else [])
  ++ [mkTask k Cleanup default_priority [mkDep dep_inout k]].

(** All tasks of a factorization, [k = 0 .. min(mt, nt) - 1]. *)
Definition geqrf_tasks (lookahead A_mt A_nt : Z) : list Task :=
  flat_map (geqrf_step_tasks lookahead A_nt) (range 0 (Z.min A_mt A_nt)).

(** The [depend] clause (section 4.6): a task waits for an earlier
    sibling when both name the same element of [block] and at least one
    of them names it [inout]. *)
Definition is_inout (d : Depend) : bool :=
  match d_type d with dep_inout => true | dep_in => false end.

Definition conflicts (t1 t2 : Task) : bool :=
  existsb (fun d1 =>
    existsb (fun d2 =>
      (d_block d1 =? d_block d2) && (is_inout d1 || is_inout d2))
      (t_depend t2))
    (t_depend t1).

(** [t2] must wait for [t1], where [between] are the tasks emitted after
    [t1] and before [t2]: there is a chain of conflicts from [t1] to
    [t2] that follows the emission order. *)
Fixpoint must_wait (t1 : Task) (between : list Task) (t2 : Task) : bool :=
  conflicts t1 t2
  || match between with
     | [] => false
     | t :: rest =>
         (conflicts t1 t && must_wait t rest t2) || must_wait t1 rest t2
     end.

Definition panel_task (k : Z) : Task :=
  mkTask k Panel 1 [mkDep dep_inout k].
Definition lookahead_task (k j : Z) : Task :=
  mkTask k (LookaheadUpdate j) 1 [mkDep dep_in k; mkDep dep_inout j].
Definition trailing_task (lookahead A_nt k : Z) : Task :=
  mkTask k Trailing 0
    [mkDep dep_in k; mkDep dep_inout (k + 1 + lookahead);
     mkDep dep_inout (A_nt - 1)].
Definition cleanup_task (k : Z) : Task :=
  mkTask k Cleanup 0 [mkDep dep_inout k].

(** ** [ttmqr] (internal_ttmqr.cc, lines 41-260) *)

Inductive QrMatrix := Q_A | Q_T | Q_C.

(** The tile operations a rank calls; the kernels and the MPI transport
    behind them are external to the runtime. *)
Inductive TtmqrCall :=
| tileGetForReading (M : QrMatrix) (i j : Z)
| tileGetForWriting (M : QrMatrix) (i j : Z)
| tileSend (M : QrMatrix) (i j dst tag : Z)
| tileRecv (M : QrMatrix) (i j src tag : Z)
| tileTick (M : QrMatrix) (i j : Z)
| tpmqrt (side : Side) (op : Op) (l rank_ind i1 j1 i j : Z).

(** [std::set<int>::insert] on a sorted list without repetitions. *)
Fixpoint set_insert (x : Z) (s : list Z) : list Z :=
  match s with
  | [] => [x]
  | y :: s' =>
      if x <? y then x :: s
      else if x =? y then s
      else y :: set_insert x s'
  end.

(** Modelled from the spec: [getRanks] (BaseMatrix.hh, not in src/),
    "find ranks in this column of A": the set of the owners of the
    tiles of the matrix. *)
Definition getRanks (M : MatrixDesc) : list Z :=
  fold_left (fun s ij => set_insert (tileRank M (fst ij) (snd ij)) s)
            (list_prod (range 0 (mt M)) (range 0 (nt M))) [].

(** [std::sort(..., compareSecond)] as an insertion sort on the row
    index. *)
Fixpoint insert_by_second (x : Z * Z) (l : list (Z * Z)) : list (Z * Z) :=
  match l with
  | [] => [x]
  | y :: l' => if snd x <=? snd y then x :: l else y :: insert_by_second x l'
  end.

Definition sort_by_second (l : list (Z * Z)) : list (Z * Z) :=
  fold_right insert_by_second [] l.

(** [for (i = lo; i < hi; i += inc)]: the values visited, or [None]
    when the loop is still running after [fuel] iterations. *)
Fixpoint for_lt (fuel : nat) (i hi inc : Z) : option (list Z) :=
  match fuel with
  | O => None
  | S f =>
      if i <? hi
      then match for_lt f (i + inc) hi inc with
           | Some l => Some (i :: l)
           | None => None
           end
      else Some []
  end.

Definition tileIsLocal (M : MatrixDesc) (me i j : Z) : bool :=
  tileRank M i j =? me.

Section Ttmqr.
Variable A T_ C : MatrixDesc.
Variable me : Z.
Variable side : Side.
Variable op : Op.
Variable tag : Z.

Definition is_left : bool := match side with Left => true | Right => false end.

(** Lines 63-77. *)
Definition rank_indices : list (Z * Z) :=
  sort_by_second
    (flat_map
       (fun r =>
          match find (fun i => tileRank A i 0 =? r) (range 0 (mt A)) with
          | Some i => [(r, i)]
          | None => []
          end)
       (getRanks A)).

Definition nranks : Z := Z.of_nat (length rank_indices).

(** Line 80: [int(ceil(log2(nranks)))]. *)
Definition nlevels : Z := Z.log2_up nranks.

(** Line 98. *)
Definition descend : bool :=
  Bool.eqb is_left (Op_eqb op NoTrans).

(** Lines 99-103; [pow(2, -1)] is 0.5 and becomes the [int] 0, which is
    also what [2 ^ (-1)] is here. *)
Definition first_step : Z :=
  if descend then 2 ^ (nlevels - 1) else 1.

Definition k_end : Z := if is_left then nt C else mt C.

Definition second_at (index : Z) : Z :=
  snd (nth (Z.to_nat index) rank_indices (0, 0)).

(** [(i, j)] of the tile of [C] in row (Left) or column (Right) [r]. *)
Definition tile_of (r k : Z) : Z * Z :=
  if is_left then (r, k) else (k, r).

(** Lines 121-165: send tiles to the partner, or receive the
    partner's. *)
Definition ttmqr_exchange (step index k : Z) : list TtmqrCall :=
  let rank_ind := second_at index in
  let '(i, j) := tile_of rank_ind k in
  if tileIsLocal C me i j then
    if Z.rem index (2 * step) =? 0 then
      if index + step <? nranks then
        let '(i_dst, j_dst) := tile_of (second_at (index + step)) k in
        let dst := tileRank C i_dst j_dst in
        [tileGetForWriting Q_C i j; tileSend Q_C i j dst tag]
      else []
    else
      let '(i1, j1) := tile_of (second_at (index - step)) k in
      let src := tileRank C i1 j1 in
      [tileRecv Q_C i1 j1 src tag]
  else [].

(** Lines 167-208: apply Q to the pair of tiles. *)
Definition ttmqr_update (step index k : Z) : list TtmqrCall :=
  let rank_ind := second_at index in
  let '(i, j) := tile_of rank_ind k in
  if tileIsLocal C me i j then
    if negb (Z.rem index (2 * step) =? 0) then
      let '(i1, j1) := tile_of (second_at (index - step)) k in
      [tileGetForReading Q_A rank_ind 0;
       tileGetForReading Q_T rank_ind 0;
       tileGetForWriting Q_C i j;
       tpmqrt side op (Z.min (tileMb A rank_ind) (tileNb A 0))
              rank_ind i1 j1 i j;
       tileTick Q_A rank_ind 0;
       tileTick Q_T rank_ind 0]
    else []
  else [].

(** Lines 210-253: receive the updated tile back, or send it back. *)
Definition ttmqr_return (step index k : Z) : list TtmqrCall :=
  let rank_ind := second_at index in
  let '(i, j) := tile_of rank_ind k in
  if tileIsLocal C me i j then
    if Z.rem index (2 * step) =? 0 then
      if index + step <? nranks then
        let '(i_dst, j_dst) := tile_of (second_at (index + step)) k in
        let dst := tileRank C i_dst j_dst in
        [tileRecv Q_C i j dst tag]
      else []
    else
      let '(i1, j1) := tile_of (second_at (index - step)) k in
      let src := tileRank C i1 j1 in
      [tileSend Q_C i1 j1 src tag; tileTick Q_C i1 j1]
  else [].

(** Body of the [index] loop, lines 117-253. *)
Definition ttmqr_index (step index : Z) : list TtmqrCall :=
  flat_map (ttmqr_exchange step index) (range 0 k_end)
  ++ flat_map (ttmqr_update step index) (range 0 k_end)
  ++ flat_map (ttmqr_return step index) (range 0 k_end).

(** Lines 115-259: the remaining [levels] levels, starting with
    [step]. *)
Fixpoint ttmqr_levels (levels : nat) (step : Z) : option (list TtmqrCall) :=
  match levels with
  | O => Some []
  | S l =>
      match for_lt (S (Z.to_nat nranks)) 0 nranks step with
      | None => None
      | Some indices =>
          match ttmqr_levels l (if descend then Z.quot step 2 else step * 2)
          with
          | None => None
          | Some later => Some (flat_map (ttmqr_index step) indices ++ later)
          end
      end
  end.

(** [ttmqr(TargetType<HostTask>, ...)] as run by rank [me]: the tile
    operations it calls, or [None] when an assertion of lines 53-57
    fails or a loop does not end. *)
Definition ttmqr : option (list TtmqrCall) :=
  if negb (nt A =? 1) then None
  else if negb (mt A =? (if is_left then mt C else nt C)) then None
  else ttmqr_levels (Z.to_nat nlevels) first_step.

End Ttmqr.

(** What the calls of one rank do to its state: the state changes only
    through the calls, whatever each call does. *)
Definition run_ttmqr {St : Type} (exec : TtmqrCall -> St -> St)
    (calls : list TtmqrCall) (st : St) : St :=
  fold_left (fun st c => exec c st) calls st.

Definition is_comm (c : TtmqrCall) : bool :=
  match c with
  | tileSend _ _ _ _ _ | tileRecv _ _ _ _ _ => true
  | _ => false
  end.

(** ** [tzset_func] (hip/device_tzset.hip.cc, lines 23-45) *)

(** [for (int i = lo; i < hi; i += inc)] with an [int] counter: the
    values visited, or [None] when the loop is still running after
    [fuel] iterations. *)
Fixpoint for_lt_int (fuel : nat) (i hi inc : Z) : option (list Z) :=
  match fuel with
  | O => None
  | S f =>
      if i <? hi
      then match for_lt_int f (to_int (i + inc)) hi inc with
           | Some l => Some (i :: l)
           | None => None
           end
      else Some []
  end.

Section Tzset.
Context {T : Type}.
Variable uplo : Uplo.
Variables m n : Z.
Variables offdiag_value diag_value : T.
Variable lda : Z.

(** Lines 36 and 41: [rowA[ j*lda ] = i == j ? diag_value :
    offdiag_value] with [rowA = &A[ i ]]. *)
Definition tzset_store (i j : Z) (A : Z -> T) : Z -> T :=
  fun q =>
    if q =? i + j * lda
    then (if i =? j then diag_value else offdiag_value)
    else A q.

(** Lines 34-43: the row of thread iteration [i].  [Lower] runs
    [j = 0, 1, ...] while [j <= i && j < n]; any other [uplo] runs
    [j = n-1, n-2, ...] while [j >= i]. *)
Definition tzset_row (i : Z) (A : Z -> T) : Z -> T :=
  match uplo with
  | Lower =>
      fold_left (fun A j => tzset_store i j A) (range 0 (Z.min (i + 1) n)) A
  | _ =>
      fold_left (fun A j => tzset_store i j A) (rev (range i n)) A
  end.

(** Lines 31-44 for the thread [threadIdx] of a block of [blockDim]
    threads. *)
Definition tzset_func (fuel : nat) (blockDim threadIdx : Z) (A : Z -> T)
  : option (Z -> T) :=
  match for_lt_int fuel (to_int threadIdx) m blockDim with
  | Some rows => Some (fold_left (fun A i => tzset_row i A) rows A)
  | None => None
  end.

(** [tzset_kernel] on one thread block: every thread runs [tzset_func].
    The threads write different rows; they are run here in the order
    of their index. *)
Definition tzset_kernel (fuel : nat) (blockDim : Z) (A : Z -> T)
  : option (Z -> T) :=
  fold_left
    (fun oA threadIdx =>
       match oA with
       | Some A => tzset_func fuel blockDim threadIdx A
       | None => None
       end)
    (range 0 blockDim) (Some A).

(** The trapezoid [uplo] selects. *)
Definition in_trapezoid (i j : Z) : Prop :=
  match uplo with
  | Lower => j <= i
  | _ => i <= j
  end.

End Tzset.

(** ** Tile widths of a matrix built from a tile-size function
    (examples/ex13_non_uniform_block_size.cc) *)

Definition Zsum (l : list Z) : Z := fold_right Z.add 0 l.

(** Modelled from the spec: the [Matrix] constructor that takes the
    user's tile-size functions (BaseMatrix.hh, not in src/).  Section 6
    asks that the tile widths sum to [N] ("sum constraints ...
    Σ tileNb(j) = N must hold"): starting at column 0, tile [j] gets the
    width the user's function gives, cut to the columns that are left,
    and tiles are added until the [N] columns are used up.  [None] when
    this is still going on after [fuel] tiles. *)
Fixpoint tile_widths (fuel : nat) (inTileNb : Z -> Z) (n j jj : Z)
  : option (list Z) :=
  match fuel with
  | O => None
  | S f =>
      if jj <? n then
        let nb := Z.min (inTileNb j) (n - jj) in
        match tile_widths f inTileNb n (j + 1) (jj + nb) with
        | Some l => Some (nb :: l)
        | None => None
        end
      else Some []
  end.

Definition matrix_tile_widths (inTileNb : Z -> Z) (n : Z) : option (list Z) :=
  tile_widths (S (Z.to_nat n)) inTileNb n 0 0.

(** [A.nt()] and [A.tileNb(j)] of the matrix with these widths. *)
Definition widths_nt (widths : list Z) : Z := Z.of_nat (length widths).
Definition widths_tileNb (widths : list Z) (j : Z) : Z :=
  nth (Z.to_nat j) widths 0.

(** ex13, lines 58-63: [count] iterations of the loop from [j] with the
    running sum [jj]; [None] when the assertion of line 61 fails.  [j]
    and [jj] are [int]s. *)
Fixpoint ex13_loop (count : nat) (A_tileNb tileNb : Z -> Z) (n j jj : Z)
  : option Z :=
  match count with
  | O => Some jj
  | S c =>
      if A_tileNb j =? Z.min (tileNb j) (n - jj)
      then ex13_loop c A_tileNb tileNb n
                     (to_int (j + 1)) (to_int (jj + A_tileNb j))
      else None
  end.

(** ex13, lines 57-64: do all assertions hold ? *)
Definition ex13_verify (A_nt : Z) (A_tileNb tileNb : Z -> Z) (n : Z) : bool :=
  match ex13_loop (Z.to_nat (to_int A_nt)) A_tileNb tileNb n 0 0 with
  | Some jj => jj =? n
  | None => false
  end.

(** ex13, lines 24-28: [nb/2] for odd [j], [nb] for even [j]. *)
Definition ex13_tileNb (nb_ : Z) (j : Z) : Z :=
  if negb (Z.rem j 2 =? 0) then Z.quot nb_ 2 else nb_.

(** ** What [permuteRowsCols] is to do: a symmetric permutation *)

Definition idx_eqb (a b : Z * Z) : bool :=
  (fst a =? fst b) && (snd a =? snd b).

(** The transposition of the logical indices [x1] and [x2]. *)
Definition swap_idx (x1 x2 a : Z * Z) : Z * Z :=
  if idx_eqb a x1 then x2 else if idx_eqb a x2 then x1 else a.

(** The stored cell of entry [(a, b)]. *)
Definition cell_of (a b : Z * Z) : Cell :=
  mkCell (fst a) (fst b) (snd a) (snd b).

(** Pivot entry [i1 -> p] swaps row/column [(0, i1)] with row/column
    [(tileIndex p, elementOffset p)]; an entry that is "on the
    diagonal" for the code (line 613) swaps nothing. *)
Definition pivot_swap (i1 : Z) (p : Pivot) (a : Z * Z) : Z * Z :=
  if (tileIndex p >? 0) || (elementOffset p >? i1)
  then swap_idx (0, i1) (tileIndex p, elementOffset p) a
  else a.

(** The permutation of the whole pivot vector: where logical index [a]
    of the result comes from. *)
Definition pivot_perm (direction : Direction) (pivot : list Pivot)
    (a : Z * Z) : Z * Z :=
  fold_right (fun i1 x => pivot_swap i1 (pivot_at pivot i1) x) a
             (pivot_order direction (pivot_size pivot)).

(** [A == conj_transpose(A)] for the matrix the stored triangle stands
    for. *)
Definition hermitian {T} `{Scalar T} (A : MatrixDesc) (W : World T) : Prop :=
  forall a b, valid_idx A a -> valid_idx A b ->
              herm A W a b = conj (herm A W b a).

Definition valid_pivots (A : MatrixDesc) (pivot : list Pivot) : Prop :=
  pivot_size pivot <= tileNb A 0
  /\ forall i, 0 <= i < pivot_size pivot ->
       0 <= tileIndex (pivot_at pivot i) < nt A
       /\ 0 <= elementOffset (pivot_at pivot i)
          < tileNb A (tileIndex (pivot_at pivot i)).

(** ** [makeParallelPivot] (internal_swap.cc, lines 30-74) *)

(** Modelled from the spec: the comparison of two pivots ([operator!=]
    of [Pivot], slate/types.hh, not in src/) -- a pivot is the pair
    "{tile_index, element_offset}" (section 3), and two pivots are the
    same when both fields are. *)
Definition Pivot_eqb (p q : Pivot) : bool :=
  (tileIndex p =? tileIndex q) && (elementOffset p =? elementOffset q).

(** [std::map<Pivot, Pivot>] as an association list with one entry per
    key; the routine reaches the map through [operator[]] only, so the
    order of the entries is not observed. *)
Definition PivotMap := list (Pivot * Pivot).

Fixpoint pm_find (k : Pivot) (m : PivotMap) : option Pivot :=
  match m with
  | [] => None
  | (k', v) :: m' => if Pivot_eqb k k' then Some v else pm_find k m'
  end.

(** [pivot_map[k] = v]. *)
Fixpoint pm_assign (k v : Pivot) (m : PivotMap) : PivotMap :=
  match m with
  | [] => [(k, v)]
  | (k', v') :: m' =>
      if Pivot_eqb k k' then (k, v) :: m' else (k', v') :: pm_assign k v m'
  end.

Section MakeParallelPivot.
(** What [Pivot()] holds: [operator[]] stores it under a key that is
    not in the map yet. *)
Variable default_pivot : Pivot.

(** [pivot_map[k]] read as a value: the entry, after inserting a
    default one when the key is missing. *)
Definition pm_at (k : Pivot) (m : PivotMap) : Pivot * PivotMap :=
  match pm_find k m with
  | Some v => (v, m)
  | None => (default_pivot, pm_assign k default_pivot m)
  end.

(** [std::swap( pivot_map[a], pivot_map[b] )]. *)
Definition pm_swap (a b : Pivot) (m : PivotMap) : PivotMap :=
  let '(va, m) := pm_at a m in
  let '(vb, m) := pm_at b m in
  if Pivot_eqb a b then m else pm_assign a vb (pm_assign b va m).

(** Lines 47-53: put the participating rows in the map. *)
Definition pivot_map_rows (pivot : list Pivot) (order : list Z)
    (pivot_map : PivotMap) : PivotMap :=
  fold_left
    (fun m i =>
       if negb (Pivot_eqb (pivot_at pivot i) (mkPivot 0 i))
       then pm_assign (pivot_at pivot i) (pivot_at pivot i)
              (pm_assign (mkPivot 0 i) (mkPivot 0 i) m)
       else m)
    order pivot_map.

(** Lines 55-58: perform pivoting in the map. *)
Definition pivot_map_swaps (pivot : list Pivot) (order : list Z)
    (pivot_map : PivotMap) : PivotMap :=
  fold_left
    (fun m i =>
       if negb (Pivot_eqb (pivot_at pivot i) (mkPivot 0 i))
       then pm_swap (pivot_at pivot i) (mkPivot 0 i) m
       else m)
    order pivot_map.

(** [makeParallelPivot(direction, pivot, pivot_map)]: the map after the
    call. *)
Definition makeParallelPivot (direction : Direction) (pivot : list Pivot)
    (pivot_map : PivotMap) : PivotMap :=
  let order := pivot_order direction (pivot_size pivot) in
  pivot_map_swaps pivot order (pivot_map_rows pivot order pivot_map).

End MakeParallelPivot.

(** *** The block columns a task works on

    Lines 141-143 and 210-291: the panel task factors [A.sub(k, mt-1, k, k)];
    the update task of column [j] reads the panel (block column [k]) and
    writes [A.sub(k, mt-1, j, j)]; the trailing task reads the panel and
    writes [A.sub(k, mt-1, k+1+lookahead, nt-1)]; the last task of the
    step releases the tiles of block column [k]. *)
Definition task_reads (t : Task) (c : Z) : bool :=
  match t_kind t with
  | Panel => false
  | LookaheadUpdate _ => c =? t_step t
  | Trailing => c =? t_step t
  | Cleanup => false
  end.

Definition task_writes (lookahead A_nt : Z) (t : Task) (c : Z) : bool :=
  match t_kind t with
  | Panel => c =? t_step t
  | LookaheadUpdate j => c =? j
  | Trailing => (t_step t + 1 + lookahead <=? c) && (c <? A_nt)
  | Cleanup => c =? t_step t
  end.

(** *** The panel the device workspace is sized for (lines 81-103) *)

Record PanelSearch := mkPanelSearch {
  mlocal : Z;
  first_panel_seen : Z;
  panel_device : Z
}.

Section GeqrfPanelSearch.
Variable A : MatrixDesc.
(** [A.tileDevice(i, j)]. *)
Variable tileDevice : Z -> Z -> Z.
Variable me : Z.

(** Lines 87-97: the body of the inner loop, for tile [(i, j)]. *)
Definition panel_search_tile (j : Z) (st : PanelSearch) (i : Z)
  : PanelSearch :=
  if tileIsLocal A me i j then
    let st :=
      if first_panel_seen st <? 0
      then mkPanelSearch (mlocal st) j (panel_device st) else st in
    if first_panel_seen st =? j then
      let st :=
        if panel_device st <? 0
        then mkPanelSearch (mlocal st) (first_panel_seen st) (tileDevice i j)
        else st in
      mkPanelSearch (mlocal st + tileMb A i) (first_panel_seen st)
                    (panel_device st)
    else st
  else st.

(** Lines 85-102: the loop over the block columns, left by [break] once
    a panel has been seen. *)
Fixpoint panel_search_cols (js : list Z) (st : PanelSearch) : PanelSearch :=
  match js with
  | [] => st
  | j :: js' =>
      let st := fold_left (panel_search_tile j) (range j (mt A)) st in
      if first_panel_seen st >=? 0 then st else panel_search_cols js' st
  end.

(** Lines 83-102. *)
Definition geqrf_panel_search : PanelSearch :=
  panel_search_cols (range 0 (nt A)) (mkPanelSearch 0 (-1) (-1)).

End GeqrfPanelSearch.

(** ** The [tzset] launchers (hip/device_tzset.hip.cc, lines 103-122 and
    192-215) *)

(** Lines 114 and 207: [int nthreads = std::min( int64_t( 1024 ), m );] *)
Definition tzset_nthreads (m : Z) : Z := to_int (Z.min 1024 m).

(** A dimension of [dim3] is an [unsigned int]. *)
Definition to_uint (z : Z) : Z := z mod 2 ^ 32.

Section TzsetLaunch.
Context {T : Type}.
(** Whether the runtime accepts a launch of that many blocks of that
    many threads: [hipGetLastError() == hipSuccess] after the launch. *)
Variable launch_ok : Z -> Z -> bool.
Variable uplo : Uplo.
Variables m n : Z.
Variables offdiag_value diag_value : T.

(** The threads of one block, run one after the other in the order
    [tids]. *)
Definition tzset_threads (lda : Z) (fuel : nat) (blockDim : Z)
    (tids : list Z) (A : Z -> T) : option (Z -> T) :=
  fold_left
    (fun oA threadIdx =>
       match oA with
       | Some A =>
           tzset_func uplo m n offdiag_value diag_value lda fuel blockDim
                      threadIdx A
       | None => None
       end)
    tids (Some A).

(** [tzset(uplo, m, n, offdiag_value, diag_value, A, lda, queue)], lines
    103-122: one block of [nthreads] threads on the array [A]; [None] is
    the failed [slate_assert( error == hipSuccess )]. *)
Definition tzset (A : Z -> T) (lda : Z) : option (Z -> T) :=
  let nthreads := tzset_nthreads m in
  if launch_ok (to_uint 1) (to_uint nthreads)
  then tzset_kernel uplo m n offdiag_value diag_value lda
                    (S (Z.to_nat m)) (to_uint nthreads) A
  else None.

(** A thread block working on the array that starts at address [base]
    of the device memory [mem]. *)
Definition at_base (base : Z) (f : (Z -> T) -> option (Z -> T))
    (mem : Z -> T) : option (Z -> T) :=
  match f (fun q => mem (base + q)) with
  | Some A' => Some (fun a => A' (a - base))
  | None => None
  end.

(** [batch::tzset(uplo, m, n, offdiag_value, diag_value, Aarray, lda,
    batch_count, queue)], lines 192-215: block [blockIdx.x] of the grid
    runs [tzset_func] on [Aarray[ blockIdx.x ]]. *)
Definition tzset_batch (Aarray : Z -> Z) (lda batch_count : Z)
    (mem : Z -> T) : option (Z -> T) :=
  if batch_count =? 0 then Some mem
  else
    let nthreads := tzset_nthreads m in
    if launch_ok (to_uint batch_count) (to_uint nthreads)
    then
      fold_left
        (fun omem blockIdx =>
           match omem with
           | Some mem =>
               at_base (Aarray blockIdx)
                 (tzset_kernel uplo m n offdiag_value diag_value lda
                               (S (Z.to_nat m)) (to_uint nthreads)) mem
           | None => None
           end)
        (range 0 (to_uint batch_count)) (Some mem)
    else None.

End TzsetLaunch.

(** ** [internal::set] on a trapezoid matrix (internal_tzset.cc) *)

(** What a target implementation of [set] does on a rank: the tiles it
    gets for writing and the tile or batch kernels it calls with their
    arguments.  [device::geset] gets its tiles as a part of the batch
    array: [g_tiles] are the tiles whose pointers it is handed. *)
Inductive SetCall (T : Type) :=
| set_tileGetForWriting (i j : Z)
| tile_set (i j : Z) (offdiag_value diag_value : T)
| set_tilesGetForWriting (tiles : list (Z * Z)) (device : Z)
| device_memcpy (batch_count : Z) (device : Z)
| device_geset (mb nb : Z) (offdiag_value diag_value : T)
    (tiles : list (Z * Z)) (lda group_count : Z) (device : Z)
| queue_sync (device : Z).

Arguments set_tileGetForWriting {T}.
Arguments tile_set {T}.
Arguments set_tilesGetForWriting {T}.
Arguments device_memcpy {T}.
Arguments device_geset {T}.
Arguments queue_sync {T}.

(** A call that returns, or [slate_not_implemented]. *)
Inductive SetResult (T : Type) :=
| set_done (calls : list (SetCall T))
| set_not_implemented.

Arguments set_done {T}.
Arguments set_not_implemented {T}.

(** [std::set<ij_tuple>::insert]: tuples are kept in lexicographic
    order, without repetitions. *)
Definition ij_ltb (a b : Z * Z) : bool :=
  (fst a <? fst b) || ((fst a =? fst b) && (snd a <? snd b)).

Definition ij_eqb (a b : Z * Z) : bool :=
  (fst a =? fst b) && (snd a =? snd b).

Fixpoint ij_set_insert (x : Z * Z) (s : list (Z * Z)) : list (Z * Z) :=
  match s with
  | [] => [x]
  | y :: s' =>
      if ij_ltb x y then x :: s
      else if ij_eqb x y then s
      else y :: ij_set_insert x s'
  end.

Section InternalSet.
Context {T : Type}.
Variable A : MatrixDesc.
(** [A.uplo()], [A.mpiRank()], [A.tileDevice(i, j)],
    [A(i, j, device).stride()] and [A.num_devices()]. *)
Variable uplo : Uplo.
Variable me : Z.
Variable tileDevice : Z -> Z -> Z.
Variable tileStride : Z -> Z -> Z.
Variable num_devices : Z.

(** The rows [i] the loops visit in block column [j]: lines 49-50
    ([for i = j; i < mt]) and 66-67 ([for i = 0; i <= j && i < mt]). *)
Definition trapezoid_rows (j : Z) : list Z :=
  match uplo with
  | Lower => range j (mt A)
  | _ => range 0 (Z.min (j + 1) (mt A))
  end.

(** [set(TargetType<HostTask>, ...)], lines 38-82. *)
Definition set_HostTask (offdiag_value diag_value : T) : list (SetCall T) :=
  flat_map
    (fun j =>
       flat_map
         (fun i =>
            if tileIsLocal A me i j then
              [set_tileGetForWriting i j;
               if i =? j then tile_set i j offdiag_value diag_value
               else tile_set i j offdiag_value offdiag_value]
            else [])
         (trapezoid_rows j))
    (range 0 (nt A)).

(** Lines 121-132: [irange] and [jrange] of the four regions (interior,
    last row, last column, corner). *)
Definition irange (q : Z) : Z * Z :=
  if (q =? 0) || (q =? 2) then (0, mt A - 1) else (mt A - 1, mt A).

Definition jrange (q : Z) : Z * Z :=
  if (q =? 0) || (q =? 1) then (0, nt A - 1) else (nt A - 1, nt A).

(** Lines 145-164: the tiles of the trapezoid that are local and on
    [device]. *)
Definition A_tiles_set (device : Z) : list (Z * Z) :=
  fold_left
    (fun s ij => ij_set_insert ij s)
    (flat_map
       (fun j =>
          flat_map
            (fun i =>
               if tileIsLocal A me i j && (device =? tileDevice i j)
               then [(i, j)] else [])
            (trapezoid_rows j))
       (range 0 (nt A)))
    [].

(** Lines 169-238: the tiles put in the batch array for region [q];
    [on_diag] tells the diagonal tiles (second pass, [q + 4]) from the
    others (first pass). *)
Definition group_tiles (device q : Z) (on_diag : bool) : list (Z * Z) :=
  let '(i0, i1) := irange q in
  let '(j0, j1) := jrange q in
  flat_map
    (fun j =>
       flat_map
         (fun i =>
            if tileIsLocal A me i j && (device =? tileDevice i j) then
              if Bool.eqb (i =? j) on_diag then [(i, j)] else []
            else [])
         (match uplo with
          | Lower => range (Z.max j i0) i1
          | _ => range i0 (Z.min i1 (j + 1))
          end))
    (range j0 j1).

(** [lda[q]]: 0, then the stride of each tile put in the group. *)
Definition group_lda (tiles : list (Z * Z)) : Z :=
  fold_left (fun _ ij => tileStride (fst ij) (snd ij)) tiles 0.

(** The eight groups in the order they are filled: off-diagonal tiles
    of regions 0-3, then diagonal tiles of regions 0-3. *)
Definition set_groups (device : Z) : list (Z * bool * list (Z * Z)) :=
  map (fun q => (q, false, group_tiles device q false)) (range 0 4)
  ++ map (fun q => (q, true, group_tiles device q true)) (range 0 4).

(** Lines 248-265: one [device::geset] per group that is not empty; the
    pointer into the batch array moves on by [group_count] after each
    call. *)
Fixpoint geset_calls (offdiag_value diag_value : T) (device : Z)
    (groups : list (Z * bool * list (Z * Z))) (a_array_dev : list (Z * Z))
  : list (SetCall T) :=
  match groups with
  | [] => []
  | (q, on_diag, tiles) :: rest =>
      let group_count := Z.of_nat (length tiles) in
      if group_count >? 0 then
        device_geset (tileMb A (fst (irange q))) (tileNb A (fst (jrange q)))
          offdiag_value (if on_diag then diag_value else offdiag_value)
          (firstn (Z.to_nat group_count) a_array_dev)
          (group_lda tiles) group_count device
        :: geset_calls offdiag_value diag_value device rest
             (skipn (Z.to_nat group_count) a_array_dev)
      else geset_calls offdiag_value diag_value device rest a_array_dev
  end.

(** The task of one device, lines 136-268. *)
Definition set_Devices_task (offdiag_value diag_value : T) (device : Z)
  : list (SetCall T) :=
  let groups := set_groups device in
  let a_array_host := flat_map (fun g => snd g) groups in
  [set_tilesGetForWriting (A_tiles_set device) device;
   device_memcpy (Z.of_nat (length a_array_host)) device]
  ++ geset_calls offdiag_value diag_value device groups a_array_host
  ++ [queue_sync device].

(** [set(TargetType<Devices>, ...)], lines 112-270: one task per
    device. *)
Definition set_Devices (offdiag_value diag_value : T) : list (SetCall T) :=
  flat_map (set_Devices_task offdiag_value diag_value)
           (range 0 num_devices).

(** [set<target>(...)], lines 22-30, with the target implementations of
    lines 38-270. *)
Definition internal_set (target : Target) (offdiag_value diag_value : T)
  : SetResult T :=
  match target with
  | HostTask => set_done (set_HostTask offdiag_value diag_value)
  | HostNest => set_not_implemented
  | HostBatch => set_not_implemented
  | Devices => set_done (set_Devices offdiag_value diag_value)
  end.

End InternalSet.

(** ex13, lines 30-36: the owner of tile [(i, j)] on a [p_] x [q_] grid,
    [int(i%p_ + (j%q_)*p_)]; no value when a grid dimension is 0. *)
Definition ex13_tileRank (p_ q_ : Z) (i j : Z) : option Z :=
  if (p_ =? 0) || (q_ =? 0) then None
  else Some (to_int (Z.rem i p_ + Z.rem j q_ * p_)).

(** ** The local part of the scaling factors
    (test/test_scale_row_col.cc, lines 193-215) *)

(** [std::copy( &src[ first ], &src[ last ], &dst[ d_first ] )] on
    vectors of [n_src] and [n_dst] entries; [None] when a range leaves
    its vector. *)
Definition copy_range {X : Type} (src : Z -> X) (n_src first last : Z)
    (dst : Z -> X) (n_dst d_first : Z) : option (Z -> X) :=
  if (0 <=? first) && (first <=? last) && (last <=? n_src)
     && (0 <=? d_first) && (d_first + (last - first) <=? n_dst)
  then Some (fun a =>
               if (d_first <=? a) && (a <? d_first + (last - first))
               then src (first + (a - d_first))
               else dst a)
  else None.

Record LocalCopy (X : Type) := mkLocalCopy {
  lc_ii : Z;
  lc_iilocal : Z;
  lc_local : Z -> X
}.
Arguments mkLocalCopy {X}.
Arguments lc_ii {X}.
Arguments lc_iilocal {X}.
Arguments lc_local {X}.

Section CopyLocalPart.
Context {X : Type}.
Variable tileMb : Z -> Z.
Variable A_mt : Z.
Variables p myrow : Z.
Variable R : Z -> X.
Variable R_size : Z.
Variable Rlocal_size : Z.

(** Lines 196-201, the body of the loop over the block rows; [i % p]
    has no value when [p] is 0. *)
Definition copy_local_step (st : option (LocalCopy X)) (i : Z)
  : option (LocalCopy X) :=
  match st with
  | None => None
  | Some st =>
      let mb_ := tileMb i in
      if p =? 0 then None
      else if Z.rem i p =? myrow then
        match copy_range R R_size (lc_ii st) (lc_ii st + mb_)
                         (lc_local st) Rlocal_size (lc_iilocal st) with
        | Some l =>
            Some (mkLocalCopy (lc_ii st + mb_) (lc_iilocal st + mb_) l)
        | None => None
        end
      else Some (mkLocalCopy (lc_ii st + mb_) (lc_iilocal st) (lc_local st))
  end.

(** Lines 193-203 (and 205-215 for [C], with [q], [mycol], [tileNb] and
    [nt]): the local vector after the loop, or [None] when a copy leaves
    a vector, a remainder by 0 is taken or the assertion of line 203
    fails. *)
Definition copy_local_part (Rlocal : Z -> X) : option (Z -> X) :=
  match fold_left copy_local_step (range 0 A_mt)
                  (Some (mkLocalCopy 0 0 Rlocal)) with
  | Some st =>
      if lc_iilocal st =? Rlocal_size then Some (lc_local st) else None
  | None => None
  end.

End CopyLocalPart.

(** ** Notions the properties are stated and proved with *)

(** Two vectors that only meet where they are the same vector. *)
Definition vec_ok (n : Z) (v1 v2 : Vec) : Prop :=
  forall c d d', vec_pos v1 n c = Some d -> vec_pos v2 n c = Some d' ->
                 d = d' /\ vec_cell v1 d = vec_cell v2 d.

Section PermuteRowsSwaps.
Variable A : MatrixDesc.
Variable pivot : list Pivot.

(** Whether iteration [(j, i)] swaps anything, on any rank. *)
Definition swap_performed (j i : Z) : bool :=
  let p := pivot_at pivot i in
  negb (tileRank A (tileIndex p) j =? tileRank A 0 j)
  || (tileIndex p >? 0) || (elementOffset p >? i).

(** Row [i] of the diagonal tile [(0, j)] and the row the pivot entry
    [i] names in block-column [j]. *)
Definition diag_row (j i : Z) : Vec := row_of 0 j NoTrans i 0.

Definition pivot_row (j i : Z) : Vec :=
  row_of (tileIndex (pivot_at pivot i)) j NoTrans
         (elementOffset (pivot_at pivot i)) 0.

End PermuteRowsSwaps.

(** Entry [i] of a serial (LAPACK-style) pivot vector names a row at or
    below row [i] of the panel: a row of a later tile, or the row of
    tile 0 with offset [i] or more.  It is the row that is exchanged
    with row [i], found among the rows not yet eliminated. *)
Definition pivot_at_or_below (pivot : list Pivot) (i : Z) : Prop :=
  let p := pivot_at pivot i in
  tileIndex p > 0 \/ (tileIndex p = 0 /\ i <= elementOffset p).

(** Two worlds with the same block-column [j]. *)
Definition agree_col {T} (j : Z) (W W' : World T) : Prop :=
  forall me c, c_j c = j -> W me c = W' me c.

(** [f] touches only block-column [j], and what it leaves there
    depends only on what was there. *)
Definition col_local {T} (j : Z) (f : World T -> World T) : Prop :=
  (forall W me c, c_j c <> j -> f W me c = W me c) /\
  (forall W W', agree_col j W W' -> agree_col j (f W) (f W')).

Section TzsetPattern.
Context {T : Type}.
Variable uplo : Uplo.
Variables m n : Z.
Variables offdiag_value diag_value : T.
Variable lda : Z.
Variable A0 : Z -> T.

(** The value the pattern gives element [(i, j)], and the elements of
    the trapezoid. *)
Definition tz_val (i j : Z) : T :=
  if i =? j then diag_value else offdiag_value.

Definition tz_valid (i j : Z) : Prop :=
  0 <= i < m /\ 0 <= j < n /\ in_trapezoid uplo i j.

(** Every element either is as in [A0] or holds the value the pattern
    gives it; the cells in [D] all hold their value. *)
Definition tz_post (D : Z -> Z -> Prop) (A : Z -> T) : Prop :=
  (forall q, A q = A0 q
             \/ exists i j, tz_valid i j /\ q = i + j * lda
                            /\ A q = tz_val i j)
  /\ forall i j, tz_valid i j -> D i j -> A (i + j * lda) = tz_val i j.

End TzsetPattern.

Section SweepDef.
Context {T : Type}.
Variable P : Z -> World T -> World T.

(** [P j] applied for every [j] of [l] in turn. *)
Definition sweep (l : list Z) (W : World T) : World T :=
  fold_left (fun W j => P j W) l W.

End SweepDef.

(** Conjugated swap of two vectors of one tile memory: [lacgv] on both,
    then the swap. *)
Definition cswap {T} `{Scalar T} (cj : bool) (n : Z) (v1 v2 : Vec)
    (g : Tiles T) : Tiles T :=
  swap_vec n v1 v2 (if cj then conj_vec n v2 (conj_vec n v1 g) else g).

(** Two tile memories with the same content. *)
Definition teq {T} (g g' : Tiles T) : Prop := forall c, g c = g' c.

Section OneMatrix.
Context {T : Type} `{Scalar T}.
Variable A : MatrixDesc.

(** The rank that owns the tile of vector [v]. *)
Definition owner (v : Vec) : Z := tileRank A (v_i v) (v_j v).

(** The matrix as one tile memory: every tile read on its owner. *)
Definition gather (W : World T) : Tiles T :=
  fun c => W (tileRank A (c_i c) (c_j c)) c.

(** A collective step and the change of the one matrix it amounts
    to. *)
Definition amounts_to (step : Z -> list Call) (f : Tiles T -> Tiles T)
  : Prop :=
  (forall W, teq (gather (spmd (fun me => run_calls (step me)) W))
                 (f (gather W)))
  /\ (forall g g', teq g g' -> teq (f g) (f g')).

(** Changes of the one matrix made one after the other. *)
Definition serial (fs : list (Tiles T -> Tiles T)) (g : Tiles T) : Tiles T :=
  fold_left (fun g f => f g) fs g.

(** The pivot entry [i1 -> p] as a change of the one matrix. *)
Definition serial_pivot_steps (i1 : Z) (p : Pivot)
  : list (Tiles T -> Tiles T) :=
  let i2 := elementOffset p in
  let t2 := tileIndex p in
  if (t2 >? 0) || (i2 >? i1) then
    [cswap false i1 (row_of 0 0 NoTrans i1 0) (row_of t2 0 NoTrans i2 0)]
    ++ (if t2 =? 0 then
          [cswap true (i2 - i1 - 1)
             (row_of 0 0 Trans i1 (i1 + 1)) (row_of 0 0 NoTrans i2 (i1 + 1));
           cswap false (tileNb A 0 - i2 - 1)
             (row_of 0 0 Trans i1 (i2 + 1)) (row_of 0 0 Trans i2 (i2 + 1))]
        else
          [cswap true (tileNb A 0 - i1 - 1)
             (row_of 0 0 Trans i1 (i1 + 1)) (row_of t2 0 NoTrans i2 (i1 + 1));
           cswap true i2
             (row_of t2 0 Trans i1 0) (row_of t2 t2 NoTrans i2 0);
           cswap false (tileNb A t2 - i2 - 1)
             (row_of t2 0 Trans i1 (i2 + 1)) (row_of t2 t2 Trans i2 (i2 + 1))])
    ++ [conj_vec 1 (elem_of t2 0 i2 i1)]
    ++ [swap_vec 1 (elem_of 0 0 i1 i1) (elem_of t2 t2 i2 i2)]
    ++ map (fun t => cswap true (tileNb A t)
                       (row_of t 0 Trans i1 0) (row_of t2 t NoTrans i2 0))
           (range 1 t2)
    ++ map (fun t => cswap false (tileNb A t)
                       (row_of t 0 Trans i1 0) (row_of t t2 Trans i2 0))
           (range (t2 + 1) (nt A))
  else [].

End OneMatrix.

(** Two vectors with no cell in common. *)
Definition vec_disjoint (n : Z) (v1 v2 : Vec) : Prop :=
  forall c, vec_pos v1 n c <> None -> vec_pos v2 n c = None.

Section Pull.
Context {T : Type} `{Scalar T}.

(** What a conjugated swap leaves in each cell, in terms of what was
    there before. *)
Definition pull (cj : bool) (n : Z) (v1 v2 : Vec) (g : Tiles T) : Tiles T :=
  fun c =>
    match vec_pos v1 n c with
    | Some d => if cj then conj (g (vec_cell v2 d)) else g (vec_cell v2 d)
    | None =>
        match vec_pos v2 n c with
        | Some d => if cj then conj (g (vec_cell v1 d)) else g (vec_cell v1 d)
        | None => g c
        end
    end.

End Pull.

Section KeyLocal.
Context {T : Type}.
Variable key : Cell -> Z.

(** [f] touches only the cells of key [k], and what it leaves there
    depends only on what was there. *)
Definition key_local (k : Z) (f : Tiles T -> Tiles T) : Prop :=
  (forall g c, key c <> k -> f g c = g c)
  /\ (forall g g', (forall c, key c = k -> g c = g' c) ->
                   forall c, key c = k -> f g c = f g' c).

End KeyLocal.

Section PivotClosed.
Context {T : Type} `{Scalar T}.
Variable A : MatrixDesc.
Variables i1 i2 t2 : Z.

(** Key of a cell for the tiles between tile rows 0 and [t2]: tiles
    [(t, 0)] and [(t2, t)] have key [t]. *)
Definition key_between (c : Cell) : Z :=
  if c_j c =? 0 then c_i c else c_j c.

(** The pivot step in closed form, stage by stage. *)
Definition stage_rows (g : Tiles T) : Tiles T :=
  pull false i1 (row_of 0 0 NoTrans i1 0) (row_of t2 0 NoTrans i2 0) g.

Definition stage_tiles (g : Tiles T) : Tiles T :=
  if t2 =? 0 then
    pull false (tileNb A 0 - i2 - 1)
      (row_of 0 0 Trans i1 (i2 + 1)) (row_of 0 0 Trans i2 (i2 + 1))
      (pull true (i2 - i1 - 1)
         (row_of 0 0 Trans i1 (i1 + 1)) (row_of 0 0 NoTrans i2 (i1 + 1)) g)
  else
    pull false (tileNb A t2 - i2 - 1)
      (row_of t2 0 Trans i1 (i2 + 1)) (row_of t2 t2 Trans i2 (i2 + 1))
      (pull true i2
         (row_of t2 0 Trans i1 0) (row_of t2 t2 NoTrans i2 0)
         (pull true (tileNb A 0 - i1 - 1)
            (row_of 0 0 Trans i1 (i1 + 1))
            (row_of t2 0 NoTrans i2 (i1 + 1)) g)).

Definition stage_cross (g : Tiles T) : Tiles T :=
  conj_vec 1 (elem_of t2 0 i2 i1) g.

Definition stage_diag (g : Tiles T) : Tiles T :=
  pull false 1 (elem_of 0 0 i1 i1) (elem_of t2 t2 i2 i2) g.

Definition stage_between (g : Tiles T) : Tiles T :=
  fun c =>
    if (1 <=? key_between c) && (key_between c <? t2)
    then pull true (tileNb A (key_between c))
           (row_of (key_between c) 0 Trans i1 0)
           (row_of t2 (key_between c) NoTrans i2 0) g c
    else g c.

Definition stage_below (g : Tiles T) : Tiles T :=
  fun c =>
    if (t2 + 1 <=? c_i c) && (c_i c <? nt A)
    then pull false (tileNb A (c_i c))
           (row_of (c_i c) 0 Trans i1 0) (row_of (c_i c) t2 Trans i2 0) g c
    else g c.

Definition pivot_closed (g : Tiles T) : Tiles T :=
  stage_below (stage_between (stage_diag (stage_cross
    (stage_tiles (stage_rows g))))).

End PivotClosed.

(** Entry [(a, b)] of the Hermitian matrix whose lower triangle is in
    the tile memory [g]. *)
Definition hermval {T} `{Scalar T} (g : Tiles T) (a b : Z * Z) : T :=
  if idx_le b a then g (cell_of a b) else conj (g (cell_of b a)).

(** The coordinate of cell [c] that is constant along vector [v], the
    one that runs along it, and the cells of the first [n] elements of
    [v]. *)
Definition v_fixed (v : Vec) (c : Cell) : Z :=
  if v_trans v then c_col c else c_row c.

Definition v_run (v : Vec) (c : Cell) : Z :=
  if v_trans v then c_row c else c_col c.

Definition in_vec (v : Vec) (n : Z) (c : Cell) : Prop :=
  c_i c = v_i v /\ c_j c = v_j v /\ v_fixed v c = v_off v
  /\ v_lo v <= v_run v c < v_lo v + n.

(** The cell of row [a] (tile row, offset) in block-column [j], column
    [col]. *)
Definition row_cell (a : Z * Z) (j col : Z) : Cell :=
  mkCell (fst a) j (snd a) col.

(** The row/column indices of the matrix, tile by tile, and its
    diagonal entries in that order. *)
Definition all_idx (A : MatrixDesc) : list (Z * Z) :=
  flat_map (fun t => map (fun r => (t, r)) (range 0 (tileNb A t)))
           (range 0 (nt A)).

Definition diagonal {T} (A : MatrixDesc) (W : World T) : list T :=
  map (fun a => stored A W a a) (all_idx A).

(** Serial (LAPACK-style) pivoting of rows held in [f]: entry [i]
    interchanges row [(0, i)] and row [pivot[i]]. *)
Definition interchange {X} (a b : Pivot) (f : Pivot -> X) : Pivot -> X :=
  fun r => if Pivot_eqb r a then f b else if Pivot_eqb r b then f a else f r.

Definition serial_pivoting {X} (pivot : list Pivot) (order : list Z)
    (f : Pivot -> X) : Pivot -> X :=
  fold_left (fun f i => interchange (mkPivot 0 i) (pivot_at pivot i) f)
            order f.

(** Row [k] takes part in the pivoting. *)
Definition participates (pivot : list Pivot) (order : list Z) (k : Pivot)
  : Prop :=
  exists i, In i order /\ pivot_at pivot i <> mkPivot 0 i
            /\ (k = mkPivot 0 i \/ k = pivot_at pivot i).

(** Two tasks that may not run at the same time: they work on a common
    block column and one of them writes it. *)
Definition data_conflict (lookahead A_nt : Z) (t1 t2 : Task) : Prop :=
  exists c,
    (task_writes lookahead A_nt t1 c = true
     /\ (task_reads t2 c = true \/ task_writes lookahead A_nt t2 c = true))
    \/ (task_reads t1 c = true /\ task_writes lookahead A_nt t2 c = true).

(** Place of a task in the emission order: step, then panel, updates by
    column, trailing update, release. *)
Definition task_key (t : Task) : Z * Z * Z :=
  match t_kind t with
  | Panel => (t_step t, 0, 0)
  | LookaheadUpdate j => (t_step t, 1, j)
  | Trailing => (t_step t, 2, 0)
  | Cleanup => (t_step t, 3, 0)
  end.

Definition key_lt (a b : Z * Z * Z) : Prop :=
  let '(a1, a2, a3) := a in
  let '(b1, b2, b3) := b in
  a1 < b1 \/ (a1 = b1 /\ (a2 < b2 \/ (a2 = b2 /\ a3 < b3))).

Definition task_lt (t1 t2 : Task) : Prop := key_lt (task_key t1) (task_key t2).

(** The rows of the tiles of block column [j], on or below the diagonal,
    that rank [me] owns. *)
Definition local_rows (A : MatrixDesc) (me j : Z) : list Z :=
  filter (fun i => tileIsLocal A me i j) (range j (mt A)).

(** The tiles a call writes, each with the two values it is set with. *)
Definition set_writes {T} (c : SetCall T) : list (Z * Z * T * T) :=
  match c with
  | tile_set i j o d => [(i, j, o, d)]
  | device_geset _ _ o d tiles _ _ _ => map (fun ij => (fst ij, snd ij, o, d)) tiles
  | _ => []
  end.

(** Tile [(i, j)] belongs to the trapezoid of an [mt] x [nt] tile
    matrix. *)
Definition trapezoid_tile (A : MatrixDesc) (uplo : Uplo) (i j : Z) : Prop :=
  0 <= i < mt A /\ 0 <= j < nt A
  /\ match uplo with Lower => j <= i | _ => i <= j end.

(** What [ttmqr] may do with a tile on rank [me]: tiles of [A] and [T]
    are only gotten for reading; a tile gotten for writing is a tile of
    [C] the rank owns; only tiles of [C] travel.  [tpmqrt] updates two
    tiles of [C]: the second, [C(i, j)], is the rank's own; the first,
    [C(i1, j1)], is a tile of the partner's row, for which see
    [tpmqrt_between_recv_send]. *)
Definition ttmqr_call_ok (C : MatrixDesc) (me : Z) (c : TtmqrCall) : Prop :=
  match c with
  | tileGetForReading M _ _ => M = Q_A \/ M = Q_T
  | tileGetForWriting M i j => M = Q_C /\ tileRank C i j = me
  | tileSend M _ _ _ _ => M = Q_C
  | tileRecv M _ _ _ _ => M = Q_C
  | tileTick _ _ _ => True
  | tpmqrt _ _ _ _ _ _ i j => tileRank C i j = me
  end.

(** Every [tpmqrt] of a call list stands between the receive of its
    first tile [C(i1, j1)] from the owner of that tile and the send of
    that tile back to its owner. *)
Definition tpmqrt_between_recv_send (C : MatrixDesc) (tag : Z)
    (calls : list TtmqrCall) : Prop :=
  forall pre post side op l rank_ind i1 j1 i j,
    calls = pre ++ tpmqrt side op l rank_ind i1 j1 i j :: post ->
    In (tileRecv Q_C i1 j1 (tileRank C i1 j1) tag) pre
    /\ In (tileSend Q_C i1 j1 (tileRank C i1 j1) tag) post.

Definition is_tpmqrt (c : TtmqrCall) : bool :=
  match c with tpmqrt _ _ _ _ _ _ _ _ => true | _ => false end.

(** Where block row [k] starts in the global vector, and where it starts
    in the local vector of the process row [myrow]. *)
Definition global_offset (tileMb : Z -> Z) (k : Z) : Z :=
  Zsum (map tileMb (range 0 k)).

Definition local_offset (tileMb : Z -> Z) (p myrow k : Z) : Z :=
  Zsum (map tileMb (filter (fun i => Z.rem i p =? myrow) (range 0 k))).

(** ** Sample inputs *)

(** A 2 x 1 tile matrix on two ranks: tile (0,0) on rank 0, tile (1,0)
    on rank 1; every cell holds a number that tells where it came from. *)
Definition A_two_ranks : MatrixDesc :=
  mkMatrix 2 1 (fun _ => 2) (fun _ => 2) (fun i _ => i).

Definition W_marked : World Z :=
  fun me c => 1000 * me + 100 * c_i c + 10 * c_row c + c_col c.

(** A one-rank matrix and a pivot vector whose entry 1 points above
    row 1. *)
Definition A_one_rank : MatrixDesc :=
  mkMatrix 1 1 (fun _ => 2) (fun _ => 2) (fun _ _ => 0).

Definition P_upward : list Pivot := [mkPivot 0 0; mkPivot 0 0].

(** A 3 x 1 panel whose tiles all live on rank 5, and a 3 x 2 matrix
    [C]. *)
Definition A_panel_one_rank : MatrixDesc :=
  mkMatrix 3 1 (fun _ => 4) (fun _ => 4) (fun _ _ => 5).

Definition C_two_columns : MatrixDesc :=
  mkMatrix 3 2 (fun _ => 4) (fun _ => 4) (fun i j => i + j).

(** A 4 x 4 complex Hermitian matrix in 2 x 2 tiles on two ranks: entry
    [(a, b)] is [(g a + g b) + (g a - g b) i] with [g] the global index;
    pivot entry 0 points at row 2 (tile 1, offset 0), entry 1 at row 1
    (skipped by the guard). *)
Definition A_herm : MatrixDesc :=
  mkMatrix 2 2 (fun _ => 2) (fun _ => 2) (fun i j => (i + j) mod 2).

Definition W_herm : World (Z * Z) :=
  fun _ c => let ga := 2 * c_i c + c_row c in
             let gb := 2 * c_j c + c_col c in
             (ga + gb, ga - gb).

Definition P_herm : list Pivot := [mkPivot 1 0; mkPivot 0 1].

(* ================================================================== *)
(** * Properties *)

(** ** Loops *)

Ltac zbool :=
  repeat match goal with
  | |- context [Z.eqb ?a ?b] => destruct (Z.eqb_spec a b)
  | |- context [Z.leb ?a ?b] => destruct (Z.leb_spec a b)
  | |- context [Z.ltb ?a ?b] => destruct (Z.ltb_spec a b)
  | |- context [Z.gtb ?a ?b] => rewrite (Z.gtb_ltb a b)
  | H : context [Z.eqb ?a ?b] |- _ => destruct (Z.eqb_spec a b)
  | H : context [Z.leb ?a ?b] |- _ => destruct (Z.leb_spec a b)
  | H : context [Z.ltb ?a ?b] |- _ => destruct (Z.ltb_spec a b)
  | H : context [Z.gtb ?a ?b] |- _ => rewrite (Z.gtb_ltb a b) in H
  end.

Lemma for_ne_up (n : nat) : forall (fuel : nat) (i : Z),
  (n < fuel)%nat ->
  for_ne fuel i (i + Z.of_nat n) 1 = map (fun k => i + Z.of_nat k) (seq 0 n).
Proof.
  induction n as [|n IH]; intros fuel i Hf.
  - destruct fuel; [lia|]. simpl. replace (i + 0) with i by lia.
    now rewrite Z.eqb_refl.
  - destruct fuel; [lia|]. cbn [for_ne].
    destruct (Z.eqb_spec i (i + Z.of_nat (S n))); [lia|].
    cbn [seq map]. f_equal; [f_equal; lia|].
    replace (i + Z.of_nat (S n)) with (i + 1 + Z.of_nat n) by lia.
    rewrite IH by lia. rewrite <- seq_shift, map_map.
    apply map_ext; intros; lia.
Qed.

Lemma for_ne_down (n : nat) : forall (fuel : nat) (i : Z),
  (n < fuel)%nat ->
  for_ne fuel (i + Z.of_nat n) i (-1)
  = rev (map (fun k => i + 1 + Z.of_nat k) (seq 0 n)).
Proof.
  induction n as [|n IH]; intros fuel i Hf.
  - destruct fuel; [lia|]. simpl. replace (i + 0) with i by lia.
    now rewrite Z.eqb_refl.
  - destruct fuel; [lia|]. cbn [for_ne].
    destruct (Z.eqb_spec (i + Z.of_nat (S n)) i); [lia|].
    replace (i + Z.of_nat (S n) + -1) with (i + Z.of_nat n) by lia.
    rewrite IH by lia.
    rewrite seq_S, map_app, rev_app_distr. cbn [map rev app].
    f_equal. lia.
Qed.

Lemma pivot_order_fuel_forward (k : nat) (extra : nat) :
  pivot_order_fuel (S k + extra) Forward (Z.of_nat k) = range 0 (Z.of_nat k).
Proof.
  unfold pivot_order_fuel, range; cbn [pivot_begin pivot_end pivot_inc].
  rewrite Z.sub_0_r, Nat2Z.id.
  apply (for_ne_up k (S k + extra) 0). lia.
Qed.

Lemma pivot_order_fuel_backward (k : nat) (extra : nat) :
  pivot_order_fuel (S k + extra) Backward (Z.of_nat k)
  = rev (range 0 (Z.of_nat k)).
Proof.
  unfold pivot_order_fuel, range; cbn [pivot_begin pivot_end pivot_inc].
  rewrite Z.sub_0_r, Nat2Z.id.
  replace (Z.of_nat k - 1) with (-1 + Z.of_nat k) by lia.
  rewrite (for_ne_down k (S k + extra) (-1)) by lia.
  f_equal.
Qed.

Lemma pivot_order_forward (k : nat) :
  pivot_order Forward (Z.of_nat k) = range 0 (Z.of_nat k).
Proof.
  unfold pivot_order. rewrite Nat2Z.id.
  replace (S k) with (S k + 0)%nat by lia. apply pivot_order_fuel_forward.
Qed.

Lemma pivot_order_backward (k : nat) :
  pivot_order Backward (Z.of_nat k) = rev (range 0 (Z.of_nat k)).
Proof.
  unfold pivot_order. rewrite Nat2Z.id.
  replace (S k) with (S k + 0)%nat by lia. apply pivot_order_fuel_backward.
Qed.

Lemma in_range (lo hi x : Z) : In x (range lo hi) <-> lo <= x < hi.
Proof.
  unfold range. rewrite in_map_iff. split.
  - intros (k & <- & Hk). apply in_seq in Hk. lia.
  - intros Hx. exists (Z.to_nat (x - lo)). split; [lia|].
    apply in_seq. lia.
Qed.

Lemma NoDup_range (lo hi : Z) : NoDup (range lo hi).
Proof.
  unfold range. generalize (seq_NoDup (Z.to_nat (hi - lo)) 0).
  generalize (seq 0 (Z.to_nat (hi - lo))) as l.
  induction l as [|a l IH]; intros Hnd; cbn [map]; constructor.
  - inversion Hnd as [|? ? Hn _]; subst. rewrite in_map_iff.
    intros (b & Hb & Hin). apply Hn.
    replace a with b by lia. exact Hin.
  - apply IH. now inversion Hnd.
Qed.

Lemma range_cons (lo hi : Z) :
  lo < hi -> range lo hi = lo :: range (lo + 1) hi.
Proof.
  intros Hlt. unfold range.
  replace (Z.to_nat (hi - lo)) with (S (Z.to_nat (hi - (lo + 1)))) by lia.
  cbn [seq map]. f_equal; [lia|].
  rewrite <- seq_shift, map_map. apply map_ext; intros; lia.
Qed.

Lemma range_nil (lo hi : Z) : hi <= lo -> range lo hi = [].
Proof.
  intros Hle. unfold range.
  replace (Z.to_nat (hi - lo)) with 0%nat by lia. reflexivity.
Qed.

(** ** Vectors and swaps *)

Lemma vec_pos_Some (v : Vec) (n : Z) (c : Cell) (d : Z) :
  vec_pos v n c = Some d -> vec_cell v d = c /\ 0 <= d < n.
Proof.
  unfold vec_pos, vec_cell. destruct c as [ci cj cr cc], v as [vi vj [] vo vl];
    cbn; intros Hp; zbool; cbn in Hp; try discriminate;
    injection Hp as <-; subst; split; try lia; f_equal; lia.
Qed.

Lemma vec_pos_cell (v : Vec) (n d : Z) :
  0 <= d < n -> vec_pos v n (vec_cell v d) = Some d.
Proof.
  intros Hd. unfold vec_pos, vec_cell. destruct v as [vi vj [] vo vl]; cbn;
    rewrite !Z.eqb_refl; cbn; zbool; try lia; cbn; f_equal; lia.
Qed.

Lemma vec_pos_col (v : Vec) (n : Z) (c : Cell) (d : Z) :
  vec_pos v n c = Some d -> c_i c = v_i v /\ c_j c = v_j v.
Proof.
  intros Hp. apply vec_pos_Some in Hp as [<- _].
  unfold vec_cell. destruct (v_trans v); cbn; auto.
Qed.

Lemma vec_cell_tile (v : Vec) (d : Z) :
  c_i (vec_cell v d) = v_i v /\ c_j (vec_cell v d) = v_j v.
Proof. unfold vec_cell. destruct (v_trans v); cbn; auto. Qed.

Section SwapFacts.
Context {T : Type} `{Scalar T}.

Lemma wswap_involutive (n r1 r2 : Z) (v1 v2 : Vec) (W : World T) :
  (r1 = r2 -> vec_ok n v1 v2) ->
  weq (wswap n r1 v1 r2 v2 (wswap n r1 v1 r2 v2 W)) W.
Proof.
  intros Hok me c. unfold wswap at 1.
  destruct (Z.eqb_spec me r1) as [->|Hm1].
  - destruct (vec_pos v1 n c) as [d|] eqn:P1.
    + pose proof (vec_pos_Some _ _ _ _ P1) as [Hc Hd].
      unfold wswap. destruct (Z.eqb_spec r2 r1) as [E|E].
      * destruct (vec_pos v1 n (vec_cell v2 d)) as [d'|] eqn:P1'.
        -- pose proof (vec_pos_cell v2 n d Hd) as P2.
           destruct (Hok (eq_sym E) _ _ _ P1' P2) as [-> Hcc].
           rewrite E. now rewrite <- Hcc, Hc.
        -- rewrite Z.eqb_refl, (vec_pos_cell v2 n d Hd). now rewrite Hc.
      * rewrite Z.eqb_refl, (vec_pos_cell v2 n d Hd). now rewrite Hc.
    + destruct (Z.eqb_spec r1 r2) as [E|E].
      * destruct (vec_pos v2 n c) as [d|] eqn:P2.
        -- pose proof (vec_pos_Some _ _ _ _ P2) as [Hc Hd].
           unfold wswap. rewrite Z.eqb_refl, (vec_pos_cell v1 n d Hd).
           now rewrite <- E, Hc.
        -- unfold wswap. rewrite Z.eqb_refl, P1.
           destruct (Z.eqb_spec r1 r2); [|contradiction]. now rewrite P2.
      * unfold wswap. rewrite Z.eqb_refl, P1.
        destruct (Z.eqb_spec r1 r2); [contradiction|]. reflexivity.
  - destruct (Z.eqb_spec me r2) as [->|Hm2].
    + destruct (vec_pos v2 n c) as [d|] eqn:P2.
      * pose proof (vec_pos_Some _ _ _ _ P2) as [Hc Hd].
        unfold wswap. rewrite Z.eqb_refl, (vec_pos_cell v1 n d Hd).
        now rewrite Hc.
      * unfold wswap. destruct (Z.eqb_spec r2 r1); [congruence|].
        rewrite Z.eqb_refl, P2. reflexivity.
    + unfold wswap. destruct (Z.eqb_spec me r1); [contradiction|].
      destruct (Z.eqb_spec me r2); [contradiction|]. reflexivity.
Qed.

End SwapFacts.

(** ** [permuteRows] *)

Section PermuteRowsFacts.
Context {T : Type} `{Scalar T}.
Variable A : MatrixDesc.
Variable pivot : list Pivot.

#[local] Abbreviation swap_performed := (swap_performed A pivot).
#[local] Abbreviation pivot_row := (pivot_row pivot).

Lemma permuteRows_step_spec (tag j i : Z) (W : World T) :
  weq (permuteRows_step A pivot tag j i W)
      (if swap_performed j i
       then wswap (tileNb A j) (tileRank A 0 j) (diag_row j i)
                  (tileRank A (tileIndex (pivot_at pivot i)) j) (pivot_row j i) W
       else W).
Proof.
  intros me c.
  unfold permuteRows_step, spmd, permuteRows_body, swap_performed,
    diag_row, pivot_row.
  set (p := pivot_at pivot i). set (r := tileRank A 0 j).
  set (pr := tileRank A (tileIndex p) j).
  destruct (Z.eqb_spec pr me) as [E1|E1]; destruct (Z.eqb_spec me r) as [E2|E2].
  - (* owner of both rows *)
    destruct (Z.eqb_spec pr r) as [_|N]; [|congruence]. cbn [negb orb].
    destruct ((tileIndex p >? 0) || (elementOffset p >? i)); cbn; [|reflexivity].
    unfold wswap, swap_vec. subst me. rewrite E2, Z.eqb_refl.
    destruct (Z.eqb_spec r pr); [|congruence]. reflexivity.
  - (* pivot owner, not the root *)
    destruct (Z.eqb_spec pr r) as [N|_]; [congruence|]. cbn.
    fold r. fold pr.
    destruct (Z.eqb_spec pr r) as [N|_]; [congruence|].
    rewrite Z.eqb_refl. cbn.
    unfold xchg_matches; cbn. subst me. rewrite !Z.eqb_refl. cbn.
    unfold recv_into, wswap; cbn.
    destruct (Z.eqb_spec pr r) as [N|_]; [congruence|].
    rewrite Z.eqb_refl. reflexivity.
  - (* root, not the pivot owner *)
    destruct (Z.eqb_spec pr r) as [N|_]; [congruence|]. cbn.
    fold pr. rewrite Z.eqb_refl.
    destruct (Z.eqb_spec pr r) as [N|_]; [congruence|]. cbn.
    unfold xchg_matches; cbn. rewrite <- E2, !Z.eqb_refl. cbn.
    unfold recv_into, wswap; cbn. rewrite Z.eqb_refl.
    destruct (Z.eqb_spec me pr) as [N|_]; [congruence|]. reflexivity.
  - (* bystander *)
    cbn.
    destruct (negb (pr =? r) || (tileIndex p >? 0) || (elementOffset p >? i));
      [|reflexivity].
    unfold wswap.
    destruct (Z.eqb_spec me r); [congruence|].
    destruct (Z.eqb_spec me pr); [congruence|]. reflexivity.
Qed.

End PermuteRowsFacts.

(** ** Operations that stay inside one block-column *)

Section ColumnLocal.
Context {T : Type}.
Implicit Types (W : World T) (f g : World T -> World T).

Lemma col_local_weq j f W W' :
  col_local j f -> weq W W' -> weq (f W) (f W').
Proof.
  intros [Hfr Hloc] HW me c. destruct (Z.eq_dec (c_j c) j) as [E|E].
  - apply Hloc; [|exact E]. intros me' c' _. apply HW.
  - now rewrite !Hfr.
Qed.

Lemma col_local_id j : col_local j (fun W => W).
Proof. split; auto. Qed.

Lemma col_local_comp j f g :
  col_local j f -> col_local j g -> col_local j (fun W => g (f W)).
Proof.
  intros [Ff Fl] [Gf Gl]. split.
  - intros W me c Hc. now rewrite Gf, Ff.
  - intros W W' HW. now apply Gl, Fl.
Qed.

Lemma col_local_ext j f g :
  (forall W, weq (f W) (g W)) -> col_local j g -> col_local j f.
Proof.
  intros E [Gf Gl]. split.
  - intros W me c Hc. now rewrite E, Gf.
  - intros W W' HW me c Hc. rewrite !E. now apply Gl.
Qed.

Lemma col_local_fold {X} j (F : X -> World T -> World T) (l : list X) :
  (forall x, col_local j (F x)) ->
  col_local j (fun W => fold_left (fun W x => F x W) l W).
Proof.
  intros HF. induction l as [|x l IH]; cbn [fold_left].
  - apply col_local_id.
  - exact (col_local_comp j (F x) _ (HF x) IH).
Qed.

(** Undoing a sequence of involutions in the reverse order. *)
Lemma fold_rev_undo {X} j (F : X -> World T -> World T) (l : list X) :
  (forall x, col_local j (F x)) ->
  (forall x W, weq (F x (F x W)) W) ->
  forall W,
    weq (fold_left (fun W x => F x W) (rev l)
           (fold_left (fun W x => F x W) l W)) W.
Proof.
  intros HF Hinv. induction l as [|x l IH]; intros W.
  - intros me c; reflexivity.
  - cbn [rev fold_left]. rewrite fold_left_app. cbn [fold_left].
    intros me c. rewrite (col_local_weq j (F x) _ (F x W) (HF x) (IH (F x W))).
    apply Hinv.
Qed.

(** A sweep over distinct block-columns acts on each column on its own. *)
Section Sweep.
Variable P : Z -> World T -> World T.
Hypothesis P_local : forall j, col_local j (P j).

#[local] Abbreviation sweep := (sweep P).

Lemma sweep_outside l : forall W me c,
  ~ In (c_j c) l -> sweep l W me c = W me c.
Proof.
  induction l as [|j l IH]; intros W me c Hn; cbn; [reflexivity|].
  unfold sweep in IH. rewrite IH by (intros Hin; apply Hn; now right).
  apply (proj1 (P_local j)). intros E. apply Hn. now left.
Qed.

Lemma sweep_inside l : NoDup l -> forall W me c,
  In (c_j c) l -> sweep l W me c = P (c_j c) W me c.
Proof.
  induction l as [|j l IH]; intros Hnd W me c Hin; [destruct Hin|].
  inversion Hnd as [|? ? Hnj Hnd']; subst. cbn.
  destruct (Z.eq_dec j (c_j c)) as [E|E].
  - subst j. now apply sweep_outside.
  - destruct Hin as [Hin|Hin]; [contradiction|].
    unfold sweep in IH. rewrite (IH Hnd' _ _ _ Hin).
    apply (proj2 (P_local (c_j c))); [|reflexivity].
    intros me' c' Hc'. apply (proj1 (P_local j)). congruence.
Qed.

End Sweep.
End ColumnLocal.

Section PermuteRowsRoundTrip.
Context {T : Type} `{Scalar T}.
Variable A : MatrixDesc.
Variable pivot : list Pivot.

Lemma wswap_col_local (n r1 r2 j : Z) (v1 v2 : Vec) :
  v_j v1 = j -> v_j v2 = j ->
  col_local j (wswap (T:=T) n r1 v1 r2 v2).
Proof.
  intros H1 H2. split.
  - intros W me c Hc. unfold wswap.
    destruct (vec_pos v1 n c) as [d|] eqn:P1;
      [apply vec_pos_col in P1; destruct P1; congruence|].
    destruct (vec_pos v2 n c) as [d|] eqn:P2;
      [apply vec_pos_col in P2; destruct P2; congruence|].
    now destruct (me =? r1), (me =? r2).
  - intros W W' HW me c Hc. unfold wswap.
    destruct (if me =? r1 then vec_pos v1 n c else None);
      [apply HW; rewrite <- H2; apply vec_cell_tile|].
    destruct (if me =? r2 then vec_pos v2 n c else None);
      [apply HW; rewrite <- H1; apply vec_cell_tile | now apply HW].
Qed.

Lemma rows_ok (n j i ti off : Z) :
  vec_ok n (row_of 0 j NoTrans i 0) (row_of ti j NoTrans off 0).
Proof.
  intros c d d' P1 P2. unfold vec_pos, row_of in *. cbn in *.
  destruct c as [ci cj cr cc]; cbn in *. zbool; cbn in *; try discriminate.
  injection P1 as <-. injection P2 as <-. subst.
  split; [reflexivity|]. unfold vec_cell; cbn. reflexivity.
Qed.

Lemma permuteRows_step_local (tag j i : Z) :
  col_local j (permuteRows_step (T:=T) A pivot tag j i).
Proof.
  apply (col_local_ext j _ _ (permuteRows_step_spec A pivot tag j i)).
  destruct (swap_performed A pivot j i).
  - now apply wswap_col_local.
  - apply col_local_id.
Qed.

Lemma permuteRows_step_involutive (tag j i : Z) (W : World T) :
  weq (permuteRows_step A pivot tag j i (permuteRows_step A pivot tag j i W)) W.
Proof.
  intros me c.
  rewrite (col_local_weq j _ _ _ (permuteRows_step_local tag j i)
             (permuteRows_step_spec A pivot tag j i W)).
  rewrite permuteRows_step_spec.
  destruct (swap_performed A pivot j i); [|reflexivity].
  apply wswap_involutive. intros _. apply rows_ok.
Qed.

Lemma permuteRows_column_local (d : Direction) (tag j : Z) :
  col_local j (permuteRows_column (T:=T) A pivot d tag j).
Proof.
  unfold permuteRows_column.
  apply (col_local_fold j (fun i W => permuteRows_step A pivot tag j i W)).
  intros i. apply permuteRows_step_local.
Qed.

Lemma permuteRows_column_round_trip (tag j : Z) (W : World T) :
  weq (permuteRows_column A pivot Backward tag j
         (permuteRows_column A pivot Forward tag j W)) W.
Proof.
  unfold permuteRows_column, pivot_size.
  rewrite pivot_order_forward, pivot_order_backward.
  apply (fold_rev_undo j (fun i W => permuteRows_step A pivot tag j i W)).
  - intros i. apply permuteRows_step_local.
  - intros i W'. apply permuteRows_step_involutive.
Qed.

Lemma permuteRows_round_trip
    (layout : Layout) (priority tag queue_index : Z) (W : World T) :
  weq (permuteRows_HostTask A pivot Backward layout priority tag queue_index
         (permuteRows_HostTask A pivot Forward layout priority tag
            queue_index W)) W.
Proof.
  intros me c. unfold permuteRows_HostTask.
  change (sweep (fun j => permuteRows_column A pivot Backward tag j)
            (range 0 (nt A))
            (sweep (fun j => permuteRows_column A pivot Forward tag j)
               (range 0 (nt A)) W) me c = W me c).
  destruct (in_dec Z.eq_dec (c_j c) (range 0 (nt A))) as [Hin|Hout].
  - rewrite sweep_inside;
      [|intros; apply permuteRows_column_local|apply NoDup_range|exact Hin].
    rewrite <- (permuteRows_column_round_trip tag (c_j c) W me c).
    apply (proj2 (permuteRows_column_local Backward tag (c_j c)));
      [|reflexivity].
    intros me' c' Hc'. rewrite <- Hc'. apply sweep_inside.
    + intros; apply permuteRows_column_local.
    + apply NoDup_range.
    + now rewrite Hc'.
  - rewrite !sweep_outside; auto; intros; apply permuteRows_column_local.
Qed.

End PermuteRowsRoundTrip.

(** ** [permuteRows]: round trip, host targets, swap cases *)

Example permuteRows_remote_example :
  let W' := permuteRows_HostTask A_two_ranks [mkPivot 1 1] Forward
              ColMajor 0 0 0 W_marked in
  W' 0 (mkCell 0 0 0 1) = 1111 /\ W' 1 (mkCell 1 0 1 1) = 1 /\
  W' 0 (mkCell 0 0 1 1) = 11 /\ W' 1 (mkCell 1 0 0 0) = 1100.
Proof. vm_compute. repeat split. Qed.

(** C1: applying [permuteRows] Forward and then Backward with the same
    pivot vector leaves every element of [A], on every rank, identical
    to its original value; the Forward loop visits the pivot entries
    [0 .. size-1], the Backward loop visits them in exactly the reverse
    order, and both loops end after [size] iterations (more fuel does
    not change them). *)
Theorem C1_permuteRows_round_trip {T : Type} `{Scalar T}
    (A : MatrixDesc) (P : list Pivot) (layout : Layout)
    (priority tag queue_index : Z) (W : World T) :
  weq (permuteRows_HostTask A P Backward layout priority tag queue_index
         (permuteRows_HostTask A P Forward layout priority tag queue_index W))
      W
  /\ pivot_order Forward (pivot_size P) = range 0 (pivot_size P)
  /\ pivot_order Backward (pivot_size P)
     = rev (pivot_order Forward (pivot_size P))
  /\ forall (d : Direction) (extra : nat),
       pivot_order_fuel (S (length P) + extra) d (pivot_size P)
       = pivot_order d (pivot_size P).
Proof.
  split; [apply permuteRows_round_trip|].
  unfold pivot_size.
  rewrite pivot_order_forward, pivot_order_backward.
  repeat split.
  intros [] extra.
  - now rewrite pivot_order_fuel_forward, pivot_order_forward.
  - now rewrite pivot_order_fuel_backward, pivot_order_backward.
Qed.

(** C5: for every matrix, pivot vector, direction, layout and tag, the
    HostNest and HostBatch backends of [permuteRows] give exactly the
    result of the HostTask backend: the dispatcher reaches the HostTask
    implementation for all three. *)
Theorem C5_permuteRows_host_targets {T : Type} `{Scalar T}
    (A : MatrixDesc) (P : list Pivot) (direction : Direction)
    (layout : Layout) (priority tag queue_index : Z) (W : World T) :
  permuteRows A P HostNest direction layout priority tag queue_index W
  = permuteRows A P HostTask direction layout priority tag queue_index W
  /\ permuteRows A P HostBatch direction layout priority tag queue_index W
     = permuteRows A P HostTask direction layout priority tag queue_index W
  /\ permuteRows A P HostTask direction layout priority tag queue_index W
     = Some (permuteRows_HostTask A P direction layout priority tag
               queue_index W).
Proof.
  unfold permuteRows, permuteRows_HostNest, permuteRows_HostBatch.
  repeat split.
Qed.

(** An entry that names a row above its own is not one of a serial
    pivot vector.  The guard of line 232 skips it: with entry 1 equal to
    (0, 0) no rank makes a swap call at that entry and rows 0 and 1 are
    left as they are. *)
Remark permuteRows_entry_above_skipped :
  pivot_at P_upward 1 <> mkPivot 0 1
  /\ (forall tag me, permuteRows_body A_one_rank P_upward tag me 0 1 = [])
  /\ permuteRows_step A_one_rank P_upward 0 0 1 W_marked 0 (mkCell 0 0 1 0)
     = W_marked 0 (mkCell 0 0 1 0)
  /\ W_marked 0 (mkCell 0 0 1 0) <> W_marked 0 (mkCell 0 0 0 0).
Proof.
  split; [discriminate|]. split; [|split; [reflexivity|discriminate]].
  intros tag me. unfold permuteRows_body.
  change (pivot_at P_upward 1) with (mkPivot 0 0).
  cbn [tileIndex elementOffset A_one_rank tileRank tileNb].
  change ((0 >? 0) || (0 >? 1)) with false.
  destruct (Z.eqb_spec 0 me), (Z.eqb_spec me 0); congruence.
Qed.

(** The cases of one iteration, by the test the code makes: for every
    block-column [j] and pivot entry [i] whose tile index is not
    negative, some rank makes a swap call exactly when
    [tile_index > 0] or [element_offset > i].  When the owner of the
    pivot tile is the owner of tile (0, j), that rank calls
    [swapLocalRow] on row [i] of tile (0, j) and row [o_i] of tile
    [(t_i, j)] and no other rank does anything.  Otherwise the owner of
    tile (0, j) enters a remote swap of row [i] with the pivot owner,
    the pivot owner enters a remote swap of row [o_i] of tile [(t_i, j)]
    with the owner of tile (0, j), every exchange is answered, and
    afterwards each of the two rows holds what the other held. *)
Lemma permuteRows_swap_guard_cases {T : Type} `{Scalar T}
    (A : MatrixDesc) (P : list Pivot) (tag j i : Z) (W : World T) :
  let p := pivot_at P i in
  let r := tileRank A 0 j in
  let pr := tileRank A (tileIndex p) j in
  let n := tileNb A j in
  let row_i := row_of 0 j NoTrans i 0 in
  let row_p := row_of (tileIndex p) j NoTrans (elementOffset p) 0 in
  0 <= tileIndex p ->
  ((exists me, permuteRows_body A P tag me j i <> [])
   <-> (tileIndex p > 0 \/ elementOffset p > i))
  /\ (pr = r -> tileIndex p > 0 \/ elementOffset p > i ->
      permuteRows_body A P tag r j i = [SwapLocalRow n row_i row_p]
      /\ forall me, me <> r -> permuteRows_body A P tag me j i = [])
  /\ (pr <> r ->
      permuteRows_body A P tag r j i = [SwapRemoteRow n row_i pr tag]
      /\ permuteRows_body A P tag pr j i = [SwapRemoteRow n row_p r tag]
      /\ (forall me, me <> r -> me <> pr ->
            permuteRows_body A P tag me j i = [])
      /\ (forall me,
            exchange_answered
              (fun me => run_calls (permuteRows_body A P tag me j i)) W me
            = true)
      /\ forall k, 0 <= k < n ->
           permuteRows_step A P tag j i W r (vec_cell row_i k)
           = W pr (vec_cell row_p k)
           /\ permuteRows_step A P tag j i W pr (vec_cell row_p k)
              = W r (vec_cell row_i k)).
Proof.
  intros p r pr n row_i row_p Ht.
  assert (Hbody : forall me, permuteRows_body A P tag me j i =
    if pr =? me then
      if me =? r then
        if (tileIndex p >? 0) || (elementOffset p >? i)
        then [SwapLocalRow n row_i row_p] else []
      else [SwapRemoteRow n row_p r tag]
    else if me =? r then [SwapRemoteRow n row_i pr tag] else [])
    by reflexivity.
  assert (Hguard : (tileIndex p >? 0) || (elementOffset p >? i) = true
                   <-> tileIndex p > 0 \/ elementOffset p > i).
  { rewrite orb_true_iff, !Z.gtb_ltb, !Z.ltb_lt. lia. }
  assert (Hfar : pr <> r -> tileIndex p > 0).
  { intros Hne. destruct (Z.eq_dec (tileIndex p) 0) as [E|E]; [|lia].
    exfalso. apply Hne. unfold pr, r. now rewrite E. }
  split; [|split].
  - split.
    + intros [me Hme]. rewrite Hbody in Hme.
      destruct (Z.eqb_spec pr me), (Z.eqb_spec me r);
        try (left; apply Hfar; congruence).
      apply Hguard.
      destruct ((tileIndex p >? 0) || (elementOffset p >? i)); congruence.
    + intros Hg. exists r. rewrite Hbody, Z.eqb_refl.
      destruct (Z.eqb_spec pr r); [|discriminate].
      apply Hguard in Hg. rewrite Hg. discriminate.
  - intros E Hg. apply Hguard in Hg. split.
    + rewrite Hbody, E, !Z.eqb_refl. now rewrite Hg.
    + intros me Hme. rewrite Hbody, E.
      destruct (Z.eqb_spec r me); [congruence|].
      destruct (Z.eqb_spec me r); [congruence|reflexivity].
  - intros Hne.
    assert (Br : permuteRows_body A P tag r j i = [SwapRemoteRow n row_i pr tag]).
    { rewrite Hbody, Z.eqb_refl. destruct (Z.eqb_spec pr r); [congruence|reflexivity]. }
    assert (Bp : permuteRows_body A P tag pr j i = [SwapRemoteRow n row_p r tag]).
    { rewrite Hbody, Z.eqb_refl. destruct (Z.eqb_spec pr r); [congruence|reflexivity]. }
    assert (Bo : forall me, me <> r -> me <> pr ->
                 permuteRows_body A P tag me j i = []).
    { intros me H1 H2. rewrite Hbody.
      destruct (Z.eqb_spec pr me); [congruence|].
      destruct (Z.eqb_spec me r); [congruence|reflexivity]. }
    repeat split; auto.
    + intros me. unfold exchange_answered.
      destruct (Z.eq_dec me r) as [->|N1]; [|destruct (Z.eq_dec me pr) as [->|N2]].
      * rewrite Br. cbn. rewrite Bp. cbn. unfold xchg_matches; cbn.
        rewrite !Z.eqb_refl. destruct (Z.eqb_spec pr r); [congruence|reflexivity].
      * rewrite Bp. cbn. rewrite Br. cbn. unfold xchg_matches; cbn.
        rewrite !Z.eqb_refl. destruct (Z.eqb_spec r pr); [congruence|reflexivity].
      * now rewrite Bo.
    + rewrite permuteRows_step_spec.
      replace (swap_performed A P j i) with true.
      2:{ unfold swap_performed. fold p. fold pr. fold r.
          destruct (Z.eqb_spec pr r); [congruence|reflexivity]. }
      unfold wswap. rewrite Z.eqb_refl.
      unfold diag_row. fold row_i. now rewrite vec_pos_cell.
    + rewrite permuteRows_step_spec.
      replace (swap_performed A P j i) with true.
      2:{ unfold swap_performed. fold p. fold pr. fold r.
          destruct (Z.eqb_spec pr r); [congruence|reflexivity]. }
      unfold wswap. fold p. fold pr. fold r.
      destruct (Z.eqb_spec pr r); [congruence|]. rewrite Z.eqb_refl.
      unfold pivot_row. fold p. fold row_p. now rewrite vec_pos_cell.
Qed.

Lemma pivot_differs (p : Pivot) (i : Z) :
  p <> mkPivot 0 i <-> (tileIndex p <> 0 \/ elementOffset p <> i).
Proof.
  destruct p as [t o]. cbn. split.
  - intros Hne. destruct (Z.eq_dec t 0) as [->|Ht]; [|now left].
    right. intros ->. now apply Hne.
  - intros Hd E. injection E as -> ->. destruct Hd; congruence.
Qed.

(** C3: for every block-column [j] and every entry [i] of a serial
    pivot vector (the entry names a row at or below row [i]), some rank
    makes a swap call exactly when the pivot pair
    [(tile_index, element_offset)] differs from [(0, i)].  When it
    differs and the owner of the pivot tile is the owner of the diagonal
    tile (0, j), that rank calls [swapLocalRow] on row [i] of tile
    (0, j) and row [o_i] of tile [(t_i, j)] and no other rank does
    anything.  When the two owners differ, the pair differs from
    [(0, i)], the owner of tile (0, j) enters a remote swap of row [i]
    with the pivot owner, the pivot owner enters a remote swap of row
    [o_i] of tile [(t_i, j)] with the owner of tile (0, j), no other
    rank does anything, every exchange is answered, and afterwards each
    of the two rows holds what the other held. *)
Theorem C3_permuteRows_swap_cases {T : Type} `{Scalar T}
    (A : MatrixDesc) (P : list Pivot) (tag j i : Z) (W : World T) :
  let p := pivot_at P i in
  let r := tileRank A 0 j in
  let pr := tileRank A (tileIndex p) j in
  let n := tileNb A j in
  let row_i := row_of 0 j NoTrans i 0 in
  let row_p := row_of (tileIndex p) j NoTrans (elementOffset p) 0 in
  pivot_at_or_below P i ->
  ((exists me, permuteRows_body A P tag me j i <> [])
   <-> p <> mkPivot 0 i)
  /\ (pr = r -> p <> mkPivot 0 i ->
      permuteRows_body A P tag r j i = [SwapLocalRow n row_i row_p]
      /\ forall me, me <> r -> permuteRows_body A P tag me j i = [])
  /\ (pr <> r ->
      p <> mkPivot 0 i
      /\ permuteRows_body A P tag r j i = [SwapRemoteRow n row_i pr tag]
      /\ permuteRows_body A P tag pr j i = [SwapRemoteRow n row_p r tag]
      /\ (forall me, me <> r -> me <> pr ->
            permuteRows_body A P tag me j i = [])
      /\ (forall me,
            exchange_answered
              (fun me => run_calls (permuteRows_body A P tag me j i)) W me
            = true)
      /\ forall k, 0 <= k < n ->
           permuteRows_step A P tag j i W r (vec_cell row_i k)
           = W pr (vec_cell row_p k)
           /\ permuteRows_step A P tag j i W pr (vec_cell row_p k)
              = W r (vec_cell row_i k)).
Proof.
  intros p r pr n row_i row_p Hbelow.
  unfold pivot_at_or_below in Hbelow. cbv zeta in Hbelow. fold p in Hbelow.
  assert (Ht : 0 <= tileIndex p) by lia.
  assert (Hg : tileIndex p > 0 \/ elementOffset p > i <-> p <> mkPivot 0 i).
  { rewrite pivot_differs. lia. }
  destruct (permuteRows_swap_guard_cases A P tag j i W Ht)
    as (Hiff & Hlocal & Hremote).
  fold p r pr n row_i row_p in Hiff, Hlocal, Hremote.
  split; [|split].
  - rewrite <- Hg. exact Hiff.
  - intros E Hne. apply Hlocal; [exact E|]. now apply Hg.
  - intros Hne. split; [|now apply Hremote].
    apply Hg. left.
    destruct (Z.eq_dec (tileIndex p) 0) as [E|E]; [|lia].
    exfalso. apply Hne. unfold pr, r. now rewrite E.
Qed.

(** C3 at the remote example: pivot entry 0 is (1, 1), a row of the
    tile below, and tile (1, 0) lives on rank 1. *)
Lemma C3_witness :
  pivot_at_or_below [mkPivot 1 1] 0
  /\ pivot_at [mkPivot 1 1] 0 <> mkPivot 0 0
  /\ permuteRows_body A_two_ranks [mkPivot 1 1] 7 0 0 0
     = [SwapRemoteRow 2 (row_of 0 0 NoTrans 0 0) 1 7].
Proof.
  assert (Hb : pivot_at_or_below [mkPivot 1 1] 0) by (left; cbn; lia).
  split; [exact Hb|].
  destruct (C3_permuteRows_swap_cases (T:=Z) A_two_ranks [mkPivot 1 1] 7 0 0
              W_marked Hb) as (_ & _ & Hremote).
  destruct Hremote as (Hne & Hroot & _); [cbn; lia|].
  split; [exact Hne|exact Hroot].
Defined.

(** ** [geqrf]: device queues and the lookahead task pattern *)

Lemma to_int_small (z : Z) : - 2 ^ 31 <= z < 2 ^ 31 -> to_int z = z.
Proof.
  intros Hz. unfold to_int. rewrite Z.mod_small; lia.
Qed.

Lemma range_app (lo mid hi : Z) :
  lo <= mid <= hi -> range lo hi = range lo mid ++ range mid hi.
Proof.
  intros Hm. unfold range.
  replace (Z.to_nat (hi - lo))
    with (Z.to_nat (mid - lo) + Z.to_nat (hi - mid))%nat by lia.
  rewrite seq_app, map_app. f_equal.
  cbn [Nat.add]. rewrite <- (Nat.add_0_r (Z.to_nat (mid - lo))) at 1.
  generalize (Z.to_nat (hi - mid)) as n. intros n.
  replace (seq (Z.to_nat (mid - lo) + 0) n)
    with (map (fun x => (Z.to_nat (mid - lo) + x)%nat) (seq 0 n)).
  - rewrite map_map. apply map_ext. intros a. lia.
  - clear. generalize 0%nat as s. induction n as [|n IH]; intros s; cbn.
    + reflexivity.
    + f_equal. rewrite IH. now rewrite Nat.add_succ_r.
Qed.

Lemma geqrf_step_tasks_with_trailing (L A_nt k : Z) :
  0 <= L -> k + 1 + L < A_nt ->
  geqrf_step_tasks L A_nt k
  = panel_task k
    :: map (lookahead_task k) (range (k + 1) (k + 1 + L))
    ++ [trailing_task L A_nt k; cleanup_task k].
Proof.
  intros HL Ht. unfold geqrf_step_tasks.
  rewrite Z.min_l by lia.
  destruct (Z.ltb_spec (k + 1 + L) A_nt); [|lia].
  reflexivity.
Qed.

Lemma geqrf_tasks_consecutive (L A_mt A_nt k : Z) :
  0 <= k -> k + 1 < Z.min A_mt A_nt ->
  exists pre post,
    geqrf_tasks L A_mt A_nt
    = pre ++ geqrf_step_tasks L A_nt k
          ++ geqrf_step_tasks L A_nt (k + 1) ++ post.
Proof.
  intros Hk Hk1. unfold geqrf_tasks.
  rewrite (range_app 0 k (Z.min A_mt A_nt)) by lia.
  rewrite (range_cons k) by lia. rewrite (range_cons (k + 1)) by lia.
  rewrite flat_map_app. cbn [flat_map].
  eexists _, _. reflexivity.
Qed.

(** C4 does not hold for a lookahead of 1 or more: with lookahead 1
    on a 4 x 4 tile matrix the tasks emitted at steps 0 and 1 start as
    below, and the panel task of
    step 1 (inout block[1]) does not have to wait for the trailing task
    of step 0 (in block[0], inout block[2], inout block[3]): the only
    task emitted in between is the cleanup of step 0. *)
Lemma C4_counterexample :
  firstn 5 (geqrf_tasks 1 4 4)
  = [panel_task 0; lookahead_task 0 1; trailing_task 1 4 0; cleanup_task 0;
     panel_task 1]
  /\ must_wait (trailing_task 1 4 0) [cleanup_task 0] (panel_task 1) = false.
Proof. split; reflexivity. Qed.

(** C4, with the wait the [depend] clauses give: at every step [k] of [geqrf] with lookahead [L] and a
    trailing submatrix ([k+1+L < nt]) the panel task is emitted with
    priority 1 and [inout block[k]], one update task per column
    [j = k+1 .. k+L] with priority 1 and [in block[k], inout block[j]],
    then the trailing task with priority 0 and [in block[k],
    inout block[k+1+L], inout block[nt-1]], then the cleanup task.  When
    step [k+1] exists its tasks follow directly, its panel task comes
    first, and that panel task must wait for the trailing task of step
    [k] exactly when [L = 0]; for [L >= 1] it waits for step [k]'s
    update of column [k+1], and it is the trailing task of step [k+1]
    that waits for the trailing task of step [k] (both are [inout] on
    [block[nt-1]]). *)
Theorem C4_geqrf_lookahead_pattern (L A_mt A_nt k : Z) :
  0 <= L -> 0 <= k < Z.min A_mt A_nt -> k + 1 + L < A_nt ->
  geqrf_step_tasks L A_nt k
  = panel_task k
    :: map (lookahead_task k) (range (k + 1) (k + 1 + L))
    ++ [trailing_task L A_nt k; cleanup_task k]
  /\ In (trailing_task L A_nt k) (geqrf_tasks L A_mt A_nt)
  /\ (k + 1 < Z.min A_mt A_nt ->
      (exists pre post rest,
         geqrf_tasks L A_mt A_nt
         = pre ++ geqrf_step_tasks L A_nt k
               ++ (panel_task (k + 1) :: rest) ++ post)
      /\ must_wait (trailing_task L A_nt k) [cleanup_task k]
           (panel_task (k + 1)) = (L =? 0)
      /\ (1 <= L ->
          In (lookahead_task k (k + 1)) (geqrf_step_tasks L A_nt k)
          /\ conflicts (lookahead_task k (k + 1)) (panel_task (k + 1)) = true)
      /\ (k + 2 + L < A_nt ->
          In (trailing_task L A_nt (k + 1)) (geqrf_step_tasks L A_nt (k + 1))
          /\ conflicts (trailing_task L A_nt k)
               (trailing_task L A_nt (k + 1)) = true)).
Proof.
  intros HL Hk Ht.
  pose proof (geqrf_step_tasks_with_trailing L A_nt k HL Ht) as Hstep.
  split; [exact Hstep|]. split.
  { unfold geqrf_tasks. apply in_flat_map. exists k. split.
    - apply in_range. lia.
    - rewrite Hstep. right. apply in_or_app. right. now left. }
  intros Hk1. split; [|split; [|split]].
  - destruct (geqrf_tasks_consecutive L A_mt A_nt k) as (pre & post & E);
      [lia|lia|].
    exists pre, post. rewrite E.
    unfold geqrf_step_tasks at 2. cbn [app]. eexists. reflexivity.
  - unfold must_wait, conflicts, trailing_task, cleanup_task, panel_task.
    cbn. zbool; try lia; reflexivity.
  - intros HL1. split.
    + rewrite Hstep. right. apply in_or_app. left.
      apply in_map. apply in_range. lia.
    + unfold conflicts, lookahead_task, panel_task. cbn.
      rewrite Z.eqb_refl. zbool; try lia; reflexivity.
  - intros Ht2. split.
    + rewrite (geqrf_step_tasks_with_trailing L A_nt (k + 1)) by lia.
      right. apply in_or_app. right. now left.
    + unfold conflicts, trailing_task. cbn.
      rewrite Z.eqb_refl. cbn. now rewrite !orb_true_r.
Qed.

(** C4 at step 0 of a 4 x 4 tile matrix with lookahead 1. *)
Lemma C4_witness :
  geqrf_step_tasks 1 4 0
  = [panel_task 0; lookahead_task 0 1; trailing_task 1 4 0; cleanup_task 0].
Proof.
  refine (proj1 (C4_geqrf_lookahead_pattern 1 4 4 0 _ _ _)); lia.
Defined.

(** C7: with [Target::Devices], [geqrf] calls [allocateBatchArrays] with
    [num_queues = 3 + lookahead] (for [A] and for the workspace [W]), so
    every device gets exactly [3 + lookahead] batch-array queues;
    [lookahead] is the value stored under [Option::Lookahead] and 1 when
    the option is absent, and the inner blocking is 16 when
    [Option::InnerBlocking] is absent.  [num_queues] is an [int]: the
    statement is for sums [3 + lookahead] an [int] can hold. *)
Theorem C7_geqrf_num_queues (opts : Options) :
  - 2 ^ 31 <= 3 + geqrf_lookahead opts < 2 ^ 31 ->
  geqrf_device_setup Devices opts
  = [allocateBatchArrays Mat_A 0 (3 + geqrf_lookahead opts);
     reserveDeviceWorkspace Mat_A;
     allocateBatchArrays Mat_W 0 (3 + geqrf_lookahead opts)]
  /\ queues_per_device Mat_A (geqrf_device_setup Devices opts)
     = Some (3 + geqrf_lookahead opts)
  /\ queues_per_device Mat_W (geqrf_device_setup Devices opts)
     = Some (3 + geqrf_lookahead opts)
  /\ (forall v, opts Option.Lookahead = Some v -> geqrf_lookahead opts = v)
  /\ (opts Option.Lookahead = None -> geqrf_lookahead opts = 1)
  /\ (opts Option.InnerBlocking = None -> geqrf_ib opts = 16).
Proof.
  intros Hr. unfold geqrf_device_setup, geqrf_num_queues.
  rewrite (to_int_small _ Hr).
  repeat split; unfold geqrf_lookahead, geqrf_ib, get_option.
  - intros v ->. reflexivity.
  - intros ->. reflexivity.
  - intros ->. reflexivity.
Qed.

(** C7 with no option set: lookahead 1, four queues per device. *)
Lemma C7_witness :
  queues_per_device Mat_A (geqrf_device_setup Devices (fun _ => None))
  = Some 4.
Proof.
  refine (proj1 (proj2 (C7_geqrf_num_queues (fun _ => None) _))).
  cbn. lia.
Defined.

(** ** [ttmqr] on a panel owned by one rank *)

Lemma set_insert_in (x r : Z) (s : list Z) :
  In r (set_insert x s) -> r = x \/ In r s.
Proof.
  induction s as [|y s IH]; cbn.
  - intros [E|[]]. now left.
  - destruct (x <? y); [intros [E|Hin]; auto|].
    destruct (x =? y); [auto|].
    intros [E|Hin]; [right; now left|].
    destruct (IH Hin); auto.
Qed.

Lemma getRanks_owner (M : MatrixDesc) (r : Z) :
  In r (getRanks M) ->
  exists i j, 0 <= i < mt M /\ 0 <= j < nt M /\ tileRank M i j = r.
Proof.
  unfold getRanks.
  assert (G : forall l s,
    In r (fold_left (fun s ij => set_insert (tileRank M (fst ij) (snd ij)) s)
            l s) ->
    In r s \/ exists ij, In ij l /\ tileRank M (fst ij) (snd ij) = r).
  { induction l as [|ij l IH]; cbn; intros s Hin; [now left|].
    destruct (IH _ Hin) as [Hs|(ij' & Hl & E)].
    - apply set_insert_in in Hs as [E|Hs]; [|now left].
      right. exists ij. split; [now left|now symmetry].
    - right. exists ij'. split; [now right|exact E]. }
  intros Hin. destruct (G _ _ Hin) as [[]|([i j] & Hl & E)].
  apply in_prod_iff in Hl as [Hi Hj]. apply in_range in Hi, Hj.
  exists i, j. cbn in E. auto.
Qed.

Lemma rank_indices_single (A : MatrixDesc) :
  nt A = 1 -> length (getRanks A) = 1%nat ->
  nranks A = 1.
Proof.
  intros Hnt Hlen. unfold nranks, rank_indices.
  destruct (getRanks A) as [|r [|r' l]] eqn:E; try discriminate.
  destruct (getRanks_owner A r) as (i & j & Hi & Hj & Hr).
  { rewrite E. now left. }
  assert (j = 0) by lia. subst j.
  cbn [flat_map].
  destruct (find (fun i0 => tileRank A i0 0 =? r) (range 0 (mt A))) eqn:F.
  - reflexivity.
  - exfalso. assert (Hin : In i (range 0 (mt A))) by (apply in_range; lia).
    pose proof (find_none _ _ F i Hin) as Hf. cbn in Hf.
    apply Z.eqb_neq in Hf. contradiction.
Qed.

(** C9: when every tile of the panel column [A] belongs to one rank
    (the set of owners has one element), [ttmqr] finds one rank, computes
    [nlevels = ceil(log2(1)) = 0], runs no level of the reduction tree
    and returns having called no tile operation at all: no send, no
    receive, and the state of [C] on the rank is what it was. *)
Theorem C9_ttmqr_single_rank {St : Type} (exec : TtmqrCall -> St -> St)
    (A C : MatrixDesc) (me : Z) (side : Side) (op : Op) (tag : Z) (st : St) :
  nt A = 1 ->
  mt A = (if is_left side then mt C else nt C) ->
  length (getRanks A) = 1%nat ->
  nranks A = 1
  /\ nlevels A = 0
  /\ ttmqr A C me side op tag = Some []
  /\ forall calls, ttmqr A C me side op tag = Some calls ->
       filter is_comm calls = [] /\ run_ttmqr exec calls st = st.
Proof.
  intros Hnt Hmt Hlen.
  pose proof (rank_indices_single A Hnt Hlen) as Hn.
  assert (Hl : nlevels A = 0) by (unfold nlevels; now rewrite Hn).
  assert (Hrun : ttmqr A C me side op tag = Some []).
  { unfold ttmqr. rewrite Hnt, <- Hmt, !Z.eqb_refl, Hl. reflexivity. }
  repeat split; auto.
  - rewrite Hrun in H. now injection H as <-.
  - rewrite Hrun in H. now injection H as <-.
Qed.

Lemma C9_witness :
  ttmqr A_panel_one_rank C_two_columns 5 Left ConjTrans 1 = Some [].
Proof.
  refine (proj1 (proj2 (proj2
    (C9_ttmqr_single_rank (fun _ (st : unit) => st)
       A_panel_one_rank C_two_columns 5 Left ConjTrans 1 tt _ _ _))));
    reflexivity.
Defined.

(** With two owners the tree has one level: rank 0 (row 0) and rank 1
    (row 1) exchange the tiles of row 0. *)
Example ttmqr_two_ranks_example :
  let A2 := mkMatrix 2 1 (fun _ => 4) (fun _ => 4) (fun i _ => i) in
  let C2 := mkMatrix 2 1 (fun _ => 4) (fun _ => 4) (fun i _ => i) in
  ttmqr A2 C2 0 Left ConjTrans 9
  = Some [tileGetForWriting Q_C 0 0; tileSend Q_C 0 0 1 9;
          tileRecv Q_C 0 0 1 9]
  /\ ttmqr A2 C2 1 Left ConjTrans 9
     = Some [tileRecv Q_C 0 0 0 9;
             tileGetForReading Q_A 1 0; tileGetForReading Q_T 1 0;
             tileGetForWriting Q_C 1 0; tpmqrt Left ConjTrans 4 1 0 0 1 0;
             tileTick Q_A 1 0; tileTick Q_T 1 0;
             tileSend Q_C 0 0 0 9; tileTick Q_C 0 0].
Proof. split; vm_compute; reflexivity. Qed.

(** ** [tzset_func] *)

Lemma for_lt_int_spec (m B : Z) :
  0 < B -> m + B <= 2 ^ 31 ->
  forall (fuel : nat) (i : Z),
    0 <= i -> Z.max 0 (m - i) < Z.of_nat fuel ->
    exists l, for_lt_int fuel i m B = Some l
              /\ (forall x, In x l -> 0 <= x < m)
              /\ (forall x, i <= x < m -> (x - i) mod B = 0 -> In x l).
Proof.
  intros HB Hfit. induction fuel as [|f IH]; intros i Hi Hf; [lia|].
  cbn [for_lt_int]. destruct (Z.ltb_spec i m) as [Hlt|Hge].
  - rewrite to_int_small by lia.
    destruct (IH (i + B)) as (l & -> & Hin & Hcov); [lia|lia|].
    exists (i :: l). split; [reflexivity|]. split.
    + intros x [<-|Hx]; [lia|auto].
    + intros x Hx Hmod. destruct (Z.eq_dec x i) as [->|Hne]; [now left|].
      right. apply Hcov.
      * assert (B <= x - i); [|lia].
        apply Z.mod_divide in Hmod as [q Hq]; [|lia].
        assert (0 < q) by nia. nia.
      * replace (x - (i + B)) with (x - i + (-1) * B) by lia.
        now rewrite Z.mod_add by lia.
  - exists []. split; [reflexivity|]. split.
    + intros x [].
    + intros; lia.
Qed.

Lemma tzset_row_cols {T : Type} (uplo : Uplo) (n : Z)
    (offdiag_value diag_value : T) (lda i : Z) (A : Z -> T) :
  0 <= i ->
  exists js,
    tzset_row uplo n offdiag_value diag_value lda i A
    = fold_left (fun A j => tzset_store offdiag_value diag_value lda i j A)
                js A
    /\ forall j, In j js <-> (0 <= j < n /\ in_trapezoid uplo i j).
Proof.
  intros Hi. unfold tzset_row, in_trapezoid.
  destruct uplo; eexists; (split; [reflexivity|]); intros j;
    rewrite <- ?in_rev, in_range; lia.
Qed.

Section TzsetFacts.
Context {T : Type}.
Variable uplo : Uplo.
Variables m n : Z.
Variables offdiag_value diag_value : T.
Variable lda : Z.
Hypothesis Hm : 0 <= m.
Hypothesis Hn : 0 <= n.
Hypothesis Hlda : m <= lda.
Variable A0 : Z -> T.

#[local] Abbreviation val := (tz_val offdiag_value diag_value).
#[local] Abbreviation valid := (tz_valid uplo m n).
#[local] Abbreviation tz_post :=
  (tz_post uplo m n offdiag_value diag_value lda A0).
Let store := tzset_store (T:=T) offdiag_value diag_value lda.
Let row := tzset_row (T:=T) uplo n offdiag_value diag_value lda.

Lemma tz_addr_inj (i j i' j' : Z) :
  0 <= i < m -> 0 <= i' < m -> 0 <= j -> 0 <= j' ->
  i + j * lda = i' + j' * lda -> i = i' /\ j = j'.
Proof.
  intros Hi Hi' Hj Hj' E.
  assert (j = j') by nia. subst. split; lia.
Qed.

Lemma tz_post_weaken (D D' : Z -> Z -> Prop) (A : Z -> T) :
  (forall i j, valid i j -> D' i j -> D i j) ->
  tz_post D A -> tz_post D' A.
Proof.
  intros Hsub [Hg Hd]. split; [exact Hg|]. intros i j Hv HD. auto.
Qed.

Lemma tz_store_post (D : Z -> Z -> Prop) (i j : Z) (A : Z -> T) :
  valid i j -> tz_post D A ->
  tz_post (fun i' j' => D i' j' \/ (i' = i /\ j' = j)) (store i j A).
Proof.
  intros Hv [Hg Hd]. unfold store, tzset_store. split.
  - intros q. destruct (Z.eqb_spec q (i + j * lda)) as [->|Hq].
    + right. exists i, j. auto.
    + apply Hg.
  - intros i' j' Hv' HD.
    destruct (Z.eqb_spec (i' + j' * lda) (i + j * lda)) as [E|Hne].
    + destruct Hv as (? & ? & _), Hv' as (? & ? & _).
      apply tz_addr_inj in E as [-> ->]; auto; lia.
    + destruct HD as [HD|[-> ->]]; [now apply Hd|congruence].
Qed.

Lemma tz_stores_post (i : Z) (js : list Z) : forall D A,
  (forall j, In j js -> valid i j) -> tz_post D A ->
  tz_post (fun i' j' => D i' j' \/ (i' = i /\ In j' js))
          (fold_left (fun A j => store i j A) js A).
Proof.
  induction js as [|j0 js IH]; intros D A Hjs HP; cbn [fold_left].
  - apply (tz_post_weaken D); [|exact HP]. intros i' j' _ [HD|[_ []]]; auto.
  - apply (tz_post_weaken
             (fun i' j' => (D i' j' \/ (i' = i /\ j' = j0))
                           \/ (i' = i /\ In j' js))).
    + intros i' j' _ [HD|[-> [<-|Hin]]]; auto.
    + apply IH; [intros; apply Hjs; now right|].
      apply tz_store_post; [apply Hjs; now left|exact HP].
Qed.

Lemma tz_row_post (D : Z -> Z -> Prop) (i : Z) (A : Z -> T) :
  0 <= i < m -> tz_post D A ->
  tz_post (fun i' j' => D i' j' \/ i' = i) (row i A).
Proof.
  intros Hi HP. unfold row.
  destruct (tzset_row_cols uplo n offdiag_value diag_value lda i A)
    as (js & -> & Hjs); [lia|].
  eapply tz_post_weaken; [|apply tz_stores_post; [|exact HP]].
  - intros i' j' (Hi' & Hj' & Ht) [HD| ->]; [now left|right].
    split; [reflexivity|]. now apply Hjs.
  - intros j Hj. apply Hjs in Hj. repeat split; tauto || lia.
Qed.

Lemma tz_rows_post (l : list Z) : forall D A,
  (forall i, In i l -> 0 <= i < m) -> tz_post D A ->
  tz_post (fun i' j' => D i' j' \/ In i' l)
          (fold_left (fun A i => row i A) l A).
Proof.
  induction l as [|i0 l IH]; intros D A Hl HP; cbn [fold_left].
  - apply (tz_post_weaken D); [|exact HP]. intros i' j' _ [HD|[]]; auto.
  - apply (tz_post_weaken
             (fun i' j' => (D i' j' \/ i' = i0) \/ In i' l)).
    + intros i' j' _ [HD|[<-|Hin]]; auto.
    + apply IH; [intros; apply Hl; now right|].
      apply tz_row_post; [apply Hl; now left|exact HP].
Qed.

Lemma tz_func_post (B tid : Z) (D : Z -> Z -> Prop) (A : Z -> T) :
  0 < B -> m + B <= 2 ^ 31 -> 0 <= tid < B -> tz_post D A ->
  exists A',
    tzset_func uplo m n offdiag_value diag_value lda
               (S (Z.to_nat m)) B tid A = Some A'
    /\ tz_post (fun i' j' => D i' j' \/ i' mod B = tid) A'.
Proof.
  intros HB Hfit Htid HP. unfold tzset_func.
  rewrite to_int_small by lia.
  destruct (for_lt_int_spec m B HB Hfit (S (Z.to_nat m)) tid)
    as (l & -> & Hin & Hcov); [lia|lia|].
  eexists. split; [reflexivity|].
  eapply tz_post_weaken; [|apply (tz_rows_post l D A Hin HP)].
  intros i' j' (Hi' & _) [HD|Hmod]; [now left|right].
  apply Hcov.
  - pose proof (Z.mod_pos_bound i' B HB).
    pose proof (Z.mod_le i' B). lia.
  - rewrite <- Hmod. rewrite Zminus_mod, Z.mod_mod, Z.sub_diag by lia.
    apply Z.mod_0_l. lia.
Qed.

Lemma tz_kernel_post (B : Z) (tids : list Z) : forall D A,
  0 < B -> m + B <= 2 ^ 31 ->
  (forall tid, In tid tids -> 0 <= tid < B) -> tz_post D A ->
  exists A',
    fold_left
      (fun oA threadIdx =>
         match oA with
         | Some A => tzset_func uplo m n offdiag_value diag_value lda
                                (S (Z.to_nat m)) B threadIdx A
         | None => None
         end) tids (Some A) = Some A'
    /\ tz_post (fun i' j' => D i' j' \/ In (i' mod B) tids) A'.
Proof.
  induction tids as [|tid tids IH]; intros D A HB Hfit Htids HP;
    cbn [fold_left].
  - exists A. split; [reflexivity|].
    apply (tz_post_weaken D); [|exact HP]. intros i' j' _ [HD|[]]; auto.
  - destruct (tz_func_post B tid D A HB Hfit (Htids _ (or_introl eq_refl)) HP)
      as (A1 & -> & HP1).
    destruct (IH _ A1 HB Hfit (fun t Ht => Htids t (or_intror Ht)) HP1)
      as (A' & -> & HP').
    exists A'. split; [reflexivity|].
    eapply tz_post_weaken; [|exact HP'].
    intros i' j' _ [HD|[<-|Hin]]; auto.
Qed.

End TzsetFacts.

(** C6: for every [uplo], [m >= 0], [n >= 0], [lda >= m] and values
    [offdiag_value], [diag_value], a thread block running [tzset_func]
    ends and leaves [A[i + j*lda] = diag_value] for every in-range
    element with [i = j] and [A[i + j*lda] = offdiag_value] for every
    other element of the trapezoid ([j <= i] for Lower, [j >= i]
    otherwise), and every element outside the trapezoid as it was.  The
    row counter of the kernel is an [int]: the statement is for launches
    whose row indices an [int] can hold ([m + blockDim <= 2^31]). *)
Theorem C6_tzset_trapezoid {T : Type} (uplo : Uplo) (m n : Z)
    (offdiag_value diag_value : T) (lda blockDim : Z) (A : Z -> T) :
  0 <= m -> 0 <= n -> m <= lda ->
  0 < blockDim -> m + blockDim <= 2 ^ 31 ->
  exists A',
    tzset_kernel uplo m n offdiag_value diag_value lda
                 (S (Z.to_nat m)) blockDim A = Some A'
    /\ (forall i j, 0 <= i < m -> 0 <= j < n -> in_trapezoid uplo i j ->
         A' (i + j * lda) = if i =? j then diag_value else offdiag_value)
    /\ (forall q,
          (forall i j, 0 <= i < m -> 0 <= j < n -> in_trapezoid uplo i j ->
                       q <> i + j * lda) ->
          A' q = A q).
Proof.
  intros Hm Hn Hlda HB Hfit. unfold tzset_kernel.
  destruct (tz_kernel_post uplo m n offdiag_value diag_value lda Hm Hlda A
              blockDim (range 0 blockDim) (fun _ _ => False) A HB Hfit)
    as (A' & -> & Hg & Hd).
  - intros tid Ht. now apply in_range in Ht.
  - split; [now left|]. intros i j _ [].
  - exists A'. split; [reflexivity|]. split.
    + intros i j Hi Hj Ht. apply Hd; [repeat split; auto; lia|].
      right. apply in_range. apply Z.mod_pos_bound. lia.
    + intros q Hq. destruct (Hg q) as [E|(i & j & (Hi & Hj & Ht) & -> & _)];
        [exact E|].
      exfalso. now apply (Hq i j).
Qed.

(** C6 on a 2 x 3 lower trapezoid in an array with [lda = 2], two
    threads. *)
Lemma C6_witness :
  exists A',
    tzset_kernel Lower 2 3 7 9 2 (S (Z.to_nat 2)) 2 (fun _ => 0) = Some A'
    /\ (forall i j, 0 <= i < 2 -> 0 <= j < 3 -> in_trapezoid Lower i j ->
         A' (i + j * 2) = if i =? j then 9 else 7)
    /\ (forall q,
          (forall i j, 0 <= i < 2 -> 0 <= j < 3 -> in_trapezoid Lower i j ->
                       q <> i + j * 2) ->
          A' q = 0).
Proof.
  apply (C6_tzset_trapezoid Lower 2 3 7 9 2 2 (fun _ => 0)); lia.
Defined.

Example tzset_kernel_lower_example :
  option_map (fun A' => map A' [0; 1; 2; 3; 4; 5])
    (tzset_kernel Lower 2 3 7 9 2 3 2 (fun _ => 0))
  = Some [9; 7; 0; 9; 0; 0].
Proof. reflexivity. Qed.

Example tzset_kernel_upper_example :
  option_map (fun A' => map A' [0; 1; 2; 3; 4; 5])
    (tzset_kernel Upper 2 3 7 9 2 3 1 (fun _ => 0))
  = Some [9; 0; 7; 9; 7; 7].
Proof. reflexivity. Qed.

(** ** Tile widths *)

Lemma Zsum_firstn_S (l : list Z) : forall k,
  (k < length l)%nat ->
  Zsum (firstn (S k) l) = Zsum (firstn k l) + nth k l 0.
Proof.
  unfold Zsum.
  induction l as [|x l IH]; intros k Hk; [cbn in Hk; lia|].
  destruct k as [|k]; cbn [firstn nth fold_right].
  - lia.
  - cbn in Hk. specialize (IH k ltac:(lia)). cbn [firstn] in IH. lia.
Qed.

Lemma Zsum_firstn_le (l : list Z) :
  (forall x, In x l -> 0 < x) ->
  forall k, (k <= length l)%nat ->
    Z.of_nat k <= Zsum (firstn k l) <= Zsum l.
Proof.
  unfold Zsum.
  induction l as [|x l IH]; intros Hpos k Hk.
  - destruct k; cbn in *; lia.
  - pose proof (Hpos x (or_introl eq_refl)) as Hx.
    specialize (IH (fun y Hy => Hpos y (or_intror Hy))).
    destruct k as [|k]; cbn [firstn fold_right].
    + specialize (IH 0%nat ltac:(lia)). cbn in IH. lia.
    + cbn in Hk. specialize (IH k ltac:(lia)). lia.
Qed.

Lemma tile_widths_spec (user : Z -> Z) (n : Z) :
  (forall j, 0 <= j -> 0 < user j) ->
  forall (fuel : nat) (j jj : Z),
    0 <= j -> 0 <= jj <= n -> n - jj < Z.of_nat fuel ->
    exists l,
      tile_widths fuel user n j jj = Some l
      /\ Zsum l = n - jj
      /\ (forall x, In x l -> 0 < x)
      /\ forall k, (k < length l)%nat ->
           nth k l 0
           = Z.min (user (j + Z.of_nat k)) (n - jj - Zsum (firstn k l)).
Proof.
  intros Hpos. induction fuel as [|f IH]; intros j jj Hj Hjj Hf; [lia|].
  cbn [tile_widths]. destruct (Z.ltb_spec jj n) as [Hlt|Hge].
  - pose proof (Hpos j Hj) as Hu.
    destruct (IH (j + 1) (jj + Z.min (user j) (n - jj)))
      as (l & -> & Hs & Hp & Hk); [lia|lia|lia|].
    eexists. split; [reflexivity|]. unfold Zsum in *. split; [|split].
    + cbn [fold_right]. lia.
    + intros x [<-|Hx]; [lia|auto].
    + intros [|k] Hlen; cbn [nth firstn fold_right].
      * f_equal; [f_equal; lia|lia].
      * cbn in Hlen.
        rewrite Hk by lia. f_equal; [f_equal; lia|lia].
  - exists []. split; [reflexivity|]. split; [cbn; lia|]. split.
    + intros x [].
    + intros k Hk. cbn in Hk. lia.
Qed.

Lemma ex13_loop_passes (user : Z -> Z) (n : Z) (l : list Z) :
  Zsum l = n -> n < 2 ^ 31 ->
  (forall x, In x l -> 0 < x) ->
  (forall k, (k < length l)%nat ->
     nth k l 0 = Z.min (user (Z.of_nat k)) (n - Zsum (firstn k l))) ->
  forall (r k : nat), (k + r = length l)%nat ->
    ex13_loop r (widths_tileNb l) user n (Z.of_nat k) (Zsum (firstn k l))
    = Some n.
Proof.
  intros Hs Hn Hp Hk. induction r as [|r IH]; intros k Hlen.
  - cbn. rewrite Nat.add_0_r in Hlen. subst k. now rewrite firstn_all, Hs.
  - cbn [ex13_loop].
    assert (E : widths_tileNb l (Z.of_nat k) = nth k l 0)
      by (unfold widths_tileNb; now rewrite Nat2Z.id).
    rewrite !E. rewrite (proj2 (Z.eqb_eq _ _) (Hk k ltac:(lia))).
    rewrite <- Zsum_firstn_S by lia.
    pose proof (Zsum_firstn_le l Hp (S k) ltac:(lia)) as Hle.
    pose proof (Zsum_firstn_le l Hp (length l) ltac:(lia)) as Hlen'.
    rewrite !to_int_small by lia.
    replace (Z.of_nat k + 1) with (Z.of_nat (S k)) by lia.
    apply IH. lia.
Qed.

(** C8: for every [N >= 0] and every user tile-size function with
    positive values, the constructor settles on [nt] tile widths such
    that [tileNb(j)] is the minimum of the user's value and the columns
    that are left ([N] minus the widths of tiles [0 .. j-1]) for every
    [j < nt], and the widths sum to [N]; for [N] an [int] can hold, the
    assertions of the example (lines 57-64) all pass. *)
Theorem C8_tile_widths_partition (user : Z -> Z) (N : Z) :
  0 <= N -> (forall j, 0 <= j -> 0 < user j) ->
  exists widths,
    matrix_tile_widths user N = Some widths
    /\ (forall j, 0 <= j < widths_nt widths ->
          widths_tileNb widths j
          = Z.min (user j) (N - Zsum (firstn (Z.to_nat j) widths)))
    /\ Zsum (map (widths_tileNb widths) (range 0 (widths_nt widths))) = N
    /\ (N < 2 ^ 31 ->
        ex13_verify (widths_nt widths) (widths_tileNb widths) user N = true).
Proof.
  intros HN Hpos. unfold matrix_tile_widths.
  destruct (tile_widths_spec user N Hpos (S (Z.to_nat N)) 0 0)
    as (l & -> & Hs & Hp & Hk); [lia|lia|lia|].
  rewrite Z.sub_0_r in Hs.
  assert (Hk' : forall k, (k < length l)%nat ->
            nth k l 0 = Z.min (user (Z.of_nat k)) (N - Zsum (firstn k l))).
  { intros k Hlt. rewrite (Hk k Hlt). f_equal; try f_equal; lia. }
  exists l. split; [reflexivity|]. split; [|split].
  - intros j Hj. unfold widths_tileNb, widths_nt in *.
    rewrite Hk' by lia. f_equal. f_equal. lia.
  - rewrite <- Hs. f_equal. unfold widths_nt, range, widths_tileNb.
    rewrite Z.sub_0_r, Nat2Z.id, map_map.
    clear. induction l as [|x l IH]; [reflexivity|].
    cbn [length seq map]. f_equal.
    rewrite <- seq_shift, map_map. rewrite <- IH at 2.
    apply map_ext. intros k.
    replace (Z.to_nat (0 + Z.of_nat (S k))) with (S k) by lia.
    replace (Z.to_nat (0 + Z.of_nat k)) with k by lia. reflexivity.
  - intros Hfit. unfold ex13_verify, widths_nt.
    pose proof (Zsum_firstn_le l Hp (length l) ltac:(lia)) as Hlen.
    rewrite to_int_small by lia. rewrite Nat2Z.id.
    pose proof (ex13_loop_passes user N l Hs Hfit Hp Hk' (length l) 0
                  ltac:(lia)) as Hloop.
    cbn [firstn Zsum fold_right Z.of_nat] in Hloop. rewrite Hloop.
    apply Z.eqb_refl.
Qed.

(** C8 at the example's sizes: [n = 1000], [nb = 256], widths 256 and
    128 in turn. *)
Lemma C8_witness :
  exists widths,
    matrix_tile_widths (ex13_tileNb 256) 1000 = Some widths
    /\ (forall j, 0 <= j < widths_nt widths ->
          widths_tileNb widths j
          = Z.min (ex13_tileNb 256 j)
                  (1000 - Zsum (firstn (Z.to_nat j) widths)))
    /\ Zsum (map (widths_tileNb widths) (range 0 (widths_nt widths))) = 1000
    /\ (1000 < 2 ^ 31 ->
        ex13_verify (widths_nt widths) (widths_tileNb widths)
                    (ex13_tileNb 256) 1000 = true).
Proof.
  apply (C8_tile_widths_partition (ex13_tileNb 256) 1000); [lia|].
  intros j Hj. unfold ex13_tileNb. destruct (negb (Z.rem j 2 =? 0)); reflexivity.
Defined.

Example ex13_widths :
  matrix_tile_widths (ex13_tileNb 256) 1000 = Some [256; 128; 256; 128; 232]
  /\ ex13_verify 5 (widths_tileNb [256; 128; 256; 128; 232])
                 (ex13_tileNb 256) 1000 = true.
Proof. split; vm_compute; reflexivity. Qed.

(** ** [permuteRowsCols]: from the ranks' memories to one matrix *)

Lemma vec_pos_empty (v : Vec) (n : Z) (c : Cell) :
  n <= 0 -> vec_pos v n c = None.
Proof.
  intros Hn. unfold vec_pos.
  destruct (Z.leb_spec (v_lo v) (if v_trans v then c_row c else c_col c));
    destruct (Z.ltb_spec (if v_trans v then c_row c else c_col c)
                         (v_lo v + n));
    rewrite ?andb_false_r; try reflexivity; lia.
Qed.

Section Projection.
Context {T : Type} `{Scalar T}.
Variable A : MatrixDesc.

#[local] Abbreviation owner := (owner A).
#[local] Abbreviation gather := (gather A).

Lemma spmd_swapRow (j_offset n : Z) (op1 : Op) (ij1 : Z * Z) (offset_i1 : Z)
    (op2 : Op) (ij2 : Z * Z) (offset_i2 tag : Z) (W : World T) :
  let v1 := row_of (fst ij1) (snd ij1) op1 offset_i1 j_offset in
  let v2 := row_of (fst ij2) (snd ij2) op2 offset_i2 j_offset in
  weq (spmd (fun me => run_calls
               (swapRow A me j_offset n op1 ij1 offset_i1
                        op2 ij2 offset_i2 tag)) W)
      (wswap n (owner v1) v1 (owner v2) v2
         (if negb (Op_eqb op1 op2)
          then wconj n (owner v2) v2 (wconj n (owner v1) v1 W)
          else W)).
Proof.
  intros v1 v2 me c. unfold spmd, swapRow, owner.
  fold v1. fold v2. cbn [v_i v_j v1 v2 row_of].
  set (r1 := tileRank A (fst ij1) (snd ij1)).
  set (r2 := tileRank A (fst ij2) (snd ij2)).
  unfold wswap, wconj.
  destruct (Z.eqb_spec n 0) as [->|Hn].
  { assert (E : forall v c', vec_pos v 0 c' = None)
      by (intros; apply vec_pos_empty; lia).
    destruct (negb (Op_eqb op1 op2)); cbn;
      destruct (me =? r1), (me =? r2); rewrite ?E; reflexivity. }
  destruct (negb (Op_eqb op1 op2)); cbn [app];
    destruct (Z.eqb_spec r1 me) as [E1|E1];
    destruct (Z.eqb_spec r2 me) as [E2|E2];
    try subst me; cbn;
    repeat match goal with
    | |- context [Z.eqb ?x ?x] => rewrite (Z.eqb_refl x)
    | E : ?x = ?y |- context [Z.eqb ?x ?y] =>
        rewrite (proj2 (Z.eqb_eq x y) E)
    | E : ?y = ?x |- context [Z.eqb ?x ?y] =>
        rewrite (proj2 (Z.eqb_eq x y) (eq_sym E))
    | E : ?x <> ?y |- context [Z.eqb ?x ?y] =>
        rewrite (proj2 (Z.eqb_neq x y) E)
    | E : ?y <> ?x |- context [Z.eqb ?x ?y] =>
        rewrite (proj2 (Z.eqb_neq x y) (not_eq_sym E))
    | _ => progress cbn
    | _ => progress unfold xchg_matches, recv_into, swap_vec, conj_vec
    end;
    try reflexivity; rewrite E2; reflexivity.
Qed.

Lemma spmd_swapElement (ij1 : Z * Z) (offset_i1 offset_j1 : Z)
    (ij2 : Z * Z) (offset_i2 offset_j2 tag : Z) (W : World T) :
  let e1 := elem_of (fst ij1) (snd ij1) offset_i1 offset_j1 in
  let e2 := elem_of (fst ij2) (snd ij2) offset_i2 offset_j2 in
  weq (spmd (fun me => run_calls
               (swapElement A me ij1 offset_i1 offset_j1
                            ij2 offset_i2 offset_j2 tag)) W)
      (wswap 1 (owner e1) e1 (owner e2) e2 W).
Proof.
  intros e1 e2 me c. unfold spmd, swapElement, owner.
  fold e1. fold e2. cbn [v_i v_j e1 e2 elem_of].
  set (r1 := tileRank A (fst ij1) (snd ij1)).
  set (r2 := tileRank A (fst ij2) (snd ij2)).
  unfold wswap.
  destruct (Z.eqb_spec r1 me) as [E1|E1];
    destruct (Z.eqb_spec r2 me) as [E2|E2];
    try subst me; cbn;
    repeat match goal with
    | |- context [Z.eqb ?x ?x] => rewrite (Z.eqb_refl x)
    | E : ?x = ?y |- context [Z.eqb ?x ?y] =>
        rewrite (proj2 (Z.eqb_eq x y) E)
    | E : ?y = ?x |- context [Z.eqb ?x ?y] =>
        rewrite (proj2 (Z.eqb_eq x y) (eq_sym E))
    | E : ?x <> ?y |- context [Z.eqb ?x ?y] =>
        rewrite (proj2 (Z.eqb_neq x y) E)
    | E : ?y <> ?x |- context [Z.eqb ?x ?y] =>
        rewrite (proj2 (Z.eqb_neq x y) (not_eq_sym E))
    | _ => progress cbn
    | _ => progress unfold xchg_matches, recv_into, swap_vec, conj_vec
    end;
    try reflexivity; rewrite E2; reflexivity.
Qed.

Lemma spmd_conj_element (t2 i2 i1 : Z) (W : World T) :
  weq (spmd (fun me => run_calls
               (if tileRank A t2 0 =? me
                then [ConjElement (elem_of t2 0 i2 i1)] else [])) W)
      (wconj 1 (owner (elem_of t2 0 i2 i1)) (elem_of t2 0 i2 i1) W).
Proof.
  intros me c. unfold spmd, wconj, owner. cbn [v_i v_j elem_of].
  destruct (Z.eqb_spec (tileRank A t2 0) me) as [E|E]; cbn.
  - rewrite <- E, Z.eqb_refl. reflexivity.
  - destruct (Z.eqb_spec me (tileRank A t2 0)); [congruence|reflexivity].
Qed.

Lemma pos_on_owner (v : Vec) (n : Z) (c : Cell) :
  (if tileRank A (c_i c) (c_j c) =? owner v then vec_pos v n c else None)
  = vec_pos v n c.
Proof.
  destruct (vec_pos v n c) as [d|] eqn:P.
  - apply vec_pos_col in P as [-> ->]. unfold owner.
    now rewrite Z.eqb_refl.
  - now destruct (_ =? _).
Qed.

Lemma gather_cell (W : World T) (v : Vec) (d : Z) :
  W (owner v) (vec_cell v d) = gather W (vec_cell v d).
Proof.
  unfold gather, owner. destruct (vec_cell_tile v d) as [-> ->]. reflexivity.
Qed.

Lemma gather_wswap (n : Z) (v1 v2 : Vec) (W : World T) :
  teq (gather (wswap n (owner v1) v1 (owner v2) v2 W))
      (swap_vec n v1 v2 (gather W)).
Proof.
  intros c. unfold gather at 1, wswap, swap_vec.
  rewrite !pos_on_owner.
  destruct (vec_pos v1 n c); [apply gather_cell|].
  destruct (vec_pos v2 n c); [apply gather_cell|reflexivity].
Qed.

Lemma gather_wconj (n : Z) (v : Vec) (W : World T) :
  teq (gather (wconj n (owner v) v W)) (conj_vec n v (gather W)).
Proof.
  intros c. unfold gather at 1, wconj, conj_vec.
  rewrite pos_on_owner. destruct (vec_pos v n c); reflexivity.
Qed.

Lemma gather_weq (W W' : World T) : weq W W' -> teq (gather W) (gather W').
Proof. intros E c. apply E. Qed.

Lemma swap_vec_ext (n : Z) (v1 v2 : Vec) (g g' : Tiles T) :
  teq g g' -> teq (swap_vec n v1 v2 g) (swap_vec n v1 v2 g').
Proof.
  intros E c. unfold swap_vec.
  destruct (vec_pos v1 n c); [apply E|].
  destruct (vec_pos v2 n c); apply E.
Qed.

Lemma conj_vec_ext (n : Z) (v : Vec) (g g' : Tiles T) :
  teq g g' -> teq (conj_vec n v g) (conj_vec n v g').
Proof.
  intros E c. unfold conj_vec. destruct (vec_pos v n c); now rewrite E.
Qed.

Lemma cswap_ext (cj : bool) (n : Z) (v1 v2 : Vec) (g g' : Tiles T) :
  teq g g' -> teq (cswap cj n v1 v2 g) (cswap cj n v1 v2 g').
Proof.
  intros E. unfold cswap. apply swap_vec_ext.
  destruct cj; [|exact E]. now apply conj_vec_ext, conj_vec_ext.
Qed.

#[local] Abbreviation amounts_to := (amounts_to A).

Lemma swapRow_amounts_to (j_offset n : Z) (op1 : Op) (ij1 : Z * Z)
    (offset_i1 : Z) (op2 : Op) (ij2 : Z * Z) (offset_i2 tag : Z) :
  amounts_to
    (fun me => swapRow A me j_offset n op1 ij1 offset_i1
                       op2 ij2 offset_i2 tag)
    (cswap (negb (Op_eqb op1 op2)) n
       (row_of (fst ij1) (snd ij1) op1 offset_i1 j_offset)
       (row_of (fst ij2) (snd ij2) op2 offset_i2 j_offset)).
Proof.
  split; [|intros g g'; apply cswap_ext].
  intros W c.
  rewrite (gather_weq _ _ (spmd_swapRow j_offset n op1 ij1 offset_i1
                             op2 ij2 offset_i2 tag W) c).
  rewrite gather_wswap. unfold cswap. apply swap_vec_ext.
  destruct (negb (Op_eqb op1 op2)); [|intros c'; reflexivity].
  intros c'. rewrite gather_wconj. apply conj_vec_ext, gather_wconj.
Qed.

Lemma swapElement_amounts_to (ij1 : Z * Z) (offset_i1 offset_j1 : Z)
    (ij2 : Z * Z) (offset_i2 offset_j2 tag : Z) :
  amounts_to
    (fun me => swapElement A me ij1 offset_i1 offset_j1
                           ij2 offset_i2 offset_j2 tag)
    (swap_vec 1 (elem_of (fst ij1) (snd ij1) offset_i1 offset_j1)
                (elem_of (fst ij2) (snd ij2) offset_i2 offset_j2)).
Proof.
  split; [|intros g g'; apply swap_vec_ext].
  intros W c.
  rewrite (gather_weq _ _ (spmd_swapElement ij1 offset_i1 offset_j1
                             ij2 offset_i2 offset_j2 tag W) c).
  apply gather_wswap.
Qed.

Lemma conj_element_amounts_to (t2 i2 i1 : Z) :
  amounts_to
    (fun me => if tileRank A t2 0 =? me
               then [ConjElement (elem_of t2 0 i2 i1)] else [])
    (conj_vec 1 (elem_of t2 0 i2 i1)).
Proof.
  split; [|intros g g'; apply conj_vec_ext].
  intros W c.
  rewrite (gather_weq _ _ (spmd_conj_element t2 i2 i1 W) c).
  apply gather_wconj.
Qed.

Lemma serial_ext (fs : list (Tiles T -> Tiles T)) :
  Forall (fun f => forall g g', teq g g' -> teq (f g) (f g')) fs ->
  forall g g', teq g g' -> teq (serial fs g) (serial fs g').
Proof.
  induction 1 as [|f fs Hf _ IH]; intros g g' E; cbn; [exact E|].
  apply IH, Hf, E.
Qed.

Lemma run_steps_amounts_to (steps : list (Z -> list Call))
    (fs : list (Tiles T -> Tiles T)) :
  Forall2 amounts_to steps fs ->
  forall W, teq (gather (run_steps steps W)) (serial fs (gather W)).
Proof.
  induction 1 as [|s f steps fs [Hs Hf] Hrest IH]; intros W c.
  - reflexivity.
  - change (run_steps (s :: steps) W)
      with (run_steps steps (spmd (fun me => run_calls (s me)) W)).
    change (serial (f :: fs) (gather W)) with (serial fs (f (gather W))).
    rewrite IH.
    apply serial_ext; [|apply Hs].
    clear - Hrest. induction Hrest as [|? ? ? ? [_ ?] _ ?]; constructor; auto.
Qed.

#[local] Abbreviation serial_pivot_steps := (serial_pivot_steps A).

Lemma pivot_amounts_to (tag i1 : Z) (p : Pivot) :
  Forall2 amounts_to (permuteRowsCols_pivot A tag i1 p)
                     (serial_pivot_steps i1 p).
Proof.
  unfold permuteRowsCols_pivot, serial_pivot_steps.
  destruct ((tileIndex p >? 0) || (elementOffset p >? i1));
    [|apply Forall2_nil].
  repeat apply Forall2_app.
  - apply Forall2_cons; [|apply Forall2_nil].
    apply (swapRow_amounts_to 0 i1 NoTrans (0, 0) i1
             NoTrans (tileIndex p, 0)).
  - destruct (tileIndex p =? 0);
      repeat (apply Forall2_cons; [|try apply Forall2_nil]).
    + apply (swapRow_amounts_to _ _ Trans (0, 0) i1 NoTrans (0, 0)).
    + apply (swapRow_amounts_to _ _ Trans (0, 0) i1 Trans (0, 0)).
    + apply (swapRow_amounts_to _ _ Trans (0, 0) i1 NoTrans (tileIndex p, 0)).
    + apply (swapRow_amounts_to _ _ Trans (tileIndex p, 0) i1
               NoTrans (tileIndex p, tileIndex p)).
    + apply (swapRow_amounts_to _ _ Trans (tileIndex p, 0) i1
               Trans (tileIndex p, tileIndex p)).
  - apply Forall2_cons; [|apply Forall2_nil]. apply conj_element_amounts_to.
  - apply Forall2_cons; [|apply Forall2_nil].
    apply (swapElement_amounts_to (0, 0) i1 i1 (tileIndex p, tileIndex p)).
  - induction (range 1 (tileIndex p)) as [|t l IH];
      [apply Forall2_nil|apply Forall2_cons; [|exact IH]].
    apply (swapRow_amounts_to _ _ Trans (t, 0) i1 NoTrans (tileIndex p, t)).
  - induction (range (tileIndex p + 1) (nt A)) as [|t l IH];
      [apply Forall2_nil|apply Forall2_cons; [|exact IH]].
    apply (swapRow_amounts_to _ _ Trans (t, 0) i1 Trans (t, tileIndex p)).
Qed.

End Projection.

(** ** The pivot step on the one matrix *)

Lemma vec_disjoint_tiles (n : Z) (v1 v2 : Vec) :
  v_i v1 <> v_i v2 \/ v_j v1 <> v_j v2 -> vec_disjoint n v1 v2.
Proof.
  intros Hne c P1.
  destruct (vec_pos v1 n c) as [d1|] eqn:E1; [|congruence].
  destruct (vec_pos v2 n c) as [d2|] eqn:E2; [|reflexivity].
  apply vec_pos_col in E1 as [? ?]. apply vec_pos_col in E2 as [? ?].
  exfalso. destruct Hne; congruence.
Qed.

Section SerialOps.
Context {T : Type} `{Scalar T}.

Lemma cswap_pull (cj : bool) (n : Z) (v1 v2 : Vec) (g : Tiles T) :
  (cj = true -> vec_disjoint n v1 v2) ->
  teq (cswap cj n v1 v2 g) (pull cj n v1 v2 g).
Proof.
  intros Hd c. unfold cswap, pull, swap_vec.
  destruct cj; [|reflexivity]. specialize (Hd eq_refl).
  unfold conj_vec.
  destruct (vec_pos v1 n c) as [d|] eqn:P1.
  - apply vec_pos_Some in P1 as [_ Hdr].
    rewrite (vec_pos_cell v2 n d Hdr).
    destruct (vec_pos v1 n (vec_cell v2 d)) eqn:P; [|reflexivity].
    exfalso. assert (N : vec_pos v2 n (vec_cell v2 d) = None)
      by (apply Hd; congruence).
    rewrite (vec_pos_cell v2 n d Hdr) in N. discriminate.
  - destruct (vec_pos v2 n c) as [d|] eqn:P2; [|reflexivity].
    apply vec_pos_Some in P2 as [_ Hdr].
    rewrite (vec_pos_cell v1 n d Hdr).
    rewrite (Hd (vec_cell v1 d)); [reflexivity|].
    now rewrite (vec_pos_cell v1 n d Hdr).
Qed.

(** A family of operations, one per key, each staying within the cells
    of its key. *)
Section Keyed.
Variable key : Cell -> Z.

#[local] Abbreviation key_local := (key_local key).

Lemma keyed_outside (F : Z -> Tiles T -> Tiles T) (l : list Z) :
  (forall k, In k l -> key_local k (F k)) ->
  forall g c, ~ In (key c) l -> serial (map F l) g c = g c.
Proof.
  induction l as [|k l IH]; intros HF g c Hn; [reflexivity|].
  change (serial (map F (k :: l)) g) with (serial (map F l) (F k g)).
  rewrite IH; [|intros; apply HF; now right|intros Hin; apply Hn; now right].
  apply (proj1 (HF k (or_introl eq_refl))). intros E. apply Hn. now left.
Qed.

Lemma keyed_inside (F : Z -> Tiles T -> Tiles T) (l : list Z) :
  (forall k, In k l -> key_local k (F k)) -> NoDup l ->
  forall g c, In (key c) l -> serial (map F l) g c = F (key c) g c.
Proof.
  induction l as [|k l IH]; intros HF Hnd g c Hin; [destruct Hin|].
  inversion Hnd as [|? ? Hnk Hnd']; subst.
  change (serial (map F (k :: l)) g) with (serial (map F l) (F k g)).
  destruct (Z.eq_dec k (key c)) as [E|E].
  - subst k. apply keyed_outside; auto. intros; apply HF; now right.
  - destruct Hin as [Hin|Hin]; [contradiction|].
    rewrite (IH (fun k' Hk' => HF k' (or_intror Hk')) Hnd' _ _ Hin).
    apply (proj2 (HF (key c) (or_intror Hin))); [|reflexivity].
    intros c' Hc'. apply (proj1 (HF k (or_introl eq_refl))). congruence.
Qed.

Lemma keyed_range (F : Z -> Tiles T -> Tiles T) (lo hi : Z) :
  (forall k, lo <= k < hi -> key_local k (F k)) ->
  forall g c,
    serial (map F (range lo hi)) g c
    = if (lo <=? key c) && (key c <? hi) then F (key c) g c else g c.
Proof.
  intros HF g c.
  assert (HF' : forall k, In k (range lo hi) -> key_local k (F k))
    by (intros k Hk; apply HF; now apply in_range).
  destruct (Z.leb_spec lo (key c)); destruct (Z.ltb_spec (key c) hi); cbn.
  - apply keyed_inside; auto using NoDup_range. apply in_range; lia.
  - apply keyed_outside; auto. rewrite in_range. lia.
  - apply keyed_outside; auto. rewrite in_range. lia.
  - apply keyed_outside; auto. rewrite in_range. lia.
Qed.

Lemma pull_key_local (k : Z) (cj : bool) (n : Z) (v1 v2 : Vec) :
  (forall d, key (vec_cell v1 d) = k) ->
  (forall d, key (vec_cell v2 d) = k) ->
  key_local k (pull cj n v1 v2).
Proof.
  intros K1 K2. split.
  - intros g c Hk. unfold pull.
    destruct (vec_pos v1 n c) as [d|] eqn:P1.
    { apply vec_pos_Some in P1 as [<- _]. now rewrite K1 in Hk. }
    destruct (vec_pos v2 n c) as [d|] eqn:P2; [|reflexivity].
    apply vec_pos_Some in P2 as [<- _]. now rewrite K2 in Hk.
  - intros g g' E c Hk. unfold pull.
    destruct (vec_pos v1 n c); [now rewrite (E _ (K2 _))|].
    destruct (vec_pos v2 n c); [now rewrite (E _ (K1 _))|].
    now apply E.
Qed.

Lemma key_local_ext (k : Z) (f f' : Tiles T -> Tiles T) :
  (forall g, teq (f g) (f' g)) -> key_local k f' -> key_local k f.
Proof.
  intros E [F1 F2]. split.
  - intros g c Hk. now rewrite E, F1.
  - intros g g' Hg c Hk. rewrite !E. now apply F2.
Qed.

End Keyed.
End SerialOps.

Section PivotStep.
Context {T : Type} `{Scalar T}.
Variable A : MatrixDesc.
Variables i1 i2 t2 : Z.
Hypothesis Hi1 : 0 <= i1 < tileNb A 0.
Hypothesis Ht2 : 0 <= t2 < nt A.
Hypothesis Hi2 : 0 <= i2 < tileNb A t2.
Hypothesis Hguard : t2 > 0 \/ i2 > i1.

Lemma serial_app (l1 l2 : list (Tiles T -> Tiles T)) (g : Tiles T) :
  serial (l1 ++ l2) g = serial l2 (serial l1 g).
Proof. unfold serial. apply fold_left_app. Qed.

Lemma pull_ext (cj : bool) (n : Z) (v1 v2 : Vec) (g g' : Tiles T) :
  teq g g' -> teq (pull cj n v1 v2 g) (pull cj n v1 v2 g').
Proof.
  intros E c. unfold pull.
  destruct (vec_pos v1 n c); [now rewrite E|].
  destruct (vec_pos v2 n c); now rewrite E.
Qed.

#[local] Abbreviation stage_rows := (stage_rows i1 i2 t2).
#[local] Abbreviation stage_tiles := (stage_tiles A i1 i2 t2).
#[local] Abbreviation stage_cross := (stage_cross i1 i2 t2).
#[local] Abbreviation stage_diag := (stage_diag i1 i2 t2).
#[local] Abbreviation stage_between := (stage_between A i1 i2 t2).
#[local] Abbreviation stage_below := (stage_below A i1 i2 t2).
#[local] Abbreviation pivot_closed := (pivot_closed A i1 i2 t2).

Lemma disjoint_same_tile_F2 :
  vec_disjoint (i2 - i1 - 1)
    (row_of 0 0 Trans i1 (i1 + 1)) (row_of 0 0 NoTrans i2 (i1 + 1)).
Proof.
  intros c P1. unfold vec_pos, row_of in *. cbn in *.
  destruct c as [ci cj cr cc]; cbn in *.
  destruct (Z.eqb_spec cr i2); [|now rewrite !andb_false_r || (cbn; rewrite ?andb_false_r)].
  subst cr. exfalso. apply P1.
  destruct (Z.ltb_spec i2 (i1 + 1 + (i2 - i1 - 1))); [lia|].
  now rewrite !andb_false_r.
Qed.

Lemma serial_pivot_closed (g : Tiles T) :
  teq (serial (serial_pivot_steps A i1 (mkPivot t2 i2)) g) (pivot_closed g).
Proof.
  unfold serial_pivot_steps. cbn [tileIndex elementOffset].
  replace ((t2 >? 0) || (i2 >? i1)) with true
    by (symmetry; rewrite orb_true_iff, !Z.gtb_ltb, !Z.ltb_lt; lia).
  rewrite !serial_app.
  intros c. unfold pivot_closed, stage_below, stage_between, stage_diag,
    stage_cross, stage_tiles, stage_rows.
  (* tiles below t2 *)
  rewrite (keyed_range c_i
             (fun t => cswap false (tileNb A t)
                (row_of t 0 Trans i1 0) (row_of t t2 Trans i2 0))).
  2:{ intros k Hk. eapply key_local_ext.
      - intros g0. apply cswap_pull. discriminate.
      - apply pull_key_local; intros d; reflexivity. }
  assert (Ebelow : forall g0 g0', teq g0 g0' ->
            forall c0,
              (if (t2 + 1 <=? c_i c0) && (c_i c0 <? nt A)
               then cswap false (tileNb A (c_i c0))
                      (row_of (c_i c0) 0 Trans i1 0)
                      (row_of (c_i c0) t2 Trans i2 0) g0 c0
               else g0 c0)
              = (if (t2 + 1 <=? c_i c0) && (c_i c0 <? nt A)
                 then pull false (tileNb A (c_i c0))
                        (row_of (c_i c0) 0 Trans i1 0)
                        (row_of (c_i c0) t2 Trans i2 0) g0' c0
                 else g0' c0)).
  { intros g0 g0' E c0. destruct (_ && _); [|apply E].
    rewrite cswap_pull by discriminate. now apply pull_ext. }
  apply Ebelow. clear c. intros c.
  (* tiles between 0 and t2 *)
  rewrite (keyed_range key_between
             (fun t => cswap true (tileNb A t)
                (row_of t 0 Trans i1 0) (row_of t2 t NoTrans i2 0))).
  2:{ intros k Hk. eapply key_local_ext.
      - intros g0. apply cswap_pull. intros _.
        apply vec_disjoint_tiles. right. cbn. lia.
      - apply pull_key_local; intros d; unfold key_between; cbn;
          [reflexivity|].
        destruct (Z.eqb_spec k 0); [lia|reflexivity]. }
  assert (Ebetween : forall g0 g0', teq g0 g0' ->
            forall c0,
              (if (1 <=? key_between c0) && (key_between c0 <? t2)
               then cswap true (tileNb A (key_between c0))
                      (row_of (key_between c0) 0 Trans i1 0)
                      (row_of t2 (key_between c0) NoTrans i2 0) g0 c0
               else g0 c0)
              = (if (1 <=? key_between c0) && (key_between c0 <? t2)
                 then pull true (tileNb A (key_between c0))
                        (row_of (key_between c0) 0 Trans i1 0)
                        (row_of t2 (key_between c0) NoTrans i2 0) g0' c0
                 else g0' c0)).
  { intros g0 g0' E c0.
    destruct (Z.leb_spec 1 (key_between c0));
      destruct (Z.ltb_spec (key_between c0) t2); cbn; try apply E.
    rewrite cswap_pull; [now apply pull_ext|].
    intros _. apply vec_disjoint_tiles. right. cbn. lia. }
  apply Ebetween. clear c.
  (* the diagonal elements and the crossing element *)
  cbn [serial fold_left].
  apply (pull_ext false 1). apply conj_vec_ext.
  (* the rows and columns inside tile rows 0 and t2 *)
  destruct (Z.eqb_spec t2 0) as [E0|E0]; unfold serial; cbn [fold_left].
  - intros c. rewrite cswap_pull by discriminate. apply pull_ext.
    intros c'. rewrite cswap_pull by (intros _; apply disjoint_same_tile_F2).
    apply pull_ext. intros c''. now rewrite cswap_pull by discriminate.
  - intros c. rewrite cswap_pull by discriminate. apply pull_ext.
    intros c'. rewrite cswap_pull
      by (intros _; apply vec_disjoint_tiles; right; cbn; lia).
    apply pull_ext. intros c''. rewrite cswap_pull
      by (intros _; apply vec_disjoint_tiles; left; cbn; lia).
    apply pull_ext. intros c3. now rewrite cswap_pull by discriminate.
Qed.

End PivotStep.

(** ** The pivot step is a symmetric transposition *)

Lemma vec_pos_in (v : Vec) (n : Z) (c : Cell) :
  in_vec v n c -> vec_pos v n c = Some (v_run v c - v_lo v).
Proof.
  unfold in_vec, vec_pos, v_fixed, v_run. intros (-> & -> & -> & Hk).
  rewrite !Z.eqb_refl. cbn.
  destruct (Z.leb_spec (v_lo v) (if v_trans v then c_row c else c_col c));
    [|lia].
  destruct (Z.ltb_spec (if v_trans v then c_row c else c_col c) (v_lo v + n));
    [reflexivity|lia].
Qed.

Lemma vec_pos_out (v : Vec) (n : Z) (c : Cell) :
  ~ in_vec v n c -> vec_pos v n c = None.
Proof.
  intros Hn. destruct (vec_pos v n c) as [d|] eqn:P; [|reflexivity].
  exfalso. apply Hn. unfold vec_pos in P. unfold in_vec, v_fixed, v_run.
  destruct (Z.eqb_spec (c_i c) (v_i v)); [|discriminate].
  destruct (Z.eqb_spec (c_j c) (v_j v)); [|discriminate].
  destruct (Z.eqb_spec (if v_trans v then c_col c else c_row c) (v_off v));
    [|discriminate].
  destruct (Z.leb_spec (v_lo v) (if v_trans v then c_row c else c_col c));
    [|discriminate].
  destruct (Z.ltb_spec (if v_trans v then c_row c else c_col c) (v_lo v + n));
    [|discriminate].
  auto.
Qed.

Section PullAt.
Context {T : Type} `{Scalar T}.

Lemma pull_hit1 (cj : bool) (n : Z) (v1 v2 : Vec) (g : Tiles T) (c : Cell) :
  in_vec v1 n c ->
  pull cj n v1 v2 g c
  = if cj then conj (g (vec_cell v2 (v_run v1 c - v_lo v1)))
    else g (vec_cell v2 (v_run v1 c - v_lo v1)).
Proof. intros Hin. unfold pull. now rewrite (vec_pos_in _ _ _ Hin). Qed.

Lemma pull_hit2 (cj : bool) (n : Z) (v1 v2 : Vec) (g : Tiles T) (c : Cell) :
  ~ in_vec v1 n c -> in_vec v2 n c ->
  pull cj n v1 v2 g c
  = if cj then conj (g (vec_cell v1 (v_run v2 c - v_lo v2)))
    else g (vec_cell v1 (v_run v2 c - v_lo v2)).
Proof.
  intros Hout Hin. unfold pull.
  now rewrite (vec_pos_out _ _ _ Hout), (vec_pos_in _ _ _ Hin).
Qed.

Lemma pull_miss (cj : bool) (n : Z) (v1 v2 : Vec) (g : Tiles T) (c : Cell) :
  ~ in_vec v1 n c -> ~ in_vec v2 n c -> pull cj n v1 v2 g c = g c.
Proof.
  intros H1 H2. unfold pull.
  now rewrite (vec_pos_out _ _ _ H1), (vec_pos_out _ _ _ H2).
Qed.

Lemma conj_vec_hit (n : Z) (v : Vec) (g : Tiles T) (c : Cell) :
  in_vec v n c -> conj_vec n v g c = conj (g c).
Proof. intros Hin. unfold conj_vec. now rewrite (vec_pos_in _ _ _ Hin). Qed.

Lemma conj_vec_miss (n : Z) (v : Vec) (g : Tiles T) (c : Cell) :
  ~ in_vec v n c -> conj_vec n v g c = g c.
Proof. intros Hout. unfold conj_vec. now rewrite (vec_pos_out _ _ _ Hout). Qed.

End PullAt.

Ltac cell_simpl :=
  unfold key_between, in_vec, v_fixed, v_run, vec_cell, row_of, elem_of,
    cell_of;
  cbn [fst snd c_i c_j c_row c_col v_i v_j v_trans v_off v_lo Op_eqb negb].

Ltac vec_side := cell_simpl; lia.

Ltac bool_true :=
  rewrite ?andb_true_iff, ?orb_true_iff, ?Z.eqb_eq, ?Z.leb_le, ?Z.ltb_lt; lia.
Ltac bool_false :=
  rewrite ?andb_false_iff, ?orb_false_iff, ?Z.eqb_neq, ?Z.leb_gt, ?Z.ltb_ge;
  lia.

(** Settle the first [if] of the goal from the hypotheses. *)
Ltac settle_if :=
  cell_simpl;
  match goal with
  | |- context [if ?b then _ else _] =>
      lazymatch b with
      | context [if _ then _ else _] => fail
      | _ => first [ replace b with true by (symmetry; bool_true)
                   | replace b with false by (symmetry; bool_false) ]
      end
  end; cbv iota.

(** Settle the outermost [pull] or [conj_vec] of the goal. *)
Ltac settle_pull :=
  match goal with
  | |- context [pull ?cj ?n ?v1 ?v2 ?g ?c] =>
      first [ rewrite (pull_miss cj n v1 v2 g c) by vec_side
            | rewrite (pull_hit1 cj n v1 v2 g c) by vec_side
            | rewrite (pull_hit2 cj n v1 v2 g c) by vec_side ]
  | |- context [conj_vec ?n ?v ?g ?c] =>
      first [ rewrite (conj_vec_miss n v g c) by vec_side
            | rewrite (conj_vec_hit n v g c) by vec_side ]
  end; cell_simpl.

Ltac stages :=
  unfold pivot_closed;
  unfold stage_below; cbv beta; repeat settle_if; try settle_pull;
  unfold stage_between; cbv beta; repeat settle_if; try settle_pull;
  unfold stage_diag; settle_pull;
  unfold stage_cross; settle_pull;
  unfold stage_tiles; repeat settle_if; repeat settle_pull;
  unfold stage_rows; settle_pull.

Ltac no_if :=
  lazymatch goal with
  | |- context [if _ then _ else _] => fail
  | _ => idtac
  end.

(** A region where every test of the step is settled. *)
Ltac leaf :=
  repeat settle_if; no_if; stages;
  first [ reflexivity | repeat f_equal; lia ].

Ltac use_eq Hp :=
  lazymatch type of Hp with
  | _ /\ _ =>
      let H1 := fresh "Hp" in
      let H2 := fresh "Hp" in
      destruct Hp as [H1 H2]; use_eq H1; use_eq H2
  | _ = _ => try rewrite Hp in *
  | _ => idtac
  end.

(** Split into regions along [props] until each region is settled. *)
Ltac regions props :=
  first
    [ solve [exfalso; lia]
    | solve [leaf]
    | lazymatch props with
      | (?P, ?rest) =>
          let Hp := fresh "Hp" in
          assert (P \/ ~ P) as [Hp|Hp] by lia;
          [ use_eq Hp; regions rest | regions rest ]
      end ].

(** In the stored triangle, the step leaves in entry [(a, b)] what the
    matrix had in entry [(s a, s b)], [s] the transposition of [(0, i1)]
    and [(t2, i2)]. *)
Lemma pivot_closed_lower {T : Type} `{Scalar T} (A : MatrixDesc)
    (i1 i2 t2 : Z) (g : Tiles T) (a b : Z * Z) :
  0 <= i1 < tileNb A 0 -> 0 <= t2 < nt A -> 0 <= i2 < tileNb A t2 ->
  t2 > 0 \/ i2 > i1 ->
  valid_idx A a -> valid_idx A b -> idx_le b a = true ->
  pivot_closed A i1 i2 t2 g (cell_of a b)
  = hermval g (swap_idx (0, i1) (t2, i2) a) (swap_idx (0, i1) (t2, i2) b).
Proof.
  intros Hi1 Ht2 Hi2 Hguard.
  destruct a as [ta ra], b as [tb rb]. unfold valid_idx. cbn [fst snd].
  intros [Hta Hra] [Htb Hrb] Hle.
  unfold idx_le in Hle. cbn [fst snd] in Hle.
  assert (Hle' : tb < ta \/ (tb = ta /\ rb <= ra)).
  { apply orb_true_iff in Hle as [Hl|Hl]; [left; now apply Z.ltb_lt|].
    apply andb_true_iff in Hl as [E L]. right.
    apply Z.eqb_eq in E. apply Z.leb_le in L. auto. }
  clear Hle.
  unfold hermval, swap_idx, idx_eqb, idx_le. cbn [fst snd].
  regions (ta = 0 /\ ra = i1, (ta = t2 /\ ra = i2,
          (tb = 0 /\ rb = i1, (tb = t2 /\ rb = i2,
          (t2 = 0, (tb = 0, (ta <= t2, (tb < t2,
          (ta = 0, (ta = t2, (tb = t2,
          (ra < i1, (ra < i2, (rb < i1, (rb < i2, tt))))))))))))))).
Qed.

(** ** [permuteRowsCols] permutes the Hermitian matrix symmetrically *)

Lemma idx_eqb_eq (a b : Z * Z) : idx_eqb a b = true <-> a = b.
Proof.
  destruct a as [a1 a2], b as [b1 b2]. unfold idx_eqb. cbn.
  rewrite andb_true_iff, !Z.eqb_eq. split.
  - intros [-> ->]. reflexivity.
  - intros E. injection E. auto.
Qed.

Lemma idx_le_total (a b : Z * Z) : idx_le a b = false -> idx_le b a = true.
Proof.
  destruct a as [a1 a2], b as [b1 b2]. unfold idx_le. cbn.
  rewrite orb_false_iff, andb_false_iff, orb_true_iff, andb_true_iff,
    Z.ltb_ge, Z.ltb_lt, Z.eqb_neq, Z.eqb_eq, Z.leb_gt, Z.leb_le. lia.
Qed.

Lemma idx_le_antisym (a b : Z * Z) :
  idx_le a b = true -> idx_le b a = true -> a = b.
Proof.
  destruct a as [a1 a2], b as [b1 b2]. unfold idx_le. cbn.
  rewrite !orb_true_iff, !andb_true_iff, !Z.ltb_lt, !Z.eqb_eq, !Z.leb_le.
  intros Hab Hba. f_equal; lia.
Qed.

Lemma swap_idx_involutive (x1 x2 a : Z * Z) :
  swap_idx x1 x2 (swap_idx x1 x2 a) = a.
Proof.
  unfold swap_idx.
  destruct (idx_eqb a x1) eqn:E1.
  - apply idx_eqb_eq in E1. subst a.
    destruct (idx_eqb x2 x1) eqn:E21.
    + now apply idx_eqb_eq in E21.
    + replace (idx_eqb x2 x2) with true; [reflexivity|].
      symmetry. now apply idx_eqb_eq.
  - destruct (idx_eqb a x2) eqn:E2.
    + apply idx_eqb_eq in E2. subst a.
      replace (idx_eqb x1 x1) with true; [reflexivity|].
      symmetry. now apply idx_eqb_eq.
    + now rewrite E1, E2.
Qed.

Lemma swap_idx_valid (A : MatrixDesc) (x1 x2 a : Z * Z) :
  valid_idx A x1 -> valid_idx A x2 -> valid_idx A a ->
  valid_idx A (swap_idx x1 x2 a).
Proof.
  intros H1 H2 Ha. unfold swap_idx.
  destruct (idx_eqb a x1); [exact H2|]. now destruct (idx_eqb a x2).
Qed.

Section SymmetricPermutation.
Context {T : Type} `{Scalar T}.
Variable A : MatrixDesc.

Lemma herm_gather (W : World T) (a b : Z * Z) :
  herm A W a b = hermval (gather A W) a b.
Proof. reflexivity. Qed.

Lemma hermval_conj (g : Tiles T) (a b : Z * Z) :
  a <> b -> hermval g a b = conj (hermval g b a).
Proof.
  intros Hne. unfold hermval.
  destruct (idx_le b a) eqn:Eba; destruct (idx_le a b) eqn:Eab.
  - exfalso. apply Hne. now apply idx_le_antisym.
  - now rewrite conj_involutive.
  - reflexivity.
  - apply idx_le_total in Eab. congruence.
Qed.

Lemma hermval_ext (g g' : Tiles T) (a b : Z * Z) :
  teq g g' -> hermval g a b = hermval g' a b.
Proof. intros E. unfold hermval. now rewrite !E. Qed.

(** One pivot entry that the code acts on. *)
Lemma pivot_entry_herm (tag i1 : Z) (p : Pivot) (W : World T) (a b : Z * Z) :
  0 <= i1 < tileNb A 0 ->
  0 <= tileIndex p < nt A ->
  0 <= elementOffset p < tileNb A (tileIndex p) ->
  tileIndex p > 0 \/ elementOffset p > i1 ->
  valid_idx A a -> valid_idx A b ->
  herm A (run_steps (permuteRowsCols_pivot A tag i1 p) W) a b
  = herm A W (swap_idx (0, i1) (tileIndex p, elementOffset p) a)
             (swap_idx (0, i1) (tileIndex p, elementOffset p) b).
Proof.
  intros Hi1 Ht2 Hi2 Hg Ha Hb.
  set (s := swap_idx (0, i1) (tileIndex p, elementOffset p)).
  assert (Hstep : teq (gather A (run_steps (permuteRowsCols_pivot A tag i1 p) W))
                      (pivot_closed A i1 (elementOffset p) (tileIndex p)
                         (gather A W))).
  { intros c.
    rewrite (run_steps_amounts_to A _ _ (pivot_amounts_to A tag i1 p) W c).
    destruct p as [t2 i2]. now apply serial_pivot_closed. }
  assert (Hlow : forall x y, valid_idx A x -> valid_idx A y ->
            idx_le y x = true ->
            gather A (run_steps (permuteRowsCols_pivot A tag i1 p) W)
                   (cell_of x y)
            = hermval (gather A W) (s x) (s y)).
  { intros x y Hx Hy Hle. rewrite Hstep. now apply pivot_closed_lower. }
  rewrite !herm_gather. unfold hermval at 1.
  destruct (idx_le b a) eqn:Eba.
  - now apply Hlow.
  - rewrite (Hlow b a Hb Ha (idx_le_total _ _ Eba)).
    symmetry. apply hermval_conj.
    intros E. apply (f_equal s) in E. unfold s in E.
    rewrite !swap_idx_involutive in E.
    subst b. destruct a as [a1 a2]. unfold idx_le in Eba. cbn in Eba.
    rewrite Z.eqb_refl, Z.leb_refl, orb_true_r in Eba. discriminate.
Qed.

(** Any pivot entry: the entries the guard of line 613 skips change
    nothing. *)
Lemma pivot_step_herm (tag i1 : Z) (p : Pivot) (W : World T) (a b : Z * Z) :
  0 <= i1 < tileNb A 0 ->
  0 <= tileIndex p < nt A ->
  0 <= elementOffset p < tileNb A (tileIndex p) ->
  valid_idx A a -> valid_idx A b ->
  herm A (run_steps (permuteRowsCols_pivot A tag i1 p) W) a b
  = herm A W (pivot_swap i1 p a) (pivot_swap i1 p b).
Proof.
  intros Hi1 Ht2 Hi2 Ha Hb. unfold pivot_swap.
  destruct ((tileIndex p >? 0) || (elementOffset p >? i1)) eqn:G.
  - apply pivot_entry_herm; auto.
    rewrite orb_true_iff, !Z.gtb_ltb, !Z.ltb_lt in G. lia.
  - unfold permuteRowsCols_pivot. rewrite G. reflexivity.
Qed.

Lemma pivot_swap_valid (i1 : Z) (p : Pivot) (a : Z * Z) :
  0 <= i1 < tileNb A 0 ->
  0 <= tileIndex p < nt A ->
  0 <= elementOffset p < tileNb A (tileIndex p) ->
  valid_idx A a -> valid_idx A (pivot_swap i1 p a).
Proof.
  intros Hi1 Ht2 Hi2 Ha. unfold pivot_swap.
  destruct (_ || _); [|exact Ha].
  apply swap_idx_valid; auto; unfold valid_idx; cbn; lia.
Qed.

Lemma pivots_herm (pivot : list Pivot) (tag : Z) (l : list Z) :
  valid_pivots A pivot ->
  (forall i, In i l -> 0 <= i < pivot_size pivot) ->
  forall (W : World T) (a b : Z * Z),
    valid_idx A a -> valid_idx A b ->
    let perm := fun x =>
      fold_right (fun i1 x => pivot_swap i1 (pivot_at pivot i1) x) x l in
    valid_idx A (perm a)
    /\ herm A (fold_left
                 (fun W i1 =>
                    run_steps (permuteRowsCols_pivot A tag i1
                                 (pivot_at pivot i1)) W)
                 l W) a b
       = herm A W (perm a) (perm b).
Proof.
  intros [Hsize Hp]. induction l as [|i l IH]; intros Hl W a b Ha Hb perm.
  - split; [exact Ha|reflexivity].
  - assert (Hi : 0 <= i < pivot_size pivot) by (apply Hl; now left).
    assert (Hl' : forall j, In j l -> 0 <= j < pivot_size pivot)
      by (intros; apply Hl; now right).
    destruct (Hp i Hi) as [Ht Ho].
    cbn [fold_left]. unfold perm. cbn [fold_right].
    destruct (IH Hl' (run_steps (permuteRowsCols_pivot A tag i
                                   (pivot_at pivot i)) W) a b Ha Hb)
      as [Hva Hab].
    destruct (IH Hl' W b a Hb Ha) as [Hvb _].
    split.
    + apply pivot_swap_valid; auto; lia.
    + rewrite Hab. apply pivot_step_herm; auto; lia.
Qed.

Lemma pivot_order_in (d : Direction) (k : nat) (i : Z) :
  In i (pivot_order d (Z.of_nat k)) -> 0 <= i < Z.of_nat k.
Proof.
  destruct d.
  - rewrite pivot_order_forward. apply in_range.
  - rewrite pivot_order_backward, <- in_rev. apply in_range.
Qed.

End SymmetricPermutation.

(** C2: for every lower-stored Hermitian matrix and every pivot vector
    whose entries point into the matrix, after
    [permuteRowsCols(direction, A, P)] the stored triangle again stands
    for a matrix with [A == conj_transpose(A)], and that matrix is the
    original one with its rows and columns permuted symmetrically by the
    pivot swaps.  For each pivot entry the code acts on ([t2 > 0] or
    [i2 > i1]) rows and columns [i1] and [i2] are swapped: the crossing
    element [A[i2, i1]] is conjugated and the diagonal elements
    [A[i1, i1]] and [A[i2, i2]] are exchanged. *)
Theorem C2_permuteRowsCols_hermitian {T : Type} `{Scalar T}
    (A : MatrixDesc) (direction : Direction) (P : list Pivot)
    (priority tag : Z) (W : World T) :
  valid_pivots A P ->
  hermitian A W ->
  let W' := permuteRowsCols A direction P priority tag W in
  hermitian A W'
  /\ (forall a b, valid_idx A a -> valid_idx A b ->
        herm A W' a b
        = herm A W (pivot_perm direction P a) (pivot_perm direction P b))
  /\ (forall (W1 : World T) (i1 : Z),
        0 <= i1 < pivot_size P ->
        let p := pivot_at P i1 in
        let x1 := (0, i1) in
        let x2 := (tileIndex p, elementOffset p) in
        tileIndex p > 0 \/ elementOffset p > i1 ->
        let W2 := run_steps (permuteRowsCols_pivot A tag i1 p) W1 in
        (forall a b, valid_idx A a -> valid_idx A b ->
           herm A W2 a b = herm A W1 (swap_idx x1 x2 a) (swap_idx x1 x2 b))
        /\ stored A W2 x2 x1 = conj (stored A W1 x2 x1)
        /\ stored A W2 x1 x1 = stored A W1 x2 x2
        /\ stored A W2 x2 x2 = stored A W1 x1 x1).
Proof.
  intros HP HW W'.
  assert (Hperm : forall a b, valid_idx A a -> valid_idx A b ->
            valid_idx A (pivot_perm direction P a)
            /\ herm A W' a b
               = herm A W (pivot_perm direction P a)
                          (pivot_perm direction P b)).
  { intros a b Ha Hb. unfold W', permuteRowsCols, pivot_perm.
    apply pivots_herm; auto.
    intros i. unfold pivot_size. apply pivot_order_in. }
  split; [|split].
  - intros a b Ha Hb.
    destruct (Hperm a b Ha Hb) as [Hva ->].
    destruct (Hperm b a Hb Ha) as [Hvb ->].
    now apply HW.
  - intros a b Ha Hb. now apply Hperm.
  - intros W1 i1 Hi p x1 x2 Hg W2.
    destruct HP as [Hsize Hp]. destruct (Hp i1 Hi) as [Ht Ho]. fold p in Ht, Ho.
    assert (Hx1 : valid_idx A x1) by (unfold valid_idx, x1; cbn; lia).
    assert (Hx2 : valid_idx A x2) by (unfold valid_idx, x2; cbn; lia).
    assert (Hstep : forall a b, valid_idx A a -> valid_idx A b ->
              herm A W2 a b
              = herm A W1 (swap_idx x1 x2 a) (swap_idx x1 x2 b)).
    { intros a b Ha Hb. apply pivot_entry_herm; auto; lia. }
    assert (E11 : idx_eqb x1 x1 = true) by now apply idx_eqb_eq.
    assert (E22 : idx_eqb x2 x2 = true) by now apply idx_eqb_eq.
    assert (E21 : idx_eqb x2 x1 = false).
    { unfold idx_eqb, x1, x2. cbn [fst snd].
      destruct (Z.eqb_spec (tileIndex p) 0);
        destruct (Z.eqb_spec (elementOffset p) i1); cbn; try reflexivity. lia. }
    assert (L12 : idx_le x1 x2 = true).
    { unfold idx_le, x1, x2. cbn [fst snd].
      destruct (Z.ltb_spec 0 (tileIndex p));
        destruct (Z.eqb_spec 0 (tileIndex p));
        destruct (Z.leb_spec i1 (elementOffset p)); cbn; try reflexivity; lia. }
    assert (L21 : idx_le x2 x1 = false).
    { unfold idx_le, x1, x2. cbn [fst snd].
      destruct (Z.ltb_spec (tileIndex p) 0);
        destruct (Z.eqb_spec (tileIndex p) 0);
        destruct (Z.leb_spec (elementOffset p) i1); cbn; try reflexivity; lia. }
    assert (L11 : idx_le x1 x1 = true).
    { unfold idx_le. now rewrite Z.eqb_refl, Z.leb_refl, orb_true_r. }
    assert (L22 : idx_le x2 x2 = true).
    { unfold idx_le. now rewrite Z.eqb_refl, Z.leb_refl, orb_true_r. }
    split; [exact Hstep|]. split; [|split].
    + pose proof (Hstep x2 x1 Hx2 Hx1) as E. unfold herm, swap_idx in E.
      now rewrite E11, E21, E22, L12, L21 in E.
    + pose proof (Hstep x1 x1 Hx1 Hx1) as E. unfold herm, swap_idx in E.
      now rewrite E11, L11, L22 in E.
    + pose proof (Hstep x2 x2 Hx2 Hx2) as E. unfold herm, swap_idx in E.
      now rewrite E21, E22, L22, L11 in E.
Qed.

Lemma W_herm_hermitian : hermitian A_herm W_herm.
Proof.
  intros a b _ _. unfold herm, stored, W_herm. cbn [c_i c_j c_row c_col].
  destruct (idx_le b a), (idx_le a b); cbn; unfold cconj; cbn;
    f_equal; lia.
Qed.

Lemma P_herm_valid : valid_pivots A_herm P_herm.
Proof.
  split; [vm_compute; discriminate|].
  intros i Hi. change (pivot_size P_herm) with 2 in Hi.
  assert (E : i = 0 \/ i = 1) by lia.
  destruct E as [-> | ->]; vm_compute; repeat split; discriminate.
Qed.

Lemma C2_witness :
  valid_pivots A_herm P_herm
  /\ hermitian A_herm W_herm
  /\ hermitian A_herm (permuteRowsCols A_herm Forward P_herm 0 0 W_herm)
  /\ herm A_herm (permuteRowsCols A_herm Forward P_herm 0 0 W_herm)
          (0, 0) (1, 1)
     = herm A_herm W_herm (pivot_perm Forward P_herm (0, 0))
                          (pivot_perm Forward P_herm (1, 1)).
Proof.
  split; [exact P_herm_valid|]. split; [exact W_herm_hermitian|].
  pose proof (C2_permuteRowsCols_hermitian A_herm Forward P_herm 0 0 W_herm
                P_herm_valid W_herm_hermitian) as [Hh [Hp _]].
  split; [exact Hh|].
  apply Hp; vm_compute; repeat split; discriminate.
Defined.

(** The same run evaluated: after the swap of rows and columns 0 and 2,
    entry (2, 0) holds the conjugate of the old one, the diagonal
    entries (0, 0) and (2, 2) have changed places, and entry (3, 0) holds
    the old entry (3, 2). *)
Lemma permuteRowsCols_example :
  let W' := permuteRowsCols A_herm Forward P_herm 0 0 W_herm in
  stored A_herm W' (1, 0) (0, 0) = (2, -2)
  /\ stored A_herm W_herm (1, 0) (0, 0) = (2, 2)
  /\ stored A_herm W' (0, 0) (0, 0) = (4, 0)
  /\ stored A_herm W' (1, 0) (1, 0) = (0, 0)
  /\ stored A_herm W' (1, 1) (0, 0) = stored A_herm W_herm (1, 1) (1, 0)
  /\ stored A_herm W' (0, 1) (0, 0) = (3, -1).
Proof. vm_compute. repeat split. Qed.

(* ================================================================== *)
(** * Further properties of the code *)

(** ** [permuteRows] and [permuteRowsCols]: permutation, frame and
    answered exchanges *)

Section PermuteRowsAsPermutation.
Context {T : Type} `{Scalar T}.
Variable A : MatrixDesc.
Variable pivot : list Pivot.

Lemma swap_performed_guard (j i : Z) :
  0 <= tileIndex (pivot_at pivot i) ->
  swap_performed A pivot j i
  = (tileIndex (pivot_at pivot i) >? 0) || (elementOffset (pivot_at pivot i) >? i).
Proof.
  intros Ht. unfold swap_performed. cbn zeta.
  destruct (Z.eqb_spec (tileIndex (pivot_at pivot i)) 0) as [E|E].
  - rewrite E, Z.eqb_refl. reflexivity.
  - replace (tileIndex (pivot_at pivot i) >? 0) with true.
    + now rewrite orb_true_r.
    + symmetry. rewrite Z.gtb_ltb. apply Z.ltb_lt. lia.
Qed.

Lemma swap_vec_rows (n j i t o : Z) (g : Tiles T) (a : Z * Z) (col : Z) :
  0 <= col < n ->
  swap_vec n (row_of 0 j NoTrans i 0) (row_of t j NoTrans o 0) g
           (row_cell a j col)
  = g (row_cell (swap_idx (0, i) (t, o) a) j col).
Proof.
  intros Hcol. destruct a as [ti r]. unfold swap_vec, swap_idx.
  destruct (idx_eqb (ti, r) (0, i)) eqn:E1.
  - apply idx_eqb_eq in E1. injection E1 as -> ->.
    rewrite vec_pos_in by (unfold in_vec, v_fixed, v_run; cbn; lia).
    unfold vec_cell, row_cell, v_run. cbn. f_equal. f_equal. lia.
  - assert (N1 : (ti, r) <> (0, i))
      by (intros E; apply idx_eqb_eq in E; congruence).
    rewrite vec_pos_out.
    2:{ unfold in_vec, v_fixed, v_run; cbn. intros (? & _ & ? & _).
        apply N1. congruence. }
    destruct (idx_eqb (ti, r) (t, o)) eqn:E2.
    + apply idx_eqb_eq in E2. injection E2 as -> ->.
      rewrite vec_pos_in by (unfold in_vec, v_fixed, v_run; cbn; lia).
      unfold vec_cell, row_cell, v_run. cbn. f_equal. f_equal. lia.
    + rewrite vec_pos_out; [reflexivity|].
      unfold in_vec, v_fixed, v_run; cbn. intros (? & _ & ? & _).
      assert (E : (ti, r) = (t, o)) by congruence.
      apply idx_eqb_eq in E. congruence.
Qed.

Lemma permuteRows_step_rows (tag j i : Z) (W : World T) (a : Z * Z) (col : Z) :
  0 <= tileIndex (pivot_at pivot i) ->
  0 <= col < tileNb A j ->
  gather A (permuteRows_step A pivot tag j i W) (row_cell a j col)
  = gather A W (row_cell (pivot_swap i (pivot_at pivot i) a) j col).
Proof.
  intros Ht Hcol.
  rewrite (gather_weq A _ _ (permuteRows_step_spec A pivot tag j i W)).
  rewrite (swap_performed_guard j i Ht). unfold pivot_swap.
  destruct ((tileIndex (pivot_at pivot i) >? 0)
            || (elementOffset (pivot_at pivot i) >? i)); [|reflexivity].
  change (tileRank A 0 j) with (owner A (diag_row j i)).
  change (tileRank A (tileIndex (pivot_at pivot i)) j)
    with (owner A (pivot_row pivot j i)).
  rewrite gather_wswap. now apply swap_vec_rows.
Qed.

Lemma permuteRows_column_rows (tag j : Z) (l : list Z) :
  (forall i, In i l -> 0 <= tileIndex (pivot_at pivot i)) ->
  forall (W : World T) (a : Z * Z) (col : Z),
    0 <= col < tileNb A j ->
    gather A (fold_left (fun W i => permuteRows_step A pivot tag j i W) l W)
           (row_cell a j col)
    = gather A W
        (row_cell (fold_right (fun i x => pivot_swap i (pivot_at pivot i) x)
                              a l) j col).
Proof.
  induction l as [|i l IH]; intros Hl W a col Hcol; [reflexivity|].
  cbn [fold_left fold_right].
  rewrite IH by (auto; intros; apply Hl; now right).
  apply permuteRows_step_rows; auto. apply Hl. now left.
Qed.

Lemma permuteRows_HostTask_column (direction : Direction) (layout : Layout)
    (priority tag queue_index : Z) (W : World T) (me : Z) (c : Cell) :
  0 <= c_j c < nt A ->
  permuteRows_HostTask A pivot direction layout priority tag queue_index W me c
  = permuteRows_column A pivot direction tag (c_j c) W me c.
Proof.
  intros Hj. unfold permuteRows_HostTask.
  change (sweep (fun j => permuteRows_column A pivot direction tag j)
            (range 0 (nt A)) W me c
          = permuteRows_column A pivot direction tag (c_j c) W me c).
  apply (sweep_inside (fun j => permuteRows_column A pivot direction tag j)).
  - intros j. apply permuteRows_column_local.
  - apply NoDup_range.
  - now apply in_range.
Qed.

End PermuteRowsAsPermutation.

(** X1: [permuteRows] permutes the rows.  When every pivot entry has a
    tile index that is not negative, after the call row [a] of every
    block column [j], read on the owners of its tiles, holds what row
    [pivot_perm direction P a] held before: the interchanges
    [(0, i) <-> pivot[i]] of the entries that pass the guard
    [tileIndex > 0 || elementOffset > i], composed in the order the
    direction visits them, and the same permutation for every column. *)
Theorem X1_permuteRows_permutes_rows {T : Type} `{Scalar T}
    (A : MatrixDesc) (P : list Pivot) (direction : Direction)
    (layout : Layout) (priority tag queue_index : Z) (W : World T) :
  (forall i, 0 <= i < pivot_size P -> 0 <= tileIndex (pivot_at P i)) ->
  forall (a : Z * Z) (j col : Z),
    0 <= j < nt A -> 0 <= col < tileNb A j ->
    gather A (permuteRows_HostTask A P direction layout priority tag
                queue_index W) (row_cell a j col)
    = gather A W (row_cell (pivot_perm direction P a) j col).
Proof.
  intros HP a j col Hj Hcol. unfold gather at 1.
  rewrite permuteRows_HostTask_column by exact Hj.
  change (gather A (permuteRows_column A P direction tag j W) (row_cell a j col)
          = gather A W (row_cell (pivot_perm direction P a) j col)).
  unfold permuteRows_column, pivot_perm.
  apply permuteRows_column_rows; auto.
  intros i Hi. apply HP. unfold pivot_size in *. now apply pivot_order_in in Hi.
Qed.

(** X1 on the two-rank matrix, with one pivot entry that names row 1 of tile 1. *)
Lemma X1_witness :
  gather A_two_ranks
    (permuteRows_HostTask A_two_ranks [mkPivot 1 1] Forward ColMajor 0 0 0
       W_marked) (row_cell (0, 0) 0 1)
  = gather A_two_ranks W_marked
      (row_cell (pivot_perm Forward [mkPivot 1 1] (0, 0)) 0 1).
Proof.
  apply X1_permuteRows_permutes_rows.
  - intros i Hi. change (pivot_size [mkPivot 1 1]) with 1 in Hi.
    assert (i = 0) as -> by lia. cbn. lia.
  - cbn. lia.
  - cbn. lia.
Defined.

Lemma vec_pos_inv (v : Vec) (n : Z) (c : Cell) (d : Z) :
  vec_pos v n c = Some d -> in_vec v n c.
Proof.
  intros P. unfold vec_pos in P. unfold in_vec, v_fixed, v_run.
  destruct (Z.eqb_spec (c_i c) (v_i v)); [|discriminate].
  destruct (Z.eqb_spec (c_j c) (v_j v)); [|discriminate].
  destruct (Z.eqb_spec (if v_trans v then c_col c else c_row c) (v_off v));
    [|discriminate].
  destruct (Z.leb_spec (v_lo v) (if v_trans v then c_row c else c_col c));
    [|discriminate].
  destruct (Z.ltb_spec (if v_trans v then c_row c else c_col c) (v_lo v + n));
    [|discriminate].
  auto.
Qed.

Section PermuteRowsFrame.
Context {T : Type} `{Scalar T}.
Variable A : MatrixDesc.
Variable pivot : list Pivot.

Lemma wswap_rows_frame (j t i o me : Z) (c : Cell) (W : World T) :
  me <> tileRank A (c_i c) (c_j c)
  \/ ~ 0 <= c_col c < tileNb A j ->
  wswap (tileNb A j) (tileRank A 0 j) (row_of 0 j NoTrans i 0)
        (tileRank A t j) (row_of t j NoTrans o 0) W me c
  = W me c.
Proof.
  intros Hc. unfold wswap.
  destruct (Z.eqb_spec me (tileRank A 0 j)) as [E1|E1].
  - destruct (vec_pos (row_of 0 j NoTrans i 0) (tileNb A j) c) as [d|] eqn:P1.
    + exfalso. apply vec_pos_inv in P1.
      unfold in_vec, v_fixed, v_run in P1; cbn in P1.
      destruct P1 as (Hi & Hj & _ & Hr).
      destruct Hc as [Hc|Hc]; [apply Hc; now rewrite Hi, Hj|apply Hc; lia].
    + destruct (Z.eqb_spec me (tileRank A t j)) as [E2|E2]; [|reflexivity].
      destruct (vec_pos (row_of t j NoTrans o 0) (tileNb A j) c) as [d|] eqn:P2;
        [|reflexivity].
      exfalso. apply vec_pos_inv in P2.
      unfold in_vec, v_fixed, v_run in P2; cbn in P2.
      destruct P2 as (Hi & Hj & _ & Hr).
      destruct Hc as [Hc|Hc]; [apply Hc; now rewrite Hi, Hj|apply Hc; lia].
  - destruct (Z.eqb_spec me (tileRank A t j)) as [E2|E2]; [|reflexivity].
    destruct (vec_pos (row_of t j NoTrans o 0) (tileNb A j) c) as [d|] eqn:P2;
      [|reflexivity].
    exfalso. apply vec_pos_inv in P2.
    unfold in_vec, v_fixed, v_run in P2; cbn in P2.
    destruct P2 as (Hi & Hj & _ & Hr).
    destruct Hc as [Hc|Hc]; [apply Hc; now rewrite Hi, Hj|apply Hc; lia].
Qed.

Lemma permuteRows_step_frame (tag j i me : Z) (c : Cell) (W : World T) :
  me <> tileRank A (c_i c) (c_j c)
  \/ ~ 0 <= c_col c < tileNb A j ->
  permuteRows_step A pivot tag j i W me c = W me c.
Proof.
  intros Hc. rewrite permuteRows_step_spec.
  destruct (swap_performed A pivot j i); [|reflexivity].
  now apply wswap_rows_frame.
Qed.

End PermuteRowsFrame.

(** X2: what [permuteRows] never touches.  In the memory of a rank, a
    cell of a tile the rank does not own, a cell of a block column
    outside [0, nt) and a cell whose column is outside the width of its
    block column are after the call what they were before, whatever the
    pivot vector. *)
Theorem X2_permuteRows_frame {T : Type} `{Scalar T}
    (A : MatrixDesc) (P : list Pivot) (direction : Direction)
    (layout : Layout) (priority tag queue_index : Z) (W : World T)
    (me : Z) (c : Cell) :
  me <> tileRank A (c_i c) (c_j c)
  \/ ~ 0 <= c_j c < nt A
  \/ ~ 0 <= c_col c < tileNb A (c_j c) ->
  permuteRows_HostTask A P direction layout priority tag queue_index W me c
  = W me c.
Proof.
  intros Hc.
  destruct (in_dec Z.eq_dec (c_j c) (range 0 (nt A))) as [Hin|Hout].
  - apply in_range in Hin. rewrite permuteRows_HostTask_column by exact Hin.
    assert (Hc' : me <> tileRank A (c_i c) (c_j c)
                  \/ ~ 0 <= c_col c < tileNb A (c_j c)) by tauto.
    unfold permuteRows_column.
    generalize (pivot_order direction (pivot_size P)) as l. intros l.
    revert W. induction l as [|i l IH]; intros W; [reflexivity|].
    cbn [fold_left]. rewrite IH. now apply permuteRows_step_frame.
  - unfold permuteRows_HostTask.
    apply (sweep_outside (fun j => permuteRows_column A P direction tag j)).
    + intros j. apply permuteRows_column_local.
    + exact Hout.
Qed.

(** X2 for rank 1 and a cell of tile (0,0), which rank 0 owns. *)
Lemma X2_witness :
  permuteRows_HostTask A_two_ranks [mkPivot 1 1] Forward ColMajor 0 0 0
    W_marked 1 (mkCell 0 0 0 0)
  = W_marked 1 (mkCell 0 0 0 0).
Proof.
  apply X2_permuteRows_frame. left. cbn. lia.
Defined.

(** X3: every remote swap of [permuteRows] is answered.  At every
    iteration [(j, i)], a rank that sends and receives a row has a peer
    that makes the matching exchange at the same iteration (same tag,
    same length, each names the other, and never the rank itself);
    exchanges take place only between the owner of the diagonal tile
    [(0, j)] and the owner of the tile of the pivot row, and only when
    the two differ. *)
Theorem X3_permuteRows_exchanges_answered {T : Type} `{Scalar T}
    (A : MatrixDesc) (P : list Pivot) (tag j i : Z) (W : World T) (me : Z) :
  exchange_answered
    (fun me => run_calls (permuteRows_body A P tag me j i)) W me = true
  /\ (forall x,
        snd (run_calls (permuteRows_body A P tag me j i) (W me)) = Some x ->
        tileRank A 0 j <> tileRank A (tileIndex (pivot_at P i)) j
        /\ (me = tileRank A 0 j
            /\ x_peer x = tileRank A (tileIndex (pivot_at P i)) j
            \/ me = tileRank A (tileIndex (pivot_at P i)) j
               /\ x_peer x = tileRank A 0 j)).
Proof.
  unfold exchange_answered, run_calls, permuteRows_body.
  set (p := pivot_at P i). set (r := tileRank A 0 j).
  set (pr := tileRank A (tileIndex p) j).
  destruct (Z.eqb_spec pr me) as [E1|E1]; destruct (Z.eqb_spec me r) as [E2|E2].
  - destruct ((tileIndex p >? 0) || (elementOffset p >? i)); cbn;
      (split; [reflexivity|intros x Hx; discriminate]).
  - cbn. fold r. fold pr.
    destruct (Z.eqb_spec pr r) as [N|N]; [congruence|].
    rewrite Z.eqb_refl. cbn. unfold xchg_matches. cbn.
    subst me. rewrite !Z.eqb_refl. cbn.
    destruct (Z.eqb_spec r pr); [congruence|]. split; [reflexivity|].
    intros x Hx. injection Hx as <-. cbn. split; [congruence|]. right. auto.
  - cbn. fold pr. rewrite Z.eqb_refl.
    destruct (Z.eqb_spec pr r) as [N|N]; [congruence|]. cbn.
    unfold xchg_matches. cbn. rewrite <- E2, !Z.eqb_refl. cbn.
    destruct (Z.eqb_spec pr me); [congruence|]. split; [reflexivity|].
    intros x Hx. injection Hx as <-. cbn. split; [congruence|]. left. auto.
  - cbn. split; [reflexivity|]. intros x Hx. discriminate.
Qed.

Section SwapsAnswered.
Context {T : Type} `{Scalar T}.
Variable A : MatrixDesc.

Lemma run_calls_lacgv (n : Z) (v : Vec) (cs : list Call) (L : Tiles T) :
  snd (run_calls (Lacgv n v :: cs) L) = snd (run_calls cs (conj_vec n v L)).
Proof. reflexivity. Qed.

Lemma swapRow_answered (j_offset n : Z) (op1 : Op) (ij1 : Z * Z)
    (offset_i1 : Z) (op2 : Op) (ij2 : Z * Z) (offset_i2 tag : Z)
    (W : World T) (me : Z) :
  exchange_answered
    (fun me => run_calls (swapRow A me j_offset n op1 ij1 offset_i1
                            op2 ij2 offset_i2 tag)) W me = true.
Proof.
  unfold exchange_answered, swapRow.
  destruct (n =? 0); [reflexivity|].
  set (r1 := tileRank A (fst ij1) (snd ij1)).
  set (r2 := tileRank A (fst ij2) (snd ij2)).
  destruct (Z.eqb_spec r1 me) as [E1|E1]; destruct (Z.eqb_spec r2 me) as [E2|E2].
  - destruct (negb (Op_eqb op1 op2)); reflexivity.
  - assert (Hx : forall L, snd (run_calls
              ((if negb (Op_eqb op1 op2)
                then [Lacgv n (row_of (fst ij1) (snd ij1) op1 offset_i1 j_offset)]
                else [])
               ++ [SwapRemoteRow n
                     (row_of (fst ij1) (snd ij1) op1 offset_i1 j_offset)
                     r2 tag]) L)
            = Some (mkXchg n (row_of (fst ij1) (snd ij1) op1 offset_i1 j_offset)
                      r2 tag))
      by (intros L; destruct (negb (Op_eqb op1 op2)); reflexivity).
    rewrite Hx. cbn [x_peer].
    destruct (Z.eqb_spec r1 r2) as [N|N]; [congruence|].
    rewrite Z.eqb_refl.
    assert (Hy : forall L, snd (run_calls
              ((if negb (Op_eqb op1 op2)
                then [Lacgv n (row_of (fst ij2) (snd ij2) op2 offset_i2 j_offset)]
                else [])
               ++ [SwapRemoteRow n
                     (row_of (fst ij2) (snd ij2) op2 offset_i2 j_offset)
                     r1 tag]) L)
            = Some (mkXchg n (row_of (fst ij2) (snd ij2) op2 offset_i2 j_offset)
                      r1 tag))
      by (intros L; destruct (negb (Op_eqb op1 op2)); reflexivity).
    rewrite Hy. unfold xchg_matches. cbn. rewrite E1, !Z.eqb_refl. cbn.
    destruct (Z.eqb_spec r2 me); [congruence|reflexivity].
  - assert (Hy : forall L, snd (run_calls
              ((if negb (Op_eqb op1 op2)
                then [Lacgv n (row_of (fst ij2) (snd ij2) op2 offset_i2 j_offset)]
                else [])
               ++ [SwapRemoteRow n
                     (row_of (fst ij2) (snd ij2) op2 offset_i2 j_offset)
                     r1 tag]) L)
            = Some (mkXchg n (row_of (fst ij2) (snd ij2) op2 offset_i2 j_offset)
                      r1 tag))
      by (intros L; destruct (negb (Op_eqb op1 op2)); reflexivity).
    rewrite Hy. cbn [x_peer]. rewrite Z.eqb_refl.
    destruct (Z.eqb_spec r2 r1) as [N|N]; [congruence|].
    assert (Hx : forall L, snd (run_calls
              ((if negb (Op_eqb op1 op2)
                then [Lacgv n (row_of (fst ij1) (snd ij1) op1 offset_i1 j_offset)]
                else [])
               ++ [SwapRemoteRow n
                     (row_of (fst ij1) (snd ij1) op1 offset_i1 j_offset)
                     r2 tag]) L)
            = Some (mkXchg n (row_of (fst ij1) (snd ij1) op1 offset_i1 j_offset)
                      r2 tag))
      by (intros L; destruct (negb (Op_eqb op1 op2)); reflexivity).
    rewrite Hx. unfold xchg_matches. cbn. rewrite E2, !Z.eqb_refl. cbn.
    destruct (Z.eqb_spec r1 me); [congruence|reflexivity].
  - reflexivity.
Qed.

Lemma swapElement_answered (ij1 : Z * Z) (offset_i1 offset_j1 : Z)
    (ij2 : Z * Z) (offset_i2 offset_j2 tag : Z) (W : World T) (me : Z) :
  exchange_answered
    (fun me => run_calls (swapElement A me ij1 offset_i1 offset_j1
                            ij2 offset_i2 offset_j2 tag)) W me = true.
Proof.
  unfold exchange_answered, swapElement.
  set (r1 := tileRank A (fst ij1) (snd ij1)).
  set (r2 := tileRank A (fst ij2) (snd ij2)).
  destruct (Z.eqb_spec r1 me) as [E1|E1]; destruct (Z.eqb_spec r2 me) as [E2|E2].
  - reflexivity.
  - cbn. destruct (Z.eqb_spec r1 r2) as [N|N]; [congruence|].
    rewrite Z.eqb_refl. unfold xchg_matches. cbn.
    rewrite E1, !Z.eqb_refl. cbn.
    destruct (Z.eqb_spec r2 me); [congruence|reflexivity].
  - cbn. rewrite Z.eqb_refl.
    destruct (Z.eqb_spec r2 r1) as [N|N]; [congruence|].
    unfold xchg_matches. cbn.
    rewrite E2, !Z.eqb_refl. cbn.
    destruct (Z.eqb_spec r1 me); [congruence|reflexivity].
  - reflexivity.
Qed.

End SwapsAnswered.

(** X4: every remote swap of [permuteRowsCols] is answered.  In each
    step of a pivot entry (a [swapRow], the conjugation of the crossing
    element or the [swapElement] of the two diagonal elements), a rank
    that sends and receives has a peer that makes the matching exchange
    in the same step. *)
Theorem X4_permuteRowsCols_exchanges_answered {T : Type} `{Scalar T}
    (A : MatrixDesc) (tag i1 : Z) (p : Pivot) (step : Z -> list Call)
    (W : World T) (me : Z) :
  In step (permuteRowsCols_pivot A tag i1 p) ->
  exchange_answered (fun me => run_calls (step me)) W me = true.
Proof.
  unfold permuteRowsCols_pivot.
  destruct ((tileIndex p >? 0) || (elementOffset p >? i1)); [|intros []].
  intros Hin.
  repeat (apply in_app_or in Hin; destruct Hin as [Hin|Hin]).
  - destruct Hin as [<-|[]]. apply swapRow_answered.
  - destruct (tileIndex p =? 0).
    + destruct Hin as [<-|[<-|[]]]; apply swapRow_answered.
    + destruct Hin as [<-|[<-|[<-|[]]]]; apply swapRow_answered.
  - destruct Hin as [<-|[]]. unfold exchange_answered.
    destruct (tileRank A (tileIndex p) 0 =? me); reflexivity.
  - destruct Hin as [<-|[]]. apply swapElement_answered.
  - apply in_map_iff in Hin as (t & <- & _). apply swapRow_answered.
  - apply in_map_iff in Hin as (t & <- & _). apply swapRow_answered.
Qed.

(** X4 for the second step of the pivot entry [0 -> (1, 0)] on the Hermitian sample. *)
Lemma X4_witness :
  exchange_answered
    (fun me => run_calls
       (nth 1 (permuteRowsCols_pivot A_herm 7 0 (mkPivot 1 0))
            (fun _ => []) me))
    W_herm 0 = true.
Proof.
  apply (X4_permuteRowsCols_exchanges_answered A_herm 7 0 (mkPivot 1 0)).
  cbn. right. left. reflexivity.
Defined.

Lemma fold_right_undo {X Y} (f : X -> Y -> Y) (l : list X) :
  (forall x y, f x (f x y) = y) ->
  forall a, fold_right f (fold_right f a (rev l)) l = a.
Proof.
  intros Hinv. induction l as [|x l IH]; intros a; [reflexivity|].
  cbn [rev fold_right]. rewrite fold_right_app. cbn [fold_right].
  rewrite IH. apply Hinv.
Qed.

Lemma pivot_swap_involutive (i1 : Z) (p : Pivot) (a : Z * Z) :
  pivot_swap i1 p (pivot_swap i1 p a) = a.
Proof.
  unfold pivot_swap. destruct (_ || _); [|reflexivity].
  apply swap_idx_involutive.
Qed.

(** X5: round trip of [permuteRowsCols].  With pivot entries that point
    into the matrix, pivoting Forward and then Backward with the same
    pivot vector puts every stored entry of the lower triangle back
    where it was, with its value. *)
Theorem X5_permuteRowsCols_round_trip {T : Type} `{Scalar T}
    (A : MatrixDesc) (P : list Pivot) (priority tag : Z) (W : World T) :
  valid_pivots A P ->
  forall a b, valid_idx A a -> valid_idx A b -> idx_le b a = true ->
    stored A (permuteRowsCols A Backward P priority tag
                (permuteRowsCols A Forward P priority tag W)) a b
    = stored A W a b.
Proof.
  intros HP a b Ha Hb Hle.
  assert (Hin : forall d i, In i (pivot_order d (pivot_size P)) ->
                            0 <= i < pivot_size P)
    by (intros d i; unfold pivot_size; apply pivot_order_in).
  pose proof (pivots_herm A P tag (pivot_order Backward (pivot_size P)) HP
                (Hin Backward)
                (permuteRowsCols A Forward P priority tag W) a b Ha Hb)
    as [Hva Hback].
  pose proof (pivots_herm A P tag (pivot_order Backward (pivot_size P)) HP
                (Hin Backward) W b a Hb Ha) as [Hvb _].
  cbv zeta in *.
  pose proof (pivots_herm A P tag (pivot_order Forward (pivot_size P)) HP
                (Hin Forward) W _ _ Hva Hvb) as [_ Hfwd].
  cbv zeta in Hfwd.
  assert (Hundo : forall x,
            fold_right (fun i1 x => pivot_swap i1 (pivot_at P i1) x)
              (fold_right (fun i1 x => pivot_swap i1 (pivot_at P i1) x) x
                 (pivot_order Backward (pivot_size P)))
              (pivot_order Forward (pivot_size P)) = x).
  { intros x. unfold pivot_size.
    rewrite pivot_order_backward, pivot_order_forward.
    apply (fold_right_undo (fun i1 x => pivot_swap i1 (pivot_at P i1) x)).
    intros i y. apply pivot_swap_involutive. }
  rewrite !Hundo in Hfwd.
  unfold permuteRowsCols in *.
  unfold herm in Hback at 1. rewrite Hle in Hback. rewrite Hback.
  rewrite Hfwd. unfold herm. now rewrite Hle.
Qed.

(** X5 for entry ((1,0), (0,0)) of the Hermitian sample. *)
Lemma X5_witness :
  stored A_herm
    (permuteRowsCols A_herm Backward P_herm 0 7
       (permuteRowsCols A_herm Forward P_herm 0 7 W_herm)) (1, 0) (0, 0)
  = stored A_herm W_herm (1, 0) (0, 0).
Proof.
  apply X5_permuteRowsCols_round_trip.
  - exact P_herm_valid.
  - split; cbn; lia.
  - split; cbn; lia.
  - reflexivity.
Defined.

(** ** [permuteRowsCols]: the diagonal *)

Lemma in_all_idx (A : MatrixDesc) (a : Z * Z) :
  In a (all_idx A) <-> valid_idx A a.
Proof.
  unfold all_idx, valid_idx. rewrite in_flat_map. split.
  - intros (t & Ht & Ha). apply in_range in Ht.
    apply in_map_iff in Ha as (r & <- & Hr). apply in_range in Hr. cbn. lia.
  - intros [Ht Hr]. exists (fst a). split; [apply in_range; lia|].
    apply in_map_iff. exists (snd a). split; [now destruct a|].
    apply in_range. lia.
Qed.

Lemma NoDup_all_idx (A : MatrixDesc) : NoDup (all_idx A).
Proof.
  unfold all_idx.
  assert (G : forall l, NoDup l ->
            NoDup (flat_map (fun t => map (fun r => (t, r))
                                          (range 0 (tileNb A t))) l)).
  { induction l as [|t l IH]; intros Hnd; cbn; [constructor|].
    inversion Hnd as [|? ? Hnt Hnd']; subst.
    apply NoDup_app.
    - clear. generalize (NoDup_range 0 (tileNb A t)).
      generalize (range 0 (tileNb A t)) as rs.
      induction rs as [|r rs IHr]; intros Hr; cbn; constructor;
        inversion Hr; subst.
      + intros Hin. apply in_map_iff in Hin as (r' & E & Hr').
        injection E as <-. contradiction.
      + auto.
    - now apply IH.
    - intros x Hx Hx'. apply in_map_iff in Hx as (r & <- & _).
      apply in_flat_map in Hx' as (t' & Ht' & Hx').
      apply in_map_iff in Hx' as (r' & E & _). injection E as -> _.
      contradiction. }
  apply G, NoDup_range.
Qed.

Section DiagonalPermuted.
Variable A : MatrixDesc.
Variable P : list Pivot.
Hypothesis HP : valid_pivots A P.

Let sigma (l : list Z) (a : Z * Z) : Z * Z :=
  fold_right (fun i1 x => pivot_swap i1 (pivot_at P i1) x) a l.

Lemma sigma_valid (l : list Z) (a : Z * Z) :
  (forall i, In i l -> 0 <= i < pivot_size P) ->
  valid_idx A a -> valid_idx A (sigma l a).
Proof.
  intros Hl Ha. destruct HP as [Hsize Hp].
  induction l as [|i l IH]; [exact Ha|]. cbn.
  assert (Hi : 0 <= i < pivot_size P) by (apply Hl; now left).
  destruct (Hp i Hi) as [Ht Ho].
  apply pivot_swap_valid; auto; [lia|].
  apply IH. intros; apply Hl; now right.
Qed.

Lemma sigma_rev_left (l : list Z) (a : Z * Z) :
  sigma (rev l) (sigma l a) = a.
Proof.
  pose proof (fold_right_undo
                (fun i1 x => pivot_swap i1 (pivot_at P i1) x) (rev l)
                (fun i y => pivot_swap_involutive i (pivot_at P i) y) a) as E.
  rewrite rev_involutive in E. exact E.
Qed.

Lemma sigma_rev_right (l : list Z) (a : Z * Z) :
  sigma l (sigma (rev l) a) = a.
Proof.
  unfold sigma.
  apply (fold_right_undo (fun i1 x => pivot_swap i1 (pivot_at P i1) x)).
  intros; apply pivot_swap_involutive.
Qed.

Lemma sigma_permutes (l : list Z) :
  (forall i, In i l -> 0 <= i < pivot_size P) ->
  Permutation (map (sigma l) (all_idx A)) (all_idx A).
Proof.
  intros Hl.
  assert (Hl' : forall i, In i (rev l) -> 0 <= i < pivot_size P)
    by (intros i Hi; apply Hl; now apply in_rev).
  apply NoDup_Permutation.
  - assert (G : forall xs, NoDup xs -> NoDup (map (sigma l) xs)).
    { induction xs as [|x xs IH]; intros Hnd; cbn; constructor;
        inversion Hnd; subst.
      - intros Hin. apply in_map_iff in Hin as (y & E & Hy).
        assert (y = x)
          by (rewrite <- (sigma_rev_left l y), E; apply sigma_rev_left).
        subst. contradiction.
      - auto. }
    apply G, NoDup_all_idx.
  - apply NoDup_all_idx.
  - intros x. rewrite in_map_iff, in_all_idx. split.
    + intros (y & <- & Hy). apply in_all_idx in Hy. now apply sigma_valid.
    + intros Hx. exists (sigma (rev l) x). split; [apply sigma_rev_right|].
      apply in_all_idx. now apply sigma_valid.
Qed.

End DiagonalPermuted.

(** X6: [permuteRowsCols] permutes the diagonal.  With pivot entries
    that point into the matrix, the diagonal entries after the call are
    those before the call in another order: a diagonal entry is never
    lost, duplicated or changed, in either direction. *)
Theorem X6_permuteRowsCols_diagonal {T : Type} `{Scalar T}
    (A : MatrixDesc) (direction : Direction) (P : list Pivot)
    (priority tag : Z) (W : World T) :
  valid_pivots A P ->
  Permutation (diagonal A (permuteRowsCols A direction P priority tag W))
              (diagonal A W).
Proof.
  intros HP. unfold diagonal.
  assert (Hin : forall i, In i (pivot_order direction (pivot_size P)) ->
                          0 <= i < pivot_size P)
    by (intros i; unfold pivot_size; apply pivot_order_in).
  assert (E : map (fun a => stored A (permuteRowsCols A direction P priority
                                        tag W) a a) (all_idx A)
              = map (fun a => stored A W a a)
                    (map (pivot_perm direction P) (all_idx A))).
  { rewrite map_map. apply map_ext_in. intros a Ha. apply in_all_idx in Ha.
    pose proof (pivots_herm A P tag (pivot_order direction (pivot_size P)) HP
                  Hin W a a Ha Ha) as [_ E].
    cbv zeta in E. unfold herm in E.
    assert (L : forall x : Z * Z, idx_le x x = true).
    { intros x. unfold idx_le. now rewrite Z.eqb_refl, Z.leb_refl, orb_true_r. }
    rewrite !L in E. exact E. }
  rewrite E. apply Permutation_map.
  apply (sigma_permutes A P HP (pivot_order direction (pivot_size P)) Hin).
Qed.

(** X6 on the Hermitian sample, pivoting Forward. *)
Lemma X6_witness :
  Permutation
    (diagonal A_herm (permuteRowsCols A_herm Forward P_herm 0 7 W_herm))
    (diagonal A_herm W_herm).
Proof.
  apply X6_permuteRowsCols_diagonal. exact P_herm_valid.
Defined.

Lemma Pivot_eqb_eq (p q : Pivot) : Pivot_eqb p q = true <-> p = q.
Proof.
  destruct p as [a b], q as [c d]. unfold Pivot_eqb. cbn.
  rewrite andb_true_iff, !Z.eqb_eq. split.
  - intros [-> ->]. reflexivity.
  - intros E. injection E. auto.
Qed.

Lemma Pivot_eqb_refl (p : Pivot) : Pivot_eqb p p = true.
Proof. now apply Pivot_eqb_eq. Qed.

Lemma Pivot_eqb_neq (p q : Pivot) : Pivot_eqb p q = false <-> p <> q.
Proof.
  split.
  - intros E N. apply Pivot_eqb_eq in N. congruence.
  - intros N. destruct (Pivot_eqb p q) eqn:E; [|reflexivity].
    apply Pivot_eqb_eq in E. contradiction.
Qed.

Lemma Pivot_eqb_spec (p q : Pivot) : reflect (p = q) (Pivot_eqb p q).
Proof.
  destruct (Pivot_eqb p q) eqn:E; constructor.
  - now apply Pivot_eqb_eq.
  - now apply Pivot_eqb_neq.
Qed.

Lemma Pivot_eqb_sym (p q : Pivot) : Pivot_eqb p q = Pivot_eqb q p.
Proof.
  unfold Pivot_eqb. now rewrite (Z.eqb_sym (tileIndex p)),
    (Z.eqb_sym (elementOffset p)).
Qed.

Lemma pm_find_assign (k v k' : Pivot) (m : PivotMap) :
  pm_find k' (pm_assign k v m)
  = if Pivot_eqb k' k then Some v else pm_find k' m.
Proof.
  induction m as [|[k0 v0] m IH]; cbn.
  - destruct (Pivot_eqb k' k); reflexivity.
  - destruct (Pivot_eqb k k0) eqn:E; cbn.
    + apply Pivot_eqb_eq in E. subst k0.
      destruct (Pivot_eqb k' k); reflexivity.
    + destruct (Pivot_eqb k' k0) eqn:E0; [|exact IH].
      destruct (Pivot_eqb k' k) eqn:E1; [|reflexivity].
      apply Pivot_eqb_eq in E0, E1. subst. now rewrite Pivot_eqb_refl in E.
Qed.

Section MakeParallelPivotFacts.
Variable default_pivot : Pivot.
Variable pivot : list Pivot.

Lemma pm_find_swap (a b va vb k : Pivot) (m : PivotMap) :
  pm_find a m = Some va -> pm_find b m = Some vb -> a <> b ->
  pm_find k (pm_swap default_pivot a b m)
  = if Pivot_eqb k a then Some vb
    else if Pivot_eqb k b then Some va else pm_find k m.
Proof.
  intros Ha Hb Hab. unfold pm_swap, pm_at. rewrite Ha, Hb.
  apply Pivot_eqb_neq in Hab. rewrite Hab.
  now rewrite !pm_find_assign.
Qed.

Lemma pm_find_rows_step (i : Z) (m : PivotMap) (k : Pivot) :
  pm_find k (if negb (Pivot_eqb (pivot_at pivot i) (mkPivot 0 i))
             then pm_assign (pivot_at pivot i) (pivot_at pivot i)
                    (pm_assign (mkPivot 0 i) (mkPivot 0 i) m)
             else m)
  = if negb (Pivot_eqb (pivot_at pivot i) (mkPivot 0 i))
       && (Pivot_eqb k (pivot_at pivot i) || Pivot_eqb k (mkPivot 0 i))
    then Some k else pm_find k m.
Proof.
  destruct (Pivot_eqb (pivot_at pivot i) (mkPivot 0 i)); cbn; [reflexivity|].
  rewrite !pm_find_assign.
  destruct (Pivot_eqb k (pivot_at pivot i)) eqn:E1.
  - apply Pivot_eqb_eq in E1. now subst.
  - destruct (Pivot_eqb k (mkPivot 0 i)) eqn:E2; [|reflexivity].
    apply Pivot_eqb_eq in E2. now subst.
Qed.

Lemma pm_find_rows_keep (order : list Z) : forall (m : PivotMap) (k : Pivot),
  pm_find k m = Some k -> pm_find k (pivot_map_rows pivot order m) = Some k.
Proof.
  unfold pivot_map_rows. induction order as [|i l IH]; intros m k Hk;
    cbn [fold_left]; [exact Hk|].
  apply IH. rewrite pm_find_rows_step. now destruct (_ && _).
Qed.

Lemma pm_find_rows (order : list Z) : forall (m : PivotMap) (k : Pivot),
  (participates pivot order k ->
   pm_find k (pivot_map_rows pivot order m) = Some k)
  /\ (~ participates pivot order k ->
      pm_find k (pivot_map_rows pivot order m) = pm_find k m).
Proof.
  induction order as [|i l IH]; intros m k.
  - split; [intros (i & [] & _)|reflexivity].
  - change (pivot_map_rows pivot (i :: l) m)
      with (pivot_map_rows pivot l
              (if negb (Pivot_eqb (pivot_at pivot i) (mkPivot 0 i))
               then pm_assign (pivot_at pivot i) (pivot_at pivot i)
                      (pm_assign (mkPivot 0 i) (mkPivot 0 i) m)
               else m)).
    set (m1 := if negb (Pivot_eqb (pivot_at pivot i) (mkPivot 0 i))
               then _ else m).
    pose proof (pm_find_rows_step i m k) as Hm1. fold m1 in Hm1.
    destruct (IH m1 k) as [IH1 IH2].
    destruct (negb (Pivot_eqb (pivot_at pivot i) (mkPivot 0 i))
              && (Pivot_eqb k (pivot_at pivot i)
                  || Pivot_eqb k (mkPivot 0 i))) eqn:Ei.
    + split.
      * intros _. now apply pm_find_rows_keep.
      * intros Hn. exfalso. apply Hn.
        apply andb_true_iff in Ei as [Hne Hk].
        apply negb_true_iff, Pivot_eqb_neq in Hne.
        exists i. split; [now left|]. split; [exact Hne|].
        apply orb_true_iff in Hk as [Hk|Hk]; apply Pivot_eqb_eq in Hk; auto.
    + split.
      * intros (i0 & [<-|Hin] & Hne & Hk).
        -- exfalso. apply andb_false_iff in Ei as [Ei|Ei].
           ++ apply negb_false_iff, Pivot_eqb_eq in Ei. contradiction.
           ++ apply orb_false_iff in Ei as [E1 E2].
              apply Pivot_eqb_neq in E1, E2. destruct Hk; contradiction.
        -- apply IH1. exists i0. auto.
      * intros Hn. rewrite IH2, Hm1; [reflexivity|].
        intros (i0 & Hin & Hne & Hk). apply Hn. exists i0.
        split; [now right|auto].
Qed.

(** The swaps of the second loop, on a map that holds every
    participating row: the map and the serially pivoted rows stay in
    step. *)
Lemma pivot_map_swaps_spec {X} (f : Pivot -> X) (order : list Z) :
  forall (m : PivotMap) (g : Pivot -> X) (K : Pivot -> Prop),
    (forall k, participates pivot order k -> K k) ->
    (forall k, K k -> exists s, pm_find k m = Some s /\ K s /\ g k = f s) ->
    (forall k, ~ K k -> g k = f k) ->
    (forall k k' s, K k -> K k' -> pm_find k m = Some s ->
                    pm_find k' m = Some s -> k = k') ->
    let m' := pivot_map_swaps default_pivot pivot order m in
    let g' := serial_pivoting pivot order g in
    (forall k, K k -> exists s, pm_find k m' = Some s /\ K s /\ g' k = f s)
    /\ (forall k, ~ K k -> g' k = f k /\ pm_find k m' = pm_find k m)
    /\ (forall k k' s, K k -> K k' -> pm_find k m' = Some s ->
                       pm_find k' m' = Some s -> k = k').
Proof.
  induction order as [|i l IH]; intros m g K Hpart Hin Hout Hinj; cbn zeta.
  - split; [exact Hin|]. split; [|exact Hinj].
    intros k Hk. split; [now apply Hout|reflexivity].
  - unfold pivot_map_swaps, serial_pivoting. cbn [fold_left].
    set (a := pivot_at pivot i). set (b := mkPivot 0 i).
    destruct (Pivot_eqb a b) eqn:Eab; cbn [negb].
    + (* nothing to swap: the interchange is of a row with itself *)
      apply Pivot_eqb_eq in Eab.
      assert (Hg : forall r, interchange b a g r = g r).
      { intros r. unfold interchange. rewrite Eab.
        destruct (Pivot_eqb r b) eqn:E; [|reflexivity].
        apply Pivot_eqb_eq in E. now subst. }
      specialize (IH m (interchange b a g) K).
      cbn zeta in IH. unfold pivot_map_swaps, serial_pivoting in IH.
      apply IH.
      * intros k (i0 & Hi0 & Hne & Hk). apply Hpart. exists i0.
        split; [now right|auto].
      * intros k Hk. destruct (Hin k Hk) as (s & Hs & HKs & Hgs).
        exists s. rewrite Hg. auto.
      * intros k Hk. rewrite Hg. now apply Hout.
      * exact Hinj.
    + apply Pivot_eqb_neq in Eab.
      assert (Ka : K a).
      { apply Hpart. exists i. split; [now left|]. split; [exact Eab|now right]. }
      assert (Kb : K b).
      { apply Hpart. exists i. split; [now left|]. split; [exact Eab|now left]. }
      destruct (Hin a Ka) as (sa & Hsa & HKsa & Hga).
      destruct (Hin b Kb) as (sb & Hsb & HKsb & Hgb).
      pose proof (fun k => pm_find_swap a b sa sb k m Hsa Hsb Eab) as Hsw.
      specialize (IH (pm_swap default_pivot a b m) (interchange b a g) K).
      cbn zeta in IH. unfold pivot_map_swaps, serial_pivoting in IH.
      destruct IH as (I1 & I2 & I3).
      * intros k (i0 & Hi0 & Hne & Hk). apply Hpart. exists i0.
        split; [now right|auto].
      * intros k Hk. rewrite Hsw. unfold interchange.
        destruct (Pivot_eqb k a) eqn:E1.
        -- apply Pivot_eqb_eq in E1. subst k.
           apply Pivot_eqb_neq in Eab. rewrite Eab.
           exists sb. auto.
        -- destruct (Pivot_eqb k b) eqn:E2.
           ++ exists sa. auto.
           ++ apply Hin, Hk.
      * intros k Hk. unfold interchange.
        destruct (Pivot_eqb k b) eqn:E2;
          [apply Pivot_eqb_eq in E2; subst; contradiction|].
        destruct (Pivot_eqb k a) eqn:E1;
          [apply Pivot_eqb_eq in E1; subst; contradiction|].
        now apply Hout.
      * intros k k' s Hk Hk'. rewrite !Hsw.
        destruct (Pivot_eqb_spec k a) as [E1|E1];
          destruct (Pivot_eqb_spec k' a) as [E1'|E1']; subst.
        -- reflexivity.
        -- destruct (Pivot_eqb_spec k' b) as [E2'|E2'].
           ++ intros F1 F2. exfalso. apply Eab.
              apply (Hinj _ _ s Ka Kb); congruence.
           ++ intros F1 F2. exfalso. apply E2'.
              apply (Hinj _ _ s Hk' Kb); congruence.
        -- destruct (Pivot_eqb_spec k b) as [E2|E2].
           ++ intros F1 F2. exfalso. apply Eab.
              apply (Hinj _ _ s Ka Kb); congruence.
           ++ intros F1 F2. exfalso. apply E2.
              apply (Hinj _ _ s Hk Kb); congruence.
        -- destruct (Pivot_eqb_spec k b) as [E2|E2];
             destruct (Pivot_eqb_spec k' b) as [E2'|E2']; subst.
           ++ reflexivity.
           ++ intros F1 F2. exfalso. apply E1'.
              apply (Hinj _ _ s Hk' Ka); congruence.
           ++ intros F1 F2. exfalso. apply E1.
              apply (Hinj _ _ s Hk Ka); congruence.
           ++ apply Hinj; auto.
      * split; [exact I1|]. split; [|exact I3].
        intros k Hk. destruct (I2 k Hk) as [G F]. split; [exact G|].
        rewrite F, Hsw.
        destruct (Pivot_eqb k a) eqn:E1;
          [apply Pivot_eqb_eq in E1; subst; contradiction|].
        destruct (Pivot_eqb k b) eqn:E2;
          [apply Pivot_eqb_eq in E2; subst; contradiction|reflexivity].
Qed.

End MakeParallelPivotFacts.

(** X7: [makeParallelPivot] turns the serial pivot vector into the map
    of out-of-place pivoting.  A row [k] takes part when it is [(0, i)]
    or [pivot[i]] for an entry with [pivot[i] != (0, i)].  After the
    call, whatever the map held before, every row [k] that takes part
    has an entry [pivot_map[k] = s], [s] takes part too, and serial
    pivoting of any row contents [f] leaves at [k] what [f] had at [s];
    a row that takes no part keeps its entry (or stays absent) and is
    not moved by serial pivoting; and two rows that take part never have
    the same entry. *)
Theorem X7_makeParallelPivot_is_serial_pivoting {X : Type}
    (default_pivot : Pivot) (direction : Direction) (pivot : list Pivot)
    (pivot_map : PivotMap) (f : Pivot -> X) :
  let order := pivot_order direction (pivot_size pivot) in
  let m' := makeParallelPivot default_pivot direction pivot pivot_map in
  let f' := serial_pivoting pivot order f in
  (forall k, participates pivot order k ->
     exists s, pm_find k m' = Some s /\ participates pivot order s
               /\ f' k = f s)
  /\ (forall k, ~ participates pivot order k ->
        f' k = f k /\ pm_find k m' = pm_find k pivot_map)
  /\ (forall k k' s, participates pivot order k ->
        participates pivot order k' ->
        pm_find k m' = Some s -> pm_find k' m' = Some s -> k = k').
Proof.
  intros order m' f'. unfold m', makeParallelPivot. fold order.
  pose proof (pm_find_rows pivot order pivot_map) as Hrows.
  destruct (pivot_map_swaps_spec default_pivot pivot f order
              (pivot_map_rows pivot order pivot_map) f
              (participates pivot order)) as (S1 & S2 & S3).
  - auto.
  - intros k Hk. exists k. split; [now apply Hrows|auto].
  - reflexivity.
  - intros k k' s Hk Hk' F1 F2.
    rewrite (proj1 (Hrows k) Hk) in F1. rewrite (proj1 (Hrows k') Hk') in F2.
    congruence.
  - split; [exact S1|]. split; [|exact S3].
    intros k Hk. destruct (S2 k Hk) as [G F]. split; [exact G|].
    rewrite F. now apply Hrows.
Qed.

(** A LAPACK-style pivot vector of three rows of tile 0, applied
    forward: 0 <-> 2, then 1 <-> 2. *)
Example makeParallelPivot_example :
  makeParallelPivot (mkPivot 7 7) Forward
    [mkPivot 0 2; mkPivot 0 2; mkPivot 0 2] []
  = [(mkPivot 0 0, mkPivot 0 2); (mkPivot 0 2, mkPivot 0 1);
     (mkPivot 0 1, mkPivot 0 0)].
Proof. vm_compute. reflexivity. Qed.

(** ** [geqrf]: the [depend] clauses order every conflicting pair *)

Lemma task_lt_trans (a b c : Task) : task_lt a b -> task_lt b c -> task_lt a c.
Proof.
  unfold task_lt, key_lt.
  destruct (task_key a) as [[a1 a2] a3], (task_key b) as [[b1 b2] b3],
    (task_key c) as [[c1 c2] c3]. lia.
Qed.

Lemma task_lt_irrefl (a : Task) : ~ task_lt a a.
Proof.
  unfold task_lt, key_lt. destruct (task_key a) as [[a1 a2] a3]. lia.
Qed.

Lemma StronglySorted_app {X} (R : X -> X -> Prop) (l1 l2 : list X) :
  StronglySorted R l1 -> StronglySorted R l2 ->
  (forall a b, In a l1 -> In b l2 -> R a b) ->
  StronglySorted R (l1 ++ l2).
Proof.
  intros H1 H2 H12. induction l1 as [|x l1 IH]; [exact H2|].
  cbn. inversion H1 as [|? ? Hs Hf]; subst. constructor.
  - apply IH; [exact Hs|]. intros a b Ha Hb. apply H12; [now right|exact Hb].
  - apply Forall_app. split; [exact Hf|].
    apply Forall_forall. intros b Hb. apply H12; [now left|exact Hb].
Qed.

Lemma StronglySorted_flat_map {X Y} (S : X -> X -> Prop) (R : Y -> Y -> Prop)
    (f : X -> list Y) (l : list X) :
  StronglySorted S l ->
  (forall x, In x l -> StronglySorted R (f x)) ->
  (forall x y a b, In x l -> In y l -> S x y -> In a (f x) -> In b (f y) ->
                   R a b) ->
  StronglySorted R (flat_map f l).
Proof.
  intros Hl Hf Hxy. induction l as [|x l IH]; [constructor|].
  cbn. inversion Hl as [|? ? Hs Hfa]; subst.
  apply StronglySorted_app.
  - apply Hf. now left.
  - apply IH; [exact Hs| |].
    + intros; apply Hf; now right.
    + intros x0 y a b Hx0 Hy. apply Hxy; now right.
  - intros a b Ha Hb. apply in_flat_map in Hb as (y & Hy & Hb).
    apply (Hxy x y a b); auto; [now left|now right|].
    rewrite Forall_forall in Hfa. now apply Hfa.
Qed.

Lemma StronglySorted_range (lo hi : Z) : StronglySorted Z.lt (range lo hi).
Proof.
  unfold range. generalize (Z.to_nat (hi - lo)) as n.
  intros n. generalize 0%nat as s. induction n as [|n IH]; intros s; cbn.
  - constructor.
  - constructor; [apply IH|].
    apply Forall_forall. intros x Hx.
    apply in_map_iff in Hx as (k & <- & Hk). apply in_seq in Hk. lia.
Qed.

Lemma StronglySorted_map {X Y} (S : X -> X -> Prop) (R : Y -> Y -> Prop)
    (f : X -> Y) (l : list X) :
  (forall x y, S x y -> R (f x) (f y)) ->
  StronglySorted S l -> StronglySorted R (map f l).
Proof.
  intros Hf. induction 1 as [|x l Hs IH Hfa]; cbn; constructor; auto.
  rewrite Forall_forall in *. intros y Hy.
  apply in_map_iff in Hy as (x' & <- & Hx'). auto.
Qed.

(** The tasks of step [k], one by one. *)
Lemma in_geqrf_step_tasks (L A_nt k : Z) (t : Task) :
  In t (geqrf_step_tasks L A_nt k) <->
  t = panel_task k
  \/ (exists j, k + 1 <= j < Z.min (k + 1 + L) A_nt /\ t = lookahead_task k j)
  \/ (k + 1 + L < A_nt /\ t = trailing_task L A_nt k)
  \/ t = cleanup_task k.
Proof.
  unfold geqrf_step_tasks. rewrite !in_app_iff, in_map_iff. cbn [In].
  unfold panel_task, lookahead_task, trailing_task, cleanup_task,
    default_priority.
  split.
  - intros [[E|[]]|[(j & E & Hj)|[Ht|[E|[]]]]]; auto.
    + right; left. exists j. apply in_range in Hj. auto.
    + destruct (Z.ltb_spec (k + 1 + L) A_nt); [|destruct Ht].
      destruct Ht as [E|[]]. right; right; left. auto.
  - intros [E|[(j & Hj & E)|[[Ht E]|E]]]; auto.
    + right; left. exists j. split; [auto|]. now apply in_range.
    + right; right; left.
      destruct (Z.ltb_spec (k + 1 + L) A_nt); [now left|lia].
Qed.

Lemma in_geqrf_tasks (L A_mt A_nt : Z) (t : Task) :
  In t (geqrf_tasks L A_mt A_nt) <->
  exists k, 0 <= k < Z.min A_mt A_nt /\ In t (geqrf_step_tasks L A_nt k).
Proof.
  unfold geqrf_tasks. rewrite in_flat_map.
  split; intros (k & Hk & Ht); exists k; split; auto; now apply in_range.
Qed.

Lemma geqrf_step_sorted (L A_nt k : Z) :
  StronglySorted task_lt (geqrf_step_tasks L A_nt k).
Proof.
  unfold geqrf_step_tasks.
  apply StronglySorted_app; [repeat constructor| |].
  - apply StronglySorted_app.
    + apply (StronglySorted_map Z.lt); [|apply StronglySorted_range].
      intros x y Hxy. unfold task_lt, key_lt. cbn. lia.
    + apply StronglySorted_app.
      * destruct (_ <? _); repeat constructor.
      * repeat constructor.
      * intros a b Ha Hb. destruct (_ <? _); [|destruct Ha].
        destruct Ha as [<-|[]], Hb as [<-|[]].
        unfold task_lt, key_lt, default_priority. cbn. lia.
    + intros a b Ha Hb. apply in_map_iff in Ha as (j & <- & _).
      apply in_app_iff in Hb as [Hb|[<-|[]]].
      * destruct (_ <? _); [|destruct Hb]. destruct Hb as [<-|[]].
        unfold task_lt, key_lt. cbn. lia.
      * unfold task_lt, key_lt. cbn. lia.
  - intros a b [<-|[]] Hb.
    apply in_app_iff in Hb as [Hb|Hb].
    + apply in_map_iff in Hb as (j & <- & _). unfold task_lt, key_lt. cbn. lia.
    + apply in_app_iff in Hb as [Hb|[<-|[]]].
      * destruct (_ <? _); [|destruct Hb]. destruct Hb as [<-|[]].
        unfold task_lt, key_lt. cbn. lia.
      * unfold task_lt, key_lt. cbn. lia.
Qed.

Lemma geqrf_step_task_step (L A_nt k : Z) (t : Task) :
  In t (geqrf_step_tasks L A_nt k) -> t_step t = k.
Proof.
  rewrite in_geqrf_step_tasks.
  intros [ -> | [(j & _ & ->) | [[_ ->] | -> ]]]; reflexivity.
Qed.

Lemma geqrf_tasks_sorted (L A_mt A_nt : Z) :
  StronglySorted task_lt (geqrf_tasks L A_mt A_nt).
Proof.
  unfold geqrf_tasks.
  apply (StronglySorted_flat_map Z.lt).
  - apply StronglySorted_range.
  - intros; apply geqrf_step_sorted.
  - intros x y a b _ _ Hxy Ha Hb.
    apply geqrf_step_task_step in Ha, Hb.
    unfold task_lt, key_lt.
    destruct (task_key a) as [[a1 a2] a3] eqn:Ka,
             (task_key b) as [[b1 b2] b3] eqn:Kb.
    assert (a1 = x) by (unfold task_key in Ka; destruct (t_kind a);
                        injection Ka; intros; lia).
    assert (b1 = y) by (unfold task_key in Kb; destruct (t_kind b);
                        injection Kb; intros; lia).
    lia.
Qed.

(** In a sorted list, the part between two elements holds everything
    that lies between them. *)
Lemma sorted_split {X} (R : X -> X -> Prop) (l pre mid post : list X)
    (a b : X) :
  (forall x, ~ R x x) -> (forall x y z, R x y -> R y z -> R x z) ->
  StronglySorted R l ->
  l = pre ++ a :: mid ++ b :: post ->
  R a b /\ (forall x, In x l -> R a x -> R x b -> In x mid).
Proof.
  intros Hirr Htr Hs ->.
  assert (Hab : forall l1 l2 x y,
            StronglySorted R (l1 ++ x :: l2) -> In y l2 -> R x y).
  { induction l1 as [|z l1 IH]; intros l2 x y Hs' Hy; cbn in Hs';
      inversion Hs' as [|? ? Hs'' Hf]; subst.
    - rewrite Forall_forall in Hf. auto.
    - eauto. }
  assert (Hba : forall l1 l2 x y,
            StronglySorted R (l1 ++ x :: l2) -> In y l1 -> R y x).
  { induction l1 as [|z l1 IH]; intros l2 x y Hs' Hy; [destruct Hy|].
    cbn in Hs'. inversion Hs' as [|? ? Hs'' Hf]; subst.
    destruct Hy as [->|Hy].
    - rewrite Forall_forall in Hf. apply Hf. apply in_app_iff. right. now left.
    - eauto. }
  split.
  - apply (Hab pre _ a b Hs). apply in_app_iff. right. now left.
  - intros x Hx Hax Hxb.
    apply in_app_iff in Hx as [Hx|[<-|Hx]].
    + exfalso. apply (Hirr x). apply (Htr x a x); [|exact Hax].
      apply (Hba pre _ a x Hs Hx).
    + exfalso. now apply (Hirr a).
    + apply in_app_iff in Hx as [Hx|[<-|Hx]]; [exact Hx| |].
      * exfalso. now apply (Hirr b).
      * exfalso. apply (Hirr x). apply (Htr x b x); [exact Hxb|].
        replace (pre ++ a :: mid ++ b :: post)
          with ((pre ++ a :: mid) ++ b :: post) in Hs
          by (now rewrite <- app_assoc).
        apply (Hab _ _ b x Hs Hx).
Qed.

Lemma must_wait_direct (t1 t2 : Task) (between : list Task) :
  conflicts t1 t2 = true -> must_wait t1 between t2 = true.
Proof. intros E. destruct between; cbn; now rewrite E. Qed.

Lemma must_wait_via (t1 t t2 : Task) (between : list Task) :
  In t between -> conflicts t1 t = true -> conflicts t t2 = true ->
  must_wait t1 between t2 = true.
Proof.
  intros Hin H1 H2. induction between as [|x l IH]; [destruct Hin|].
  cbn [must_wait]. destruct Hin as [->|Hin].
  - rewrite H1, (must_wait_direct t t2 l H2). cbn. apply orb_true_r.
  - rewrite (IH Hin). now rewrite !orb_true_r.
Qed.

Lemma conflicts_intro (t1 t2 : Task) (d1 d2 : Depend) :
  In d1 (t_depend t1) -> In d2 (t_depend t2) ->
  d_block d1 = d_block d2 -> is_inout d1 || is_inout d2 = true ->
  conflicts t1 t2 = true.
Proof.
  intros H1 H2 Hb Hio. unfold conflicts.
  apply existsb_exists. exists d1. split; [exact H1|].
  apply existsb_exists. exists d2. split; [exact H2|].
  now rewrite Hb, Z.eqb_refl, Hio.
Qed.

Ltac pick_dep :=
  cbn; ((left; reflexivity) + (right; left; reflexivity)
        + (right; right; left; reflexivity)).

Ltac direct_conflict :=
  solve [ eapply conflicts_intro; [pick_dep | pick_dep | cbn; lia | reflexivity] ].

Lemma trailing_in_tasks (L A_mt A_nt s : Z) :
  0 <= s < Z.min A_mt A_nt -> s + 1 + L < A_nt ->
  In (trailing_task L A_nt s) (geqrf_tasks L A_mt A_nt).
Proof.
  intros Hs Ht. apply in_geqrf_tasks. exists s. split; [exact Hs|].
  apply in_geqrf_step_tasks. right; right; left. auto.
Qed.

Section DependSufficient.
Variables L A_mt A_nt : Z.
Hypothesis HL : 0 <= L.
Variables (pre between post : list Task) (t1 t2 : Task).
Hypothesis Hsplit :
  geqrf_tasks L A_mt A_nt = pre ++ t1 :: between ++ t2 :: post.

Lemma split_facts :
  In t1 (geqrf_tasks L A_mt A_nt) /\ In t2 (geqrf_tasks L A_mt A_nt)
  /\ task_lt t1 t2
  /\ (forall x, In x (geqrf_tasks L A_mt A_nt) ->
                task_lt t1 x -> task_lt x t2 -> In x between).
Proof.
  destruct (sorted_split task_lt _ pre between post t1 t2
              task_lt_irrefl task_lt_trans
              (geqrf_tasks_sorted L A_mt A_nt) Hsplit) as [Hlt Hmid].
  rewrite Hsplit at 1 2. repeat split; auto.
  - apply in_app_iff. right. now left.
  - apply in_app_iff. right. right. apply in_app_iff. right. now left.
Qed.

(** The trailing task of step [s] stands between [t1] and [t2] and
    passes the wait on. *)
Lemma wait_through_trailing (s : Z) :
  0 <= s < Z.min A_mt A_nt -> s + 1 + L < A_nt ->
  task_lt t1 (trailing_task L A_nt s) ->
  task_lt (trailing_task L A_nt s) t2 ->
  conflicts t1 (trailing_task L A_nt s) = true ->
  conflicts (trailing_task L A_nt s) t2 = true ->
  must_wait t1 between t2 = true.
Proof.
  intros Hs Ht H1 H2 C1 C2.
  destruct split_facts as (_ & _ & _ & Hmid).
  apply (must_wait_via t1 (trailing_task L A_nt s) t2); auto.
  apply Hmid; auto. now apply trailing_in_tasks.
Qed.

Lemma depend_orders_conflicts :
  data_conflict L A_nt t1 t2 -> must_wait t1 between t2 = true.
Proof.
  intros (c & Hc).
  destruct split_facts as (Hin1 & Hin2 & Hlt & _).
  apply in_geqrf_tasks in Hin1 as (k1 & Hk1 & Hin1).
  apply in_geqrf_tasks in Hin2 as (k2 & Hk2 & Hin2).
  apply in_geqrf_step_tasks in Hin1, Hin2.
  unfold task_lt, key_lt in Hlt.
  destruct Hin1 as [E1|[(j1 & Hj1 & E1)|[[Ht1 E1]|E1]]];
  destruct Hin2 as [E2|[(j2 & Hj2 & E2)|[[Ht2 E2]|E2]]];
    rewrite E1, E2 in Hlt, Hc; cbn in Hlt;
    unfold task_writes, task_reads in Hc; cbn in Hc;
    rewrite ?andb_true_iff, ?Z.eqb_eq, ?Z.leb_le, ?Z.ltb_lt in Hc;
    repeat match goal with
           | H : _ \/ _ |- _ => destruct H
           | H : _ /\ _ |- _ => destruct H
           end;
    try discriminate; try lia;
    try (apply must_wait_direct; rewrite E1, E2; direct_conflict).
  all: destruct (Z.eq_dec (c - 1 - L) k1) as [Es|Es];
    [ apply must_wait_direct; rewrite E1, E2;
      eapply conflicts_intro;
        [ cbn; right; left; reflexivity | pick_dep | cbn; lia | reflexivity ]
    | apply (wait_through_trailing (c - 1 - L));
      [ lia | lia
      | unfold task_lt, key_lt; rewrite E1; cbn; lia
      | unfold task_lt, key_lt; rewrite E2; cbn; lia
      | rewrite E1; direct_conflict
      | rewrite E2; eapply conflicts_intro;
          [ cbn; right; left; reflexivity | pick_dep | cbn; lia
          | reflexivity ] ] ].
Qed.

End DependSufficient.

(** X8: the [depend] clauses of [geqrf] order every pair of tasks that
    work on a common block column when one of them writes it.  The
    panel task of step [k] writes column [k]; the update of column [j]
    reads [k] and writes [j]; the trailing update reads [k] and writes
    [k+1+L .. nt-1], though its clauses name only [block[k+1+L]] and
    [block[nt-1]]; the release task works on column [k].  For every
    lookahead [L >= 0] and every [mt], [nt], the later task of such a
    pair must wait for the earlier one, directly or through tasks
    emitted between the two. *)
Theorem X8_geqrf_depend_orders_conflicts (L A_mt A_nt : Z)
    (pre between post : list Task) (t1 t2 : Task) :
  0 <= L ->
  geqrf_tasks L A_mt A_nt = pre ++ t1 :: between ++ t2 :: post ->
  data_conflict L A_nt t1 t2 ->
  must_wait t1 between t2 = true.
Proof.
  intros HL Hsplit. eapply depend_orders_conflicts; eassumption.
Qed.

(** X8 with no lookahead on a 4 x 4 tile matrix: the panel of step 2 waits for the trailing update of step 0, which wrote block column 2, through the trailing update of step 1. *)
Lemma X8_witness :
  must_wait (trailing_task 0 4 0)
    [cleanup_task 0; panel_task 1; trailing_task 0 4 1; cleanup_task 1]
    (panel_task 2) = true.
Proof.
  apply (X8_geqrf_depend_orders_conflicts 0 4 4 [panel_task 0]
           [cleanup_task 0; panel_task 1; trailing_task 0 4 1; cleanup_task 1]
           [trailing_task 0 4 2; cleanup_task 2; panel_task 3; cleanup_task 3]).
  - lia.
  - reflexivity.
  - exists 2. left. split; [reflexivity|]. right. reflexivity.
Defined.

(** ** [geqrf]: the panel the device workspace is sized for *)

Section PanelSearchFacts.
Variable A : MatrixDesc.
Variable tileDevice : Z -> Z -> Z.
Variable me : Z.

Lemma panel_search_rows (j : Z) (l : list Z) : forall st,
  0 <= j -> first_panel_seen st = -1 \/ first_panel_seen st = j ->
  let st' := fold_left (panel_search_tile A tileDevice me j) l st in
  let rows := filter (fun i => tileIsLocal A me i j) l in
  mlocal st' = mlocal st + Zsum (map (tileMb A) rows)
  /\ (rows = [] -> st' = st)
  /\ (rows <> [] -> first_panel_seen st' = j)
  /\ (0 <= panel_device st -> panel_device st' = panel_device st)
  /\ (forall i0 rest, rows = i0 :: rest -> panel_device st < 0 ->
        0 <= tileDevice i0 j -> panel_device st' = tileDevice i0 j).
Proof.
  unfold Zsum.
  induction l as [|i l IH]; intros st Hj Hst; cbn zeta.
  - cbn. repeat split; auto; try lia; try congruence; try (intros; discriminate).
  - cbn [fold_left filter].
    destruct (tileIsLocal A me i j) eqn:Eloc.
    + set (st1 := panel_search_tile A tileDevice me j st i).
      assert (H1 : first_panel_seen st1 = j
                   /\ mlocal st1 = mlocal st + tileMb A i
                   /\ (0 <= panel_device st ->
                       panel_device st1 = panel_device st)
                   /\ (panel_device st < 0 ->
                       panel_device st1 = tileDevice i j)).
      { unfold st1, panel_search_tile. rewrite Eloc.
        destruct Hst as [E|E]; rewrite E.
        - replace (-1 <? 0) with true by reflexivity. cbn.
          rewrite Z.eqb_refl.
          destruct (Z.ltb_spec (panel_device st) 0); cbn;
            repeat split; auto; lia.
        - destruct (Z.ltb_spec j 0); [lia|]. rewrite E, Z.eqb_refl.
          destruct (Z.ltb_spec (panel_device st) 0); cbn;
            repeat split; auto; lia. }
      destruct H1 as (F1 & M1 & D1 & D2).
      destruct (IH st1 Hj (or_intror F1)) as (IM & IE & IF & ID & IH0).
      cbn zeta in *. repeat split.
      * rewrite IM, M1. cbn. lia.
      * intros; discriminate.
      * intros _.
        destruct (filter (fun i0 => tileIsLocal A me i0 j) l) eqn:Ef.
        -- rewrite IE by reflexivity. exact F1.
        -- apply IF. discriminate.
      * intros Hd. rewrite ID by (rewrite D1; auto). now apply D1.
      * intros i0 rest E Hd Hd0. injection E as <- <-.
        rewrite ID by (rewrite D2; auto). now apply D2.
    + replace (panel_search_tile A tileDevice me j st i) with st
        by (unfold panel_search_tile; now rewrite Eloc).
      apply IH; auto.
Qed.

Lemma panel_search_cols_spec (js : list Z) : forall st,
  first_panel_seen st = -1 -> (forall j, In j js -> 0 <= j) ->
  let r := panel_search_cols A tileDevice me js st in
  ((forall j, In j js -> local_rows A me j = []) -> r = st)
  /\ (forall pre j0 post i0 rest,
        js = pre ++ j0 :: post ->
        (forall j, In j pre -> local_rows A me j = []) ->
        local_rows A me j0 = i0 :: rest ->
        first_panel_seen r = j0
        /\ mlocal r = mlocal st + Zsum (map (tileMb A) (i0 :: rest))
        /\ (0 <= panel_device st -> panel_device r = panel_device st)
        /\ (panel_device st < 0 -> 0 <= tileDevice i0 j0 ->
            panel_device r = tileDevice i0 j0)).
Proof.
  induction js as [|j js IH]; intros st Hst Hjs; cbn zeta.
  - split; [reflexivity|]. intros [|? ?] ? ? ? ? E; discriminate.
  - cbn [panel_search_cols].
    assert (Hj : 0 <= j) by (apply Hjs; now left).
    pose proof (panel_search_rows j (range j (mt A)) st Hj (or_introl Hst))
      as (RM & RE & RF & RD & RH).
    cbn zeta in *. fold (local_rows A me j) in *.
    destruct (local_rows A me j) as [|i0 rest] eqn:Erows.
    + rewrite (RE eq_refl).
      replace (first_panel_seen st >=? 0) with false
        by (rewrite Hst; reflexivity).
      destruct (IH st Hst (fun x Hx => Hjs x (or_intror Hx))) as [I1 I2].
      split.
      * intros Hall. apply I1. intros; apply Hall; now right.
      * intros pre j0 post i1 rest1 E Hpre Hrows.
        destruct pre as [|p pre]; cbn in E.
        -- injection E as -> ->. congruence.
        -- injection E as <- ->.
           apply (I2 pre j0 post i1 rest1 eq_refl); auto.
           intros; apply Hpre; now right.
    + assert (F : first_panel_seen
                    (fold_left (panel_search_tile A tileDevice me j)
                               (range j (mt A)) st) = j)
        by (apply RF; discriminate).
      rewrite F. destruct (Z.geb_spec j 0) as [_|]; [|lia].
      split.
      * intros Hall. specialize (Hall j (or_introl eq_refl)). congruence.
      * intros pre j0 post i1 rest1 E Hpre Hrows.
        destruct pre as [|p pre]; cbn in E.
        -- injection E as -> ->.
           rewrite Erows in Hrows. injection Hrows as <- <-.
           repeat split; auto.
           intros Hd Hd0. now apply (RH i0 rest).
        -- injection E as <- ->.
           specialize (Hpre j (or_introl eq_refl)). congruence.
Qed.

End PanelSearchFacts.

(** X9: the panel [geqrf] sizes the device workspace for.  When the
    rank owns no tile on or below the diagonal, the search ends with
    [mlocal = 0], [first_panel_seen = -1] and [panel_device = -1].
    Otherwise [first_panel_seen] is the first block column [j0] in
    which the rank owns such a tile, [mlocal] is the sum of the heights
    of the tiles it owns there, and [panel_device] is the device of the
    top-most of them when that device number is not negative. *)
Theorem X9_geqrf_panel_search (A : MatrixDesc) (tileDevice : Z -> Z -> Z)
    (me : Z) :
  let r := geqrf_panel_search A tileDevice me in
  ((forall j, 0 <= j < nt A -> local_rows A me j = []) ->
   r = mkPanelSearch 0 (-1) (-1))
  /\ (forall j0 i0 rest,
        0 <= j0 < nt A ->
        (forall j, 0 <= j < j0 -> local_rows A me j = []) ->
        local_rows A me j0 = i0 :: rest ->
        first_panel_seen r = j0
        /\ mlocal r = Zsum (map (tileMb A) (i0 :: rest))
        /\ (0 <= tileDevice i0 j0 -> panel_device r = tileDevice i0 j0)).
Proof.
  cbn zeta. unfold geqrf_panel_search.
  destruct (panel_search_cols_spec A tileDevice me (range 0 (nt A))
              (mkPanelSearch 0 (-1) (-1)) eq_refl) as [S1 S2].
  { intros j Hj. apply in_range in Hj. lia. }
  split.
  - intros Hall. apply S1. intros j Hj. apply Hall. now apply in_range.
  - intros j0 i0 rest Hj0 Hpre Hrows.
    destruct (S2 (range 0 j0) j0 (range (j0 + 1) (nt A)) i0 rest)
      as (F & M & _ & D); auto.
    + rewrite (range_app 0 j0 (nt A)) by lia.
      now rewrite (range_cons j0 (nt A)) by lia.
    + intros j Hj. apply Hpre. now apply in_range.
    + repeat split; auto. intros Hd. apply D; [reflexivity|exact Hd].
Qed.

(** ** The [tzset] launchers *)

Lemma tzset_nthreads_range (m : Z) :
  1 <= m -> tzset_nthreads m = Z.min 1024 m /\ 1 <= tzset_nthreads m <= 1024.
Proof.
  intros Hm. unfold tzset_nthreads. rewrite to_int_small by lia. lia.
Qed.

Lemma to_uint_small (z : Z) : 0 <= z < 2 ^ 32 -> to_uint z = z.
Proof.
  intros Hz. unfold to_uint. apply Z.mod_small. lia.
Qed.

Lemma tzset_block_threads (m : Z) :
  1 <= m -> to_uint (tzset_nthreads m) = tzset_nthreads m.
Proof.
  intros Hm. destruct (tzset_nthreads_range m Hm) as [_ HB].
  apply to_uint_small. lia.
Qed.

(** What a block leaves behind, whatever the order of its threads. *)
Lemma tzset_threads_spec {T : Type} (uplo : Uplo) (m n : Z)
    (offdiag_value diag_value : T) (lda blockDim : Z) (tids : list Z)
    (A : Z -> T) :
  0 <= m -> m <= lda -> 0 < blockDim -> m + blockDim <= 2 ^ 31 ->
  (forall tid, In tid tids <-> 0 <= tid < blockDim) ->
  exists A',
    tzset_threads uplo m n offdiag_value diag_value lda (S (Z.to_nat m))
                  blockDim tids A = Some A'
    /\ (forall i j, tz_valid uplo m n i j ->
          A' (i + j * lda) = tz_val offdiag_value diag_value i j)
    /\ (forall q, (forall i j, tz_valid uplo m n i j -> q <> i + j * lda) ->
          A' q = A q).
Proof.
  intros Hm Hlda HB Hfit Htids. unfold tzset_threads.
  destruct (tz_kernel_post uplo m n offdiag_value diag_value lda Hm Hlda A
              blockDim tids (fun _ _ => False) A HB Hfit)
    as (A' & -> & Hg & Hd).
  - intros tid Ht. now apply Htids.
  - split; [now left|]. intros i j _ [].
  - exists A'. split; [reflexivity|]. split.
    + intros i j Hv. apply Hd; [exact Hv|].
      right. apply Htids. apply Z.mod_pos_bound. lia.
    + intros q Hq. destruct (Hg q) as [E|(i & j & Hv & -> & _)]; [exact E|].
      exfalso. now apply (Hq i j).
Qed.

Lemma tzset_kernel_threads {T : Type} (uplo : Uplo) (m n : Z)
    (offdiag_value diag_value : T) (lda : Z) (fuel : nat) (blockDim : Z)
    (A : Z -> T) :
  tzset_kernel uplo m n offdiag_value diag_value lda fuel blockDim A
  = tzset_threads uplo m n offdiag_value diag_value lda fuel blockDim
                  (range 0 blockDim) A.
Proof. reflexivity. Qed.

Lemma tzset_block_spec {T : Type} (uplo : Uplo) (m n : Z)
    (offdiag_value diag_value : T) (lda base : Z) (mem : Z -> T) :
  1 <= m <= 2 ^ 31 - 1024 -> m <= lda ->
  exists mem',
    at_base base
      (tzset_kernel uplo m n offdiag_value diag_value lda (S (Z.to_nat m))
                    (tzset_nthreads m)) mem = Some mem'
    /\ (forall i j, tz_valid uplo m n i j ->
          mem' (base + i + j * lda) = tz_val offdiag_value diag_value i j)
    /\ (forall a,
          (forall i j, tz_valid uplo m n i j -> a <> base + i + j * lda) ->
          mem' a = mem a).
Proof.
  intros Hm Hlda. unfold at_base.
  destruct (tzset_nthreads_range m) as [_ HB]; [lia|].
  destruct (tzset_threads_spec uplo m n offdiag_value diag_value lda
              (tzset_nthreads m) (range 0 (tzset_nthreads m))
              (fun q => mem (base + q)))
    as (A' & E & Hp & Hf); try lia.
  { intros tid. apply in_range. }
  rewrite tzset_kernel_threads, E.
  eexists. split; [reflexivity|]. split.
  - intros i j Hv. cbn.
    replace (base + i + j * lda - base) with (i + j * lda) by lia.
    now apply Hp.
  - intros a Ha. cbn. rewrite Hf.
    + f_equal. lia.
    + intros i j Hv E'. apply (Ha i j Hv). lia.
Qed.

(** X10: the order of the threads of a block does not matter.  No two
    elements of the trapezoid share an address ([lda >= m]), and running
    [tzset_func] for the threads [0 .. blockDim-1] in any order leaves
    the same array as running them in the order of their index. *)
Theorem X10_tzset_thread_order {T : Type} (uplo : Uplo) (m n : Z)
    (offdiag_value diag_value : T) (lda blockDim : Z) (tids : list Z)
    (A : Z -> T) :
  0 <= m -> m <= lda -> 0 < blockDim -> m + blockDim <= 2 ^ 31 ->
  Permutation tids (range 0 blockDim) ->
  (forall i j i' j', tz_valid uplo m n i j -> tz_valid uplo m n i' j' ->
     i + j * lda = i' + j' * lda -> i = i' /\ j = j')
  /\ exists A' A'',
       tzset_threads uplo m n offdiag_value diag_value lda (S (Z.to_nat m))
                     blockDim tids A = Some A'
       /\ tzset_kernel uplo m n offdiag_value diag_value lda (S (Z.to_nat m))
                       blockDim A = Some A''
       /\ forall q, A' q = A'' q.
Proof.
  intros Hm Hlda HB Hfit Hperm. split.
  - intros i j i' j' (Hi & Hj & _) (Hi' & Hj' & _) E.
    apply (tz_addr_inj m lda Hm Hlda i j i' j'); auto; lia.
  - assert (Htids : forall tid, In tid tids <-> 0 <= tid < blockDim).
    { intros tid. rewrite <- (in_range 0 blockDim tid). split; intros Hin.
      - now apply (Permutation_in _ Hperm).
      - now apply (Permutation_in _ (Permutation_sym Hperm)). }
    destruct (tz_kernel_post uplo m n offdiag_value diag_value lda Hm Hlda A
                blockDim tids (fun _ _ => False) A HB Hfit)
      as (A' & E' & Hg' & Hd').
    { intros tid Ht. now apply Htids. }
    { split; [now left|]. intros i j _ []. }
    destruct (tz_kernel_post uplo m n offdiag_value diag_value lda Hm Hlda A
                blockDim (range 0 blockDim) (fun _ _ => False) A HB Hfit)
      as (A'' & E'' & Hg'' & Hd'').
    { intros tid Ht. now apply in_range in Ht. }
    { split; [now left|]. intros i j _ []. }
    exists A', A''. split; [exact E'|]. split; [exact E''|].
    assert (Hin' : forall i, In (i mod blockDim) tids)
      by (intros i; apply Htids, Z.mod_pos_bound; lia).
    assert (Hin'' : forall i, In (i mod blockDim) (range 0 blockDim))
      by (intros i; apply in_range, Z.mod_pos_bound; lia).
    intros q.
    destruct (Hg' q) as [Eq'|(i & j & Hv & -> & Ev)].
    + destruct (Hg'' q) as [Eq''|(i & j & Hv & -> & Ev)]; [congruence|].
      rewrite Ev. apply Hd'; auto.
    + rewrite Ev. symmetry. apply Hd''; auto.
Qed.

(** X10 for a 2 x 2 lower tile and a block of two threads run in the order 1, 0. *)
Lemma X10_witness :
  exists A' A'',
    tzset_threads Lower 2 2 0 1 2 (S (Z.to_nat 2)) 2 [1; 0] (fun _ => 7)
    = Some A'
    /\ tzset_kernel Lower 2 2 0 1 2 (S (Z.to_nat 2)) 2 (fun _ => 7)
       = Some A''
    /\ forall q, A' q = A'' q.
Proof.
  refine (proj2 (X10_tzset_thread_order Lower 2 2 0 1 2 2 [1; 0] (fun _ => 7)
                   _ _ _ _ _)); try lia.
  apply (perm_swap 0 1 []).
Defined.

(** X11: the launcher [tzset].  For [1 <= m <= 2^31 - 1024] and
    [lda >= m] it launches one block of [min(1024, m)] threads; when the
    runtime rejects the launch the assertion fails; otherwise every
    element of the trapezoid of the [m] x [n] array holds [diag_value]
    on the diagonal and [offdiag_value] off it, and every other address
    is as before. *)
Theorem X11_tzset_launch {T : Type} (launch_ok : Z -> Z -> bool) (uplo : Uplo)
    (m n : Z) (offdiag_value diag_value : T) (A : Z -> T) (lda : Z) :
  1 <= m <= 2 ^ 31 - 1024 -> m <= lda ->
  tzset_nthreads m = Z.min 1024 m
  /\ (launch_ok 1 (Z.min 1024 m) = false ->
      tzset launch_ok uplo m n offdiag_value diag_value A lda = None)
  /\ (launch_ok 1 (Z.min 1024 m) = true ->
      exists A',
        tzset launch_ok uplo m n offdiag_value diag_value A lda = Some A'
        /\ (forall i j, 0 <= i < m -> 0 <= j < n -> in_trapezoid uplo i j ->
              A' (i + j * lda) = if i =? j then diag_value else offdiag_value)
        /\ (forall q,
              (forall i j, 0 <= i < m -> 0 <= j < n -> in_trapezoid uplo i j ->
                           q <> i + j * lda) ->
              A' q = A q)).
Proof.
  intros Hm Hlda.
  destruct (tzset_nthreads_range m) as [EB HB]; [lia|].
  split; [exact EB|]. unfold tzset.
  rewrite tzset_block_threads by lia. rewrite (to_uint_small 1) by lia.
  rewrite EB. split.
  - intros ->. reflexivity.
  - intros ->. rewrite <- EB.
    destruct (tzset_threads_spec uplo m n offdiag_value diag_value lda
                (tzset_nthreads m) (range 0 (tzset_nthreads m)) A)
      as (A' & E & Hp & Hf); try lia.
    { intros tid. apply in_range. }
    exists A'. split; [exact E|]. split.
    + intros i j Hi Hj Ht. apply (Hp i j). repeat split; auto; lia.
    + intros q Hq. apply Hf. intros i j (Hi & Hj & Ht). now apply Hq.
Qed.

(** X11 for a 3 x 3 lower tile on a runtime that accepts every launch. *)
Lemma X11_witness :
  exists A',
    tzset (fun _ _ => true) Lower 3 3 0 1 (fun _ => 7) 3 = Some A'
    /\ A' 0 = 1 /\ A' 1 = 0 /\ A' 3 = 7.
Proof.
  destruct (proj2 (proj2 (X11_tzset_launch (fun _ _ => true) Lower 3 3 0 1
                            (fun _ => 7) 3 ltac:(lia) ltac:(lia))) eq_refl)
    as (A' & E & Hin & Hout).
  exists A'. split; [exact E|]. split; [|split].
  - apply (Hin 0 0); cbn; lia.
  - apply (Hin 1 0); cbn; lia.
  - apply Hout. intros i j Hi Hj Ht. cbn in Ht. lia.
Defined.

Section BatchFacts.
Context {T : Type}.
Variable uplo : Uplo.
Variables m n : Z.
Variables offdiag_value diag_value : T.
Variable Aarray : Z -> Z.
Variable lda : Z.
Hypothesis Hm : 1 <= m <= 2 ^ 31 - 1024.
Hypothesis Hlda : m <= lda.

Let block (mem : Z -> T) (k : Z) :=
  at_base (Aarray k)
    (tzset_kernel uplo m n offdiag_value diag_value lda (S (Z.to_nat m))
                  (tzset_nthreads m)) mem.

Lemma tzset_blocks_spec (ks : list Z) :
  NoDup ks ->
  (forall k k' i j i' j', In k ks -> In k' ks ->
     tz_valid uplo m n i j -> tz_valid uplo m n i' j' ->
     Aarray k + i + j * lda = Aarray k' + i' + j' * lda -> k = k') ->
  forall mem,
  exists mem',
    fold_left (fun omem k => match omem with
                             | Some mem => block mem k
                             | None => None
                             end) ks (Some mem) = Some mem'
    /\ (forall k i j, In k ks -> tz_valid uplo m n i j ->
          mem' (Aarray k + i + j * lda)
          = tz_val offdiag_value diag_value i j)
    /\ (forall a,
          (forall k i j, In k ks -> tz_valid uplo m n i j ->
                         a <> Aarray k + i + j * lda) ->
          mem' a = mem a).
Proof.
  induction ks as [|k ks IH]; intros Hnd Hdis mem.
  - exists mem. split; [reflexivity|]. split; [intros ? ? ? []|reflexivity].
  - inversion Hnd as [|? ? Hk Hnd']; subst.
    cbn [fold_left]. unfold block at 2.
    destruct (tzset_block_spec uplo m n offdiag_value diag_value lda
                (Aarray k) mem Hm Hlda) as (mem1 & -> & P1 & F1).
    destruct (IH Hnd') with (mem := mem1) as (mem' & E & P & F).
    { intros k0 k' i j i' j' H0 H'. apply Hdis; now right. }
    exists mem'. split; [exact E|]. split.
    + intros k0 i j [<-|Hin] Hv.
      * rewrite F; [now apply P1|].
        intros k' i' j' Hin' Hv' Eq.
        assert (k = k') by (apply (Hdis k k' i j i' j'); auto;
                            [now left|now right]).
        subst. contradiction.
      * now apply P.
    + intros a Ha. rewrite F.
      * apply F1. intros i j Hv. apply Ha; [now left|exact Hv].
      * intros k0 i j Hin Hv. apply Ha; [now right|exact Hv].
Qed.

End BatchFacts.

(** X12: the batched launcher.  With [batch_count = 0] it returns at
    once and the device memory is as before.  With
    [0 < batch_count < 2^32], [1 <= m <= 2^31 - 1024], [lda >= m], an
    accepted launch and arrays whose trapezoids do not overlap, every
    array [Aarray[k]], [k < batch_count], gets the pattern of the
    trapezoid and every other address is as before. *)
Theorem X12_tzset_batch {T : Type} (launch_ok : Z -> Z -> bool) (uplo : Uplo)
    (m n : Z) (offdiag_value diag_value : T) (Aarray : Z -> Z)
    (lda batch_count : Z) (mem : Z -> T) :
  (batch_count = 0 ->
   tzset_batch launch_ok uplo m n offdiag_value diag_value Aarray lda
               batch_count mem = Some mem)
  /\ (1 <= m <= 2 ^ 31 - 1024 -> m <= lda -> 0 < batch_count < 2 ^ 32 ->
      launch_ok batch_count (Z.min 1024 m) = true ->
      (forall k k' i j i' j',
         0 <= k < batch_count -> 0 <= k' < batch_count ->
         tz_valid uplo m n i j -> tz_valid uplo m n i' j' ->
         Aarray k + i + j * lda = Aarray k' + i' + j' * lda -> k = k') ->
      exists mem',
        tzset_batch launch_ok uplo m n offdiag_value diag_value Aarray lda
                    batch_count mem = Some mem'
        /\ (forall k i j, 0 <= k < batch_count -> tz_valid uplo m n i j ->
              mem' (Aarray k + i + j * lda)
              = tz_val offdiag_value diag_value i j)
        /\ (forall a,
              (forall k i j, 0 <= k < batch_count -> tz_valid uplo m n i j ->
                             a <> Aarray k + i + j * lda) ->
              mem' a = mem a)).
Proof.
  split.
  - intros ->. reflexivity.
  - intros Hm Hlda Hbc Hok Hdis. unfold tzset_batch.
    destruct (Z.eqb_spec batch_count 0); [lia|].
    destruct (tzset_nthreads_range m) as [EB _]; [lia|].
    rewrite tzset_block_threads by lia. rewrite to_uint_small by lia.
    rewrite EB, Hok, <- EB.
    destruct (tzset_blocks_spec uplo m n offdiag_value diag_value Aarray lda
                Hm Hlda (range 0 batch_count) (NoDup_range 0 batch_count))
      with (mem := mem) as (mem' & E & P & F).
    { intros k k' i j i' j' Hk Hk'. apply in_range in Hk, Hk'.
      now apply Hdis. }
    exists mem'. split; [exact E|]. split.
    + intros k i j Hk. apply P. now apply in_range.
    + intros a Ha. apply F. intros k i j Hk. apply Ha.
      now apply in_range in Hk.
Qed.

(** ** [internal::set] *)

Lemma in_trapezoid_rows (A : MatrixDesc) (uplo : Uplo) (i j : Z) :
  0 <= j < nt A ->
  (In i (trapezoid_rows A uplo j) <-> trapezoid_tile A uplo i j).
Proof.
  intros Hj. unfold trapezoid_rows, trapezoid_tile.
  destruct uplo; rewrite in_range; lia.
Qed.

Lemma NoDup_flat_map {X Y} (f : X -> list Y) (l : list X) :
  NoDup l -> (forall x, In x l -> NoDup (f x)) ->
  (forall x x' y, In x l -> In x' l -> In y (f x) -> In y (f x') -> x = x') ->
  NoDup (flat_map f l).
Proof.
  induction l as [|x l IH]; intros Hnd Hf Hdis; cbn; [constructor|].
  inversion Hnd as [|? ? Hx Hnd']; subst.
  apply NoDup_app.
  - apply Hf. now left.
  - apply IH; auto.
    + intros; apply Hf; now right.
    + intros x0 x' y H0 H'. apply Hdis; now right.
  - intros y Hy Hy'. apply in_flat_map in Hy' as (x' & Hx' & Hy').
    assert (x = x') by (apply (Hdis x x' y); auto; [now left|now right]).
    subst. contradiction.
Qed.

Lemma flat_map_comp {X Y Z'} (f : X -> list Y) (g : Y -> list Z')
    (l : list X) :
  flat_map g (flat_map f l) = flat_map (fun x => flat_map g (f x)) l.
Proof.
  induction l as [|x l IH]; cbn; [reflexivity|].
  now rewrite flat_map_app, IH.
Qed.

Lemma NoDup_map_inj {X Y} (f : X -> Y) (l : list X) :
  (forall x y, f x = f y -> x = y) -> NoDup l -> NoDup (map f l).
Proof.
  intros Hinj. induction 1 as [|x l Hx Hnd IH]; cbn; constructor; auto.
  intros Hin. apply in_map_iff in Hin as (y & E & Hy).
  apply Hinj in E. subst. contradiction.
Qed.

Lemma map_flat_map {X Y Z'} (f : X -> list Y) (g : Y -> Z') (l : list X) :
  map g (flat_map f l) = flat_map (fun x => map g (f x)) l.
Proof.
  induction l as [|x l IH]; cbn; [reflexivity|]. now rewrite map_app, IH.
Qed.

Section SetFacts.
Context {T : Type}.
Variable A : MatrixDesc.
Variable uplo : Uplo.
Variable me : Z.
Variable tileDevice : Z -> Z -> Z.
Variable tileStride : Z -> Z -> Z.
Variables offdiag_value diag_value : T.

Let value (i j : Z) : T := if i =? j then diag_value else offdiag_value.

Lemma set_HostTask_writes :
  flat_map set_writes (set_HostTask A uplo me offdiag_value diag_value)
  = flat_map
      (fun j =>
         flat_map
           (fun i => if tileIsLocal A me i j
                     then [(i, j, offdiag_value, value i j)] else [])
           (trapezoid_rows A uplo j))
      (range 0 (nt A)).
Proof.
  unfold set_HostTask. rewrite flat_map_comp.
  apply flat_map_ext. intros j. rewrite flat_map_comp.
  apply flat_map_ext. intros i. unfold value.
  destruct (tileIsLocal A me i j); [|reflexivity].
  destruct (i =? j); reflexivity.
Qed.

Lemma in_set_HostTask_writes (i j : Z) (o d : T) :
  In (i, j, o, d)
     (flat_map set_writes (set_HostTask A uplo me offdiag_value diag_value))
  <-> trapezoid_tile A uplo i j /\ tileIsLocal A me i j = true
      /\ o = offdiag_value /\ d = value i j.
Proof.
  rewrite set_HostTask_writes, in_flat_map. split.
  - intros (j' & Hj' & Hin). apply in_range in Hj'.
    apply in_flat_map in Hin as (i' & Hi' & Hin).
    apply in_trapezoid_rows in Hi'; [|exact Hj'].
    destruct (tileIsLocal A me i' j') eqn:E; [|destruct Hin].
    destruct Hin as [Eq|[]]. injection Eq as -> -> <- <-. auto.
  - intros (Ht & Hl & -> & ->). exists j.
    assert (Hj : 0 <= j < nt A) by (destruct Ht as (_ & ? & _); lia).
    split; [now apply in_range|].
    apply in_flat_map. exists i. split; [now apply in_trapezoid_rows|].
    rewrite Hl. now left.
Qed.

Lemma NoDup_set_HostTask_tiles :
  NoDup (map (fun w : Z * Z * T * T => fst (fst w))
           (flat_map set_writes
              (set_HostTask A uplo me offdiag_value diag_value))).
Proof.
  rewrite set_HostTask_writes, map_flat_map.
  apply NoDup_flat_map.
  - apply NoDup_range.
  - intros j Hj. rewrite map_flat_map.
    apply NoDup_flat_map.
    + unfold trapezoid_rows. destruct uplo; apply NoDup_range.
    + intros i _. destruct (tileIsLocal A me i j); cbn; repeat constructor.
      intros [].
    + intros i i' y _ _ Hy Hy'.
      destruct (tileIsLocal A me i j); [|destruct Hy].
      destruct (tileIsLocal A me i' j); [|destruct Hy'].
      destruct Hy as [<-|[]], Hy' as [E|[]]. cbn in E. now injection E.
  - intros j j' y _ _ Hy Hy'.
    rewrite map_flat_map in Hy, Hy'.
    apply in_flat_map in Hy as (i & _ & Hw), Hy' as (i' & _ & Hw').
    destruct (tileIsLocal A me i j); [|destruct Hw].
    destruct (tileIsLocal A me i' j'); [|destruct Hw'].
    destruct Hw as [<-|[]], Hw' as [E|[]]. cbn in E. now injection E.
Qed.

End SetFacts.

Section SetRegions.
Variable A : MatrixDesc.
Variable uplo : Uplo.
Variable me : Z.
Variable tileDevice : Z -> Z -> Z.
Hypothesis Hmt : 1 <= mt A.
Hypothesis Hnt : 1 <= nt A.

Let in_region (q i j : Z) : Prop :=
  fst (irange A q) <= i < snd (irange A q)
  /\ fst (jrange A q) <= j < snd (jrange A q).

Lemma in_group_tiles (device q : Z) (on_diag : bool) (i j : Z) :
  0 <= q < 4 ->
  (In (i, j) (group_tiles A uplo me tileDevice device q on_diag)
   <-> trapezoid_tile A uplo i j /\ tileIsLocal A me i j = true
       /\ tileDevice i j = device /\ (i =? j) = on_diag /\ in_region q i j).
Proof.
  intros Hq. unfold group_tiles, in_region, trapezoid_tile.
  assert (Hi : irange A q = (0, mt A - 1) \/ irange A q = (mt A - 1, mt A))
    by (unfold irange; destruct (_ || _); auto).
  assert (Hj : jrange A q = (0, nt A - 1) \/ jrange A q = (nt A - 1, nt A))
    by (unfold jrange; destruct (_ || _); auto).
  destruct (irange A q) as [i0 i1], (jrange A q) as [j0 j1]. cbn [fst snd].
  rewrite in_flat_map. split.
  - intros (j' & Hj' & Hin). apply in_range in Hj'.
    apply in_flat_map in Hin as (i' & Hi' & Hin).
    destruct (tileIsLocal A me i' j') eqn:El; cbn in Hin; [|destruct Hin].
    destruct (Z.eqb_spec device (tileDevice i' j')); [|destruct Hin].
    destruct (Bool.eqb (i' =? j') on_diag) eqn:Ed; [|destruct Hin].
    destruct Hin as [E|[]]. injection E as -> ->.
    apply eqb_prop in Ed.
    assert (i0 <= i < i1 /\ (match uplo with Lower => j <= i | _ => i <= j end)).
    { destruct uplo; apply in_range in Hi'; lia. }
    repeat split; auto; try tauto;
      destruct Hi as [E|E], Hj as [E'|E']; injection E; injection E';
        intros; destruct uplo; lia.
  - intros ((Hi' & Hj' & Htr) & Hl & Hd & Hdiag & (Hri & Hrj)).
    exists j. split; [now apply in_range|].
    apply in_flat_map. exists i. split.
    + destruct uplo; apply in_range; lia.
    + rewrite Hl, Hd, Z.eqb_refl, Hdiag, eqb_reflx. now left.
Qed.

Lemma region_unique (q q' i j : Z) :
  0 <= q < 4 -> 0 <= q' < 4 -> in_region q i j -> in_region q' i j -> q = q'.
Proof.
  unfold in_region, irange, jrange. intros Hq Hq'.
  assert (q = 0 \/ q = 1 \/ q = 2 \/ q = 3) as [-> | [-> | [-> | ->]]] by lia;
  assert (q' = 0 \/ q' = 1 \/ q' = 2 \/ q' = 3) as [-> | [-> | [-> | ->]]]
    by lia; cbn; lia.
Qed.

Lemma region_exists (i j : Z) :
  0 <= i < mt A -> 0 <= j < nt A -> exists q, 0 <= q < 4 /\ in_region q i j.
Proof.
  intros Hi Hj. unfold in_region, irange, jrange.
  destruct (Z.ltb_spec i (mt A - 1)); destruct (Z.ltb_spec j (nt A - 1)).
  - exists 0. cbn. lia.
  - exists 2. cbn. lia.
  - exists 1. cbn. lia.
  - exists 3. cbn. lia.
Qed.

Lemma NoDup_group_tiles (device q : Z) (on_diag : bool) :
  NoDup (group_tiles A uplo me tileDevice device q on_diag).
Proof.
  unfold group_tiles.
  destruct (irange A q) as [i0 i1], (jrange A q) as [j0 j1].
  apply NoDup_flat_map.
  - apply NoDup_range.
  - intros j _. apply NoDup_flat_map.
    + destruct uplo; apply NoDup_range.
    + intros i _. destruct (_ && _); [|constructor].
      destruct (Bool.eqb _ _); repeat constructor. intros [].
    + intros i i' y _ _ Hy Hy'.
      destruct (tileIsLocal A me i j && _); [|destruct Hy].
      destruct (Bool.eqb (i =? j) on_diag); [|destruct Hy].
      destruct (tileIsLocal A me i' j && _); [|destruct Hy'].
      destruct (Bool.eqb (i' =? j) on_diag); [|destruct Hy'].
      destruct Hy as [<-|[]], Hy' as [E|[]]. now injection E.
  - intros j j' y _ _ Hy Hy'.
    apply in_flat_map in Hy as (i & _ & Hy), Hy' as (i' & _ & Hy').
    destruct (tileIsLocal A me i j && _); [|destruct Hy].
    destruct (Bool.eqb (i =? j) on_diag); [|destruct Hy].
    destruct (tileIsLocal A me i' j' && _); [|destruct Hy'].
    destruct (Bool.eqb (i' =? j') on_diag); [|destruct Hy'].
    destruct Hy as [<-|[]], Hy' as [E|[]]. now injection E.
Qed.

Lemma in_set_groups (device : Z) (g : Z * bool * list (Z * Z)) :
  In g (set_groups A uplo me tileDevice device) <->
  exists q b, 0 <= q < 4
              /\ g = (q, b, group_tiles A uplo me tileDevice device q b).
Proof.
  unfold set_groups. rewrite in_app_iff, !in_map_iff. split.
  - intros [(q & <- & Hq)|(q & <- & Hq)]; apply in_range in Hq; eauto.
  - intros (q & [|] & Hq & ->); [right|left]; exists q;
      (split; [reflexivity|now apply in_range]).
Qed.

Lemma NoDup_set_groups_tiles (device : Z) :
  NoDup (flat_map (fun g => snd g) (set_groups A uplo me tileDevice device)).
Proof.
  apply NoDup_flat_map.
  - unfold set_groups. apply NoDup_app.
    + apply NoDup_map_inj; [|apply NoDup_range].
      intros q q' E. now injection E.
    + apply NoDup_map_inj; [|apply NoDup_range].
      intros q q' E. now injection E.
    + intros g Hg Hg'. apply in_map_iff in Hg as (q & <- & _).
      apply in_map_iff in Hg' as (q' & E & _). discriminate.
  - intros g Hg. apply in_set_groups in Hg as (q & b & _ & ->).
    apply NoDup_group_tiles.
  - intros g g' [i j] Hg Hg' Hy Hy'.
    apply in_set_groups in Hg as (q & b & Hq & ->).
    apply in_set_groups in Hg' as (q' & b' & Hq' & ->).
    cbn [snd] in Hy, Hy'.
    apply in_group_tiles in Hy as (_ & _ & _ & Eb & Hr); [|exact Hq].
    apply in_group_tiles in Hy' as (_ & _ & _ & Eb' & Hr'); [|exact Hq'].
    assert (q = q') by (apply (region_unique q q' i j); auto).
    congruence.
Qed.

End SetRegions.

Section SetDevicesFacts.
Context {T : Type}.
Variable A : MatrixDesc.
Variable uplo : Uplo.
Variable me : Z.
Variable tileDevice : Z -> Z -> Z.
Variable tileStride : Z -> Z -> Z.
Variables offdiag_value diag_value : T.
Hypothesis Hmt : 1 <= mt A.
Hypothesis Hnt : 1 <= nt A.

Let value (i j : Z) : T := if i =? j then diag_value else offdiag_value.

Lemma in_geset_calls (device : Z) (c : SetCall T) :
  forall groups,
    In c (geset_calls A tileStride offdiag_value diag_value device groups
            (flat_map (fun g => snd g) groups)) <->
    exists q b tiles,
      In (q, b, tiles) groups /\ tiles <> []
      /\ c = device_geset (tileMb A (fst (irange A q)))
               (tileNb A (fst (jrange A q))) offdiag_value
               (if b then diag_value else offdiag_value)
               tiles (group_lda tileStride tiles)
               (Z.of_nat (length tiles)) device.
Proof.
  induction groups as [|[[q b] tiles] rest IH].
  - cbn. split; [intros []|intros (? & ? & ? & [] & _)].
  - cbn [geset_calls flat_map snd].
    destruct tiles as [|t tiles].
    + cbn. rewrite IH. split.
      * intros (q' & b' & ts & Hin & Hne & E). exists q', b', ts. auto.
      * intros (q' & b' & ts & [E|Hin] & Hne & E').
        -- injection E as <- <- <-. contradiction.
        -- exists q', b', ts. auto.
    + replace (Z.of_nat (length (t :: tiles)) >? 0) with true
        by (symmetry; rewrite Z.gtb_ltb; apply Z.ltb_lt; cbn; lia).
      rewrite Nat2Z.id, firstn_app, Nat.sub_diag, firstn_all, skipn_app,
        Nat.sub_diag, skipn_all. cbn [firstn skipn app In].
      rewrite app_nil_r, IH. split.
      * intros [<-|(q' & b' & ts & Hin & Hne & E)].
        -- exists q, b, (t :: tiles). split; [now left|].
           split; [discriminate|reflexivity].
        -- exists q', b', ts. auto.
      * intros (q' & b' & ts & [E|Hin] & Hne & E').
        -- injection E as <- <- <-. now left.
        -- right. exists q', b', ts. auto.
Qed.

Lemma geset_calls_writes (device : Z) : forall groups,
  flat_map set_writes
    (geset_calls A tileStride offdiag_value diag_value device groups
       (flat_map (fun g => snd g) groups))
  = flat_map
      (fun g : Z * bool * list (Z * Z) =>
         map (fun ij => (fst ij, snd ij, offdiag_value,
                         if snd (fst g) then diag_value else offdiag_value))
             (snd g))
      groups.
Proof.
  induction groups as [|[[q b] tiles] rest IH]; [reflexivity|].
  cbn [geset_calls flat_map snd fst].
  destruct tiles as [|t tiles].
  - cbn. exact IH.
  - replace (Z.of_nat (length (t :: tiles)) >? 0) with true
      by (symmetry; rewrite Z.gtb_ltb; apply Z.ltb_lt; cbn; lia).
    rewrite Nat2Z.id, firstn_app, Nat.sub_diag, firstn_all, skipn_app,
      Nat.sub_diag, skipn_all. cbn [firstn skipn app flat_map set_writes].
    rewrite app_nil_r, IH. reflexivity.
Qed.

Lemma set_Devices_task_writes (device : Z) :
  flat_map set_writes
    (set_Devices_task A uplo me tileDevice tileStride offdiag_value
                      diag_value device)
  = flat_map
      (fun g : Z * bool * list (Z * Z) =>
         map (fun ij => (fst ij, snd ij, offdiag_value,
                         if snd (fst g) then diag_value else offdiag_value))
             (snd g))
      (set_groups A uplo me tileDevice device).
Proof.
  unfold set_Devices_task. cbn zeta.
  rewrite !flat_map_app. cbn [flat_map set_writes app].
  now rewrite geset_calls_writes, app_nil_r.
Qed.

Lemma in_set_Devices_task_writes (device i j : Z) (o d : T) :
  In (i, j, o, d)
     (flat_map set_writes
        (set_Devices_task A uplo me tileDevice tileStride offdiag_value
                          diag_value device))
  <-> trapezoid_tile A uplo i j /\ tileIsLocal A me i j = true
      /\ tileDevice i j = device /\ o = offdiag_value /\ d = value i j.
Proof.
  rewrite set_Devices_task_writes, in_flat_map. split.
  - intros (g & Hg & Hin). apply in_set_groups in Hg as (q & b & Hq & ->).
    cbn [fst snd] in Hin. apply in_map_iff in Hin as ([i' j'] & E & Hin).
    cbn in E. injection E as -> -> <- <-.
    apply in_group_tiles in Hin; auto.
    destruct Hin as (Ht & Hl & Hd & Eb & _).
    split; [exact Ht|]. split; [exact Hl|]. split; [exact Hd|].
    split; [reflexivity|]. unfold value. now rewrite Eb.
  - intros (Ht & Hl & Hd & -> & ->).
    destruct (region_exists A i j) as (q & Hq & Hr);
      [unfold trapezoid_tile in Ht; tauto..|].
    exists (q, i =? j, group_tiles A uplo me tileDevice device q (i =? j)).
    split; [apply in_set_groups; eauto|].
    cbn [fst snd]. apply in_map_iff. exists (i, j). split; [reflexivity|].
    apply in_group_tiles; auto.
Qed.

Lemma NoDup_set_Devices_task_tiles (device : Z) :
  NoDup (map (fun w : Z * Z * T * T => fst (fst w))
           (flat_map set_writes
              (set_Devices_task A uplo me tileDevice tileStride offdiag_value
                                diag_value device))).
Proof.
  rewrite set_Devices_task_writes, map_flat_map.
  erewrite flat_map_ext.
  - now apply NoDup_set_groups_tiles.
  - intros g. rewrite map_map. cbn.
    rewrite <- (map_id (snd g)) at 2. apply map_ext. now intros [i j].
Qed.

End SetDevicesFacts.

(** X13: [set] on the host.  The HostTask implementation sets exactly
    the tiles of the trapezoid (lower for [Uplo::Lower], upper
    otherwise) that the rank owns, each of them once, a diagonal tile
    with [(offdiag_value, diag_value)] and any other tile with
    [(offdiag_value, offdiag_value)]; HostNest and HostBatch are not
    implemented. *)
Theorem X13_internal_set_HostTask {T : Type} (A : MatrixDesc) (uplo : Uplo)
    (me : Z) (tileDevice tileStride : Z -> Z -> Z) (num_devices : Z)
    (offdiag_value diag_value : T) :
  exists calls,
    internal_set A uplo me tileDevice tileStride num_devices HostTask
                 offdiag_value diag_value = set_done calls
    /\ (forall i j o d,
          In (i, j, o, d) (flat_map set_writes calls)
          <-> trapezoid_tile A uplo i j /\ tileIsLocal A me i j = true
              /\ o = offdiag_value
              /\ d = if i =? j then diag_value else offdiag_value)
    /\ NoDup (map (fun w : Z * Z * T * T => fst (fst w))
                  (flat_map set_writes calls))
    /\ internal_set A uplo me tileDevice tileStride num_devices HostNest
                    offdiag_value diag_value = set_not_implemented
    /\ internal_set A uplo me tileDevice tileStride num_devices HostBatch
                    offdiag_value diag_value = set_not_implemented.
Proof.
  eexists. split; [reflexivity|]. split; [|split; [|split; reflexivity]].
  - intros i j o d. apply in_set_HostTask_writes.
  - apply NoDup_set_HostTask_tiles.
Qed.

(** X14: [set] on one device.  For a matrix with at least one tile row
    and one tile column, the [device::geset] calls of the task of a
    device set exactly the tiles of the trapezoid that the rank owns on
    that device, each of them once, a diagonal tile with
    [(offdiag_value, diag_value)] and any other tile with
    [(offdiag_value, offdiag_value)].  Every call is made for a group
    that is not empty, with [group_count] the number of its tiles; and
    when all tile rows but the last have the height of row 0 and all
    tile columns but the last have the width of column 0, the [mb] and
    [nb] of a call are the dimensions of every tile of its group. *)
Theorem X14_internal_set_Devices {T : Type} (A : MatrixDesc) (uplo : Uplo)
    (me : Z) (tileDevice tileStride : Z -> Z -> Z)
    (offdiag_value diag_value : T) (device : Z) :
  1 <= mt A -> 1 <= nt A ->
  let calls := set_Devices_task A uplo me tileDevice tileStride
                 offdiag_value diag_value device in
  (forall i j o d,
     In (i, j, o, d) (flat_map set_writes calls)
     <-> trapezoid_tile A uplo i j /\ tileIsLocal A me i j = true
         /\ tileDevice i j = device /\ o = offdiag_value
         /\ d = if i =? j then diag_value else offdiag_value)
  /\ NoDup (map (fun w : Z * Z * T * T => fst (fst w))
                (flat_map set_writes calls))
  /\ (forall mb nb o d tiles lda group_count dev,
        In (device_geset mb nb o d tiles lda group_count dev) calls ->
        group_count = Z.of_nat (length tiles) /\ 0 < group_count
        /\ dev = device
        /\ ((forall i, 0 <= i < mt A - 1 -> tileMb A i = tileMb A 0) ->
            (forall j, 0 <= j < nt A - 1 -> tileNb A j = tileNb A 0) ->
            forall i j, In (i, j) tiles ->
                        mb = tileMb A i /\ nb = tileNb A j)).
Proof.
  intros Hmt Hnt calls. split; [|split].
  - intros i j o d. now apply in_set_Devices_task_writes.
  - now apply NoDup_set_Devices_task_tiles.
  - intros mb nb o d tiles lda gc dev Hin. unfold calls, set_Devices_task in Hin.
    cbn zeta in Hin.
    apply in_app_iff in Hin as [[E|[E|[]]]|Hin]; try discriminate.
    apply in_app_iff in Hin as [Hin|[E|[]]]; try discriminate.
    apply in_geset_calls in Hin as (q & b & ts & Hg & Hne & E).
    injection E as -> -> _ _ -> _ -> ->.
    apply in_set_groups in Hg as (q' & b' & Hq & Eg).
    injection Eg as <- <- Ets.
    split; [reflexivity|]. split; [destruct ts; [contradiction|cbn; lia]|].
    split; [reflexivity|].
    intros Hmb Hnb i j Hij. rewrite Ets in Hij.
    apply in_group_tiles in Hij; auto.
    destruct Hij as ((Hi & Hj & _) & _ & _ & _ & (Hri & Hrj)).
    unfold irange, jrange in *.
    destruct ((q =? 0) || (q =? 2)); destruct ((q =? 0) || (q =? 1));
      cbn [fst snd] in *; split;
      try (symmetry; apply Hmb; lia); try (symmetry; apply Hnb; lia);
      f_equal; lia.
Qed.

(** X14 for device 0 of rank 0 on the 2 x 2 sample: no tile is set twice. *)
Lemma X14_witness :
  NoDup (map (fun w : Z * Z * Z * Z => fst (fst w))
           (flat_map set_writes
              (set_Devices_task A_herm Lower 0 (fun _ _ => 0) (fun _ _ => 2)
                 0 1 0))).
Proof.
  refine (proj1 (proj2 (X14_internal_set_Devices A_herm Lower 0 (fun _ _ => 0)
                          (fun _ _ => 2) 0 1 0 _ _))); cbn; lia.
Defined.

(** X15: the device and the host implementation of [set] agree.  When
    every tile of the trapezoid that the rank owns is on one of the
    devices [0 .. num_devices-1], the Devices implementation sets the
    same tiles with the same values as the HostTask implementation. *)
Theorem X15_internal_set_targets_agree {T : Type} (A : MatrixDesc)
    (uplo : Uplo) (me : Z) (tileDevice tileStride : Z -> Z -> Z)
    (num_devices : Z) (offdiag_value diag_value : T) :
  1 <= mt A -> 1 <= nt A ->
  (forall i j, trapezoid_tile A uplo i j -> tileIsLocal A me i j = true ->
               0 <= tileDevice i j < num_devices) ->
  forall w,
    In w (flat_map set_writes
            (set_Devices A uplo me tileDevice tileStride num_devices
                         offdiag_value diag_value))
    <-> In w (flat_map set_writes
                (set_HostTask A uplo me offdiag_value diag_value)).
Proof.
  intros Hmt Hnt Hdev [[[i j] o] d]. unfold set_Devices.
  rewrite flat_map_comp, in_flat_map, in_set_HostTask_writes. split.
  - intros (device & Hd & Hin).
    apply in_set_Devices_task_writes in Hin; auto. tauto.
  - intros (Ht & Hl & Ho & Hv). exists (tileDevice i j). split.
    + apply in_range. now apply Hdev.
    + apply in_set_Devices_task_writes; auto.
Qed.

(** X15 for the diagonal tile (0,0) of the 2 x 2 sample on one device. *)
Lemma X15_witness :
  In (0, 0, 0, 1)
     (flat_map set_writes
        (set_Devices A_herm Lower 0 (fun _ _ => 0) (fun _ _ => 2) 1 0 1))
  <-> In (0, 0, 0, 1)
         (flat_map set_writes (set_HostTask A_herm Lower 0 0 1)).
Proof.
  apply X15_internal_set_targets_agree; cbn; lia.
Defined.

(** ** [ttmqr]: the reduction tree *)

Lemma for_lt_total (hi inc : Z) :
  0 < inc ->
  forall (fuel : nat) (i : Z),
    (Z.to_nat (hi - i) < fuel)%nat ->
    exists l, for_lt fuel i hi inc = Some l
              /\ forall x, In x l -> i <= x < hi /\ (x - i) mod inc = 0.
Proof.
  intros Hinc. induction fuel as [|f IH]; intros i Hf; [lia|].
  cbn [for_lt]. destruct (Z.ltb_spec i hi) as [Hlt|Hge].
  - destruct (IH (i + inc)) as (l & -> & Hl); [lia|].
    eexists. split; [reflexivity|]. intros x [<-|Hx].
    + split; [lia|]. now rewrite Z.sub_diag.
    + destruct (Hl x Hx) as [Hr Hm]. split; [lia|].
      replace (x - i) with ((x - (i + inc)) + 1 * inc) by lia.
      now rewrite Z.mod_add by lia.
  - exists []. split; [reflexivity|]. intros x [].
Qed.

Section TtmqrFacts.
Variables A C : MatrixDesc.
Variable me : Z.
Variable side : Side.
Variable op : Op.
Variable tag : Z.

Lemma ttmqr_levels_ascend (l : nat) : forall step,
  descend side op = false -> 0 < step ->
  exists calls, ttmqr_levels A C me side op tag l step = Some calls.
Proof.
  induction l as [|l IH]; intros step Hd Hs; cbn [ttmqr_levels].
  - eexists; reflexivity.
  - destruct (for_lt_total (nranks A) step Hs (S (Z.to_nat (nranks A))) 0)
      as (ix & -> & _); [lia|].
    rewrite Hd. destruct (IH (step * 2) Hd) as (later & ->); [lia|].
    eexists; reflexivity.
Qed.

Lemma ttmqr_levels_descend (l : nat) : forall step,
  descend side op = true ->
  (l = 0%nat \/ step = 2 ^ (Z.of_nat l - 1)) ->
  exists calls, ttmqr_levels A C me side op tag l step = Some calls.
Proof.
  induction l as [|l IH]; intros step Hd Hs; cbn [ttmqr_levels].
  - eexists; reflexivity.
  - destruct Hs as [Hs|Hs]; [discriminate|].
    replace (Z.of_nat (S l) - 1) with (Z.of_nat l) in Hs by lia.
    assert (Hpos : 0 < step) by (subst; apply Z.pow_pos_nonneg; lia).
    destruct (for_lt_total (nranks A) step Hpos (S (Z.to_nat (nranks A))) 0)
      as (ix & -> & _); [lia|].
    rewrite Hd.
    destruct (IH (Z.quot step 2) Hd) as (later & ->).
    + destruct l as [|l']; [now left|right].
      subst step. rewrite Z.quot_div_nonneg by (try apply Z.pow_nonneg; lia).
      replace (Z.of_nat (S l')) with (Z.of_nat (S l') - 1 + 1) at 1 by lia.
      rewrite Z.pow_add_r by lia. rewrite Z.pow_1_r.
      now rewrite Z.div_mul by lia.
    + eexists; reflexivity.
Qed.

Lemma ttmqr_exchange_ok (step index k : Z) :
  Forall (ttmqr_call_ok C me) (ttmqr_exchange A C me side tag step index k).
Proof.
  unfold ttmqr_exchange.
  destruct (tile_of side (second_at A index) k) as [i j].
  destruct (tileIsLocal C me i j) eqn:El; [|constructor].
  apply Z.eqb_eq in El.
  destruct (_ =? 0).
  - destruct (_ <? _); [|constructor].
    destruct (tile_of side (second_at A (index + step)) k) as [i' j'].
    repeat constructor; cbn; auto.
  - destruct (tile_of side (second_at A (index - step)) k) as [i' j'].
    repeat constructor.
Qed.

Lemma ttmqr_update_ok (step index k : Z) :
  Forall (ttmqr_call_ok C me) (ttmqr_update A C me side op step index k).
Proof.
  unfold ttmqr_update.
  destruct (tile_of side (second_at A index) k) as [i j].
  destruct (tileIsLocal C me i j) eqn:El; [|constructor].
  apply Z.eqb_eq in El.
  destruct (negb _); [|constructor].
  destruct (tile_of side (second_at A (index - step)) k) as [i' j'].
  repeat (apply Forall_cons; [cbn; auto|]). constructor.
Qed.

Lemma ttmqr_return_ok (step index k : Z) :
  Forall (ttmqr_call_ok C me) (ttmqr_return A C me side tag step index k).
Proof.
  unfold ttmqr_return.
  destruct (tile_of side (second_at A index) k) as [i j].
  destruct (tileIsLocal C me i j) eqn:El; [|constructor].
  destruct (_ =? 0).
  - destruct (_ <? _); [|constructor].
    destruct (tile_of side (second_at A (index + step)) k) as [i' j'].
    repeat constructor.
  - destruct (tile_of side (second_at A (index - step)) k) as [i' j'].
    repeat constructor.
Qed.

Lemma Forall_flat_map_intro {X Y} (P : Y -> Prop) (f : X -> list Y)
    (l : list X) :
  (forall x, Forall P (f x)) -> Forall P (flat_map f l).
Proof.
  intros Hf. induction l as [|x l IH]; cbn; [constructor|].
  apply Forall_app. auto.
Qed.

Lemma ttmqr_levels_ok (l : nat) : forall step calls,
  ttmqr_levels A C me side op tag l step = Some calls ->
  Forall (ttmqr_call_ok C me) calls.
Proof.
  induction l as [|l IH]; intros step calls; cbn [ttmqr_levels].
  - intros E. injection E as <-. constructor.
  - destruct (for_lt _ _ _ _) as [ix|]; [|discriminate].
    destruct (ttmqr_levels A C me side op tag l _) as [later|] eqn:El;
      [|discriminate].
    intros E. injection E as <-. apply Forall_app. split.
    + apply Forall_flat_map_intro. intros index. unfold ttmqr_index.
      repeat (apply Forall_app; split); apply Forall_flat_map_intro; intros k.
      * apply ttmqr_exchange_ok.
      * apply ttmqr_update_ok.
      * apply ttmqr_return_ok.
    + eapply IH, El.
Qed.

End TtmqrFacts.

Section TtmqrRoundTrip.
Variables A C : MatrixDesc.
Variable side : Side.
Variable op : Op.
Variable tag : Z.

Lemma rem_partner (step index : Z) :
  0 < step -> 0 <= index -> Z.rem index (2 * step) = 0 ->
  Z.rem (index + step) (2 * step) <> 0.
Proof.
  intros Hs Hi Hr. rewrite Z.rem_mod_nonneg in * by lia.
  apply Z.mod_divide in Hr; [|lia]. destruct Hr as [q ->].
  rewrite Z.add_comm, Z.mod_add by lia. rewrite Z.mod_small; lia.
Qed.

Lemma rem_sender (step index : Z) :
  0 < step -> 0 <= index -> index mod step = 0 ->
  Z.rem index (2 * step) <> 0 ->
  0 <= index - step /\ Z.rem (index - step) (2 * step) = 0.
Proof.
  intros Hs Hi Hm Hr. apply Z.mod_divide in Hm; [|lia]. destruct Hm as [q ->].
  assert (Hq : 0 <= q) by nia.
  destruct (Z.Even_or_Odd q) as [[h ->]|[h ->]].
  - exfalso. apply Hr. rewrite Z.rem_mod_nonneg by nia.
    replace (2 * h * step) with (h * (2 * step)) by ring.
    apply Z.mod_mul. lia.
  - assert (0 <= h) by lia. split; [nia|].
    rewrite Z.rem_mod_nonneg by nia.
    replace ((2 * h + 1) * step - step) with (h * (2 * step)) by ring.
    apply Z.mod_mul. lia.
Qed.

Lemma tile_of_local (r k : Z) :
  let '(i, j) := tile_of side r k in tileIsLocal C (tileRank C i j) i j = true.
Proof.
  destruct (tile_of side r k) as [i j]. apply Z.eqb_refl.
Qed.

Lemma ttmqr_sent_tile (me step index k i j dst tg : Z) :
  0 < step -> 0 <= index ->
  In (tileSend Q_C i j dst tg) (ttmqr_exchange A C me side tag step index k) ->
  tile_of side (second_at A index) k = (i, j)
  /\ tileRank C i j = me
  /\ Z.rem index (2 * step) = 0
  /\ index + step < nranks A
  /\ (let '(i', j') := tile_of side (second_at A (index + step)) k in
      dst = tileRank C i' j')
  /\ tg = tag.
Proof.
  intros Hs Hi. unfold ttmqr_exchange.
  destruct (tile_of side (second_at A index) k) as [i0 j0].
  destruct (tileIsLocal C me i0 j0) eqn:El; [|intros []].
  apply Z.eqb_eq in El.
  destruct (Z.eqb_spec (Z.rem index (2 * step)) 0) as [Hr|Hr].
  - destruct (Z.ltb_spec (index + step) (nranks A)) as [Hn|Hn]; [|intros []].
    destruct (tile_of side (second_at A (index + step)) k) as [i' j'].
    intros [E|[E|[]]]; [discriminate|]. injection E as <- <- <- <-.
    repeat split; auto.
  - destruct (tile_of side (second_at A (index - step)) k) as [i' j'].
    intros [E|[]]. discriminate.
Qed.

End TtmqrRoundTrip.

(** ** [rank_indices]: one entry for each rank, its top-most row *)

Lemma set_insert_intro (x r : Z) (s : list Z) :
  r = x \/ In r s -> In r (set_insert x s).
Proof.
  induction s as [|y s IH]; cbn.
  - intros [->|[]]. now left.
  - destruct (Z.ltb_spec x y); [intros [->|[->|H']]; cbn; auto|].
    destruct (Z.eqb_spec x y) as [->|Hne].
    + intros [->|[->|H']]; cbn; auto.
    + intros [->|[->|H']]; cbn; auto.
Qed.

Lemma set_insert_sorted (x : Z) (s : list Z) :
  StronglySorted Z.lt s -> StronglySorted Z.lt (set_insert x s).
Proof.
  induction 1 as [|y s Hs IH Hy]; cbn.
  - repeat constructor.
  - destruct (Z.ltb_spec x y).
    + constructor; [now constructor|]. constructor; [exact H|].
      eapply Forall_impl; [|exact Hy]. cbn. intros; lia.
    + destruct (Z.eqb_spec x y); [now constructor|].
      constructor; [exact IH|]. apply Forall_forall. intros z Hz.
      apply set_insert_in in Hz as [->|Hz]; [lia|].
      rewrite Forall_forall in Hy. auto.
Qed.

Lemma getRanks_sorted (M : MatrixDesc) : StronglySorted Z.lt (getRanks M).
Proof.
  unfold getRanks.
  assert (G : forall l s, StronglySorted Z.lt s ->
    StronglySorted Z.lt
      (fold_left (fun s ij => set_insert (tileRank M (fst ij) (snd ij)) s)
         l s)).
  { induction l as [|ij l IH]; cbn; intros s Hs; [exact Hs|].
    apply IH, set_insert_sorted, Hs. }
  apply G. constructor.
Qed.

Lemma getRanks_has_owner (M : MatrixDesc) (i j : Z) :
  0 <= i < mt M -> 0 <= j < nt M -> In (tileRank M i j) (getRanks M).
Proof.
  intros Hi Hj. unfold getRanks.
  assert (G : forall l s r,
    (In r s \/ exists ij, In ij l /\ tileRank M (fst ij) (snd ij) = r) ->
    In r (fold_left (fun s ij => set_insert (tileRank M (fst ij) (snd ij)) s)
            l s)).
  { induction l as [|ij l IH]; cbn; intros s r.
    - intros [Hs|(ij & [] & _)]. exact Hs.
    - intros [Hs|(ij' & [<-|Hl] & E)]; apply IH.
      + left. apply set_insert_intro. now right.
      + left. apply set_insert_intro. now left.
      + right. exists ij'. auto. }
  apply G. right. exists (i, j). split; [|reflexivity].
  apply in_prod_iff. split; apply in_range; lia.
Qed.

Lemma find_range_first (p : Z -> bool) (hi : Z) (n : nat) : forall lo i,
  Z.to_nat (hi - lo) = n ->
  find p (range lo hi) = Some i ->
  lo <= i < hi /\ p i = true /\ forall i', lo <= i' < i -> p i' = false.
Proof.
  induction n as [|n IH]; intros lo i Hn.
  - rewrite range_nil by lia. discriminate.
  - rewrite range_cons by lia. cbn [find].
    destruct (p lo) eqn:Ep.
    + intros E. injection E as <-. repeat split; try lia. exact Ep.
    + intros E. apply IH in E; [|lia]. destruct E as (Hr & Hp & Hf).
      repeat split; try lia; [exact Hp|].
      intros i' Hi'. destruct (Z.eq_dec i' lo) as [->|Hne]; [exact Ep|].
      apply Hf. lia.
Qed.

Lemma in_insert_by_second (x y : Z * Z) (l : list (Z * Z)) :
  In y (insert_by_second x l) <-> y = x \/ In y l.
Proof.
  induction l as [|z l IH]; cbn.
  - intuition.
  - destruct (snd x <=? snd z); cbn; [intuition|]. rewrite IH. intuition.
Qed.

Lemma in_sort_by_second (y : Z * Z) (l : list (Z * Z)) :
  In y (sort_by_second l) <-> In y l.
Proof.
  induction l as [|x l IH]; cbn; [tauto|].
  rewrite in_insert_by_second, IH. intuition.
Qed.

Lemma insert_by_second_sorted (x : Z * Z) (l : list (Z * Z)) :
  StronglySorted (fun a b => snd a <= snd b) l ->
  StronglySorted (fun a b => snd a <= snd b) (insert_by_second x l).
Proof.
  induction 1 as [|z l Hs IH Hz]; cbn.
  - repeat constructor.
  - destruct (Z.leb_spec (snd x) (snd z)).
    + constructor; [now constructor|]. constructor; [exact H|].
      eapply Forall_impl; [|exact Hz]. cbn. intros; lia.
    + constructor; [exact IH|]. apply Forall_forall. intros y Hy.
      apply in_insert_by_second in Hy as [->|Hy]; [lia|].
      rewrite Forall_forall in Hz. auto.
Qed.

Lemma sort_by_second_sorted (l : list (Z * Z)) :
  StronglySorted (fun a b => snd a <= snd b) (sort_by_second l).
Proof.
  induction l as [|x l IH]; cbn; [constructor|].
  now apply insert_by_second_sorted.
Qed.

Lemma in_rank_indices (A : MatrixDesc) (r i : Z) :
  In (r, i) (rank_indices A)
  <-> In r (getRanks A)
      /\ find (fun i => tileRank A i 0 =? r) (range 0 (mt A)) = Some i.
Proof.
  unfold rank_indices. rewrite in_sort_by_second, in_flat_map. split.
  - intros (r' & Hr & Hin).
    destruct (find _ _) eqn:F; [|destruct Hin].
    destruct Hin as [E|[]]. injection E as -> ->. auto.
  - intros [Hr F]. exists r. split; [exact Hr|]. rewrite F. now left.
Qed.

Lemma rank_indices_top (A : MatrixDesc) (r i : Z) :
  In (r, i) (rank_indices A) ->
  0 <= i < mt A /\ tileRank A i 0 = r
  /\ forall i', 0 <= i' < i -> tileRank A i' 0 <> r.
Proof.
  intros Hin. apply in_rank_indices in Hin as [_ F].
  apply (find_range_first _ _ _ _ _ eq_refl) in F as (Hr & Hp & Hf).
  apply Z.eqb_eq in Hp. split; [lia|]. split; [exact Hp|].
  intros i' Hi'. apply Z.eqb_neq. apply Hf. exact Hi'.
Qed.

Lemma find_range_some (p : Z -> bool) (lo hi x : Z) :
  lo <= x < hi -> p x = true -> exists i, find p (range lo hi) = Some i.
Proof.
  intros Hx Hp. destruct (find p (range lo hi)) eqn:F; [eauto|].
  assert (Hin : In x (range lo hi)) by (apply in_range; lia).
  pose proof (find_none _ _ F x Hin). congruence.
Qed.

Lemma split_after {X} (l1 l2 pre post : list X) (c : X) :
  l1 ++ l2 = pre ++ c :: post -> ~ In c l1 ->
  exists pre2, pre = l1 ++ pre2 /\ l2 = pre2 ++ c :: post.
Proof.
  revert pre. induction l1 as [|x l1 IH]; intros pre E Hn.
  - exists pre. auto.
  - destruct pre as [|y pre]; cbn in E; injection E as -> E.
    + exfalso. apply Hn. now left.
    + destruct (IH pre E) as (pre2 & -> & ->).
      * intros Hin. apply Hn. now right.
      * exists pre2. auto.
Qed.

Lemma split_before {X} (l1 l2 pre post : list X) (c : X) :
  l1 ++ l2 = pre ++ c :: post -> ~ In c l2 ->
  exists post1, post = post1 ++ l2 /\ l1 = pre ++ c :: post1.
Proof.
  revert pre. induction l1 as [|x l1 IH]; intros pre E Hn.
  - cbn in E. exfalso. apply Hn. rewrite E. apply in_elt.
  - destruct pre as [|y pre]; cbn in E; injection E as -> E.
    + exists l1. subst post. auto.
    + destruct (IH pre E Hn) as (post1 & -> & ->). exists post1. auto.
Qed.

Lemma between_app (C : MatrixDesc) (tag : Z) (l1 l2 : list TtmqrCall) :
  tpmqrt_between_recv_send C tag l1 -> tpmqrt_between_recv_send C tag l2 ->
  tpmqrt_between_recv_send C tag (l1 ++ l2).
Proof.
  intros H1 H2 pre post side op l rank_ind i1 j1 i j E.
  apply app_eq_app in E as (m & [[E1 E2]|[E1 E2]]).
  - destruct m as [|c m].
    + cbn in E2. rewrite app_nil_r in E1. subst.
      destruct (H2 [] post side op l rank_ind i1 j1 i j eq_refl) as [[] _].
    + cbn in E2. injection E2 as <- ->.
      destruct (H1 _ _ _ _ _ _ _ _ _ _ E1) as [Hr Hs].
      split; [exact Hr|]. apply in_or_app. now left.
  - subst pre. destruct (H2 _ _ _ _ _ _ _ _ _ _ E2) as [Hr Hs].
    split; [|exact Hs]. apply in_or_app. now right.
Qed.

Lemma between_flat_map {X} (C : MatrixDesc) (tag : Z)
    (f : X -> list TtmqrCall) (xs : list X) :
  (forall x, tpmqrt_between_recv_send C tag (f x)) ->
  tpmqrt_between_recv_send C tag (flat_map f xs).
Proof.
  intros Hf. induction xs as [|x xs IH]; cbn.
  - intros [|? ?] ? ? ? ? ? ? ? ? ? E; discriminate.
  - now apply between_app.
Qed.

Section TtmqrBetween.
Variables A C : MatrixDesc.
Variable me : Z.
Variable side : Side.
Variable op : Op.
Variable tag : Z.

Lemma exchange_no_tpmqrt (step index : Z) (ks : list Z) (c : TtmqrCall) :
  In c (flat_map (ttmqr_exchange A C me side tag step index) ks) ->
  is_tpmqrt c = false.
Proof.
  intros Hin. apply in_flat_map in Hin as (k & _ & Hin).
  unfold ttmqr_exchange in Hin.
  destruct (tile_of side (second_at A index) k) as [i j].
  destruct (tileIsLocal C me i j); [|destruct Hin].
  destruct (_ =? 0).
  - destruct (_ <? _); [|destruct Hin].
    destruct (tile_of side (second_at A (index + step)) k) as [i' j'].
    destruct Hin as [<-|[<-|[]]]; reflexivity.
  - destruct (tile_of side (second_at A (index - step)) k) as [i' j'].
    destruct Hin as [<-|[]]; reflexivity.
Qed.

Lemma return_no_tpmqrt (step index : Z) (ks : list Z) (c : TtmqrCall) :
  In c (flat_map (ttmqr_return A C me side tag step index) ks) ->
  is_tpmqrt c = false.
Proof.
  intros Hin. apply in_flat_map in Hin as (k & _ & Hin).
  unfold ttmqr_return in Hin.
  destruct (tile_of side (second_at A index) k) as [i j].
  destruct (tileIsLocal C me i j); [|destruct Hin].
  destruct (_ =? 0).
  - destruct (_ <? _); [|destruct Hin].
    destruct (tile_of side (second_at A (index + step)) k) as [i' j'].
    destruct Hin as [<-|[]]; reflexivity.
  - destruct (tile_of side (second_at A (index - step)) k) as [i' j'].
    destruct Hin as [<-|[<-|[]]]; reflexivity.
Qed.

(** A [tpmqrt] of the second loop: the first loop of the same [index]
    and [k] receives its first tile and the third loop sends it back. *)
Lemma update_recv_send (step index k : Z) side' op' l rank_ind i1 j1 i j :
  In (tpmqrt side' op' l rank_ind i1 j1 i j)
     (ttmqr_update A C me side op step index k) ->
  In (tileRecv Q_C i1 j1 (tileRank C i1 j1) tag)
     (ttmqr_exchange A C me side tag step index k)
  /\ In (tileSend Q_C i1 j1 (tileRank C i1 j1) tag)
        (ttmqr_return A C me side tag step index k).
Proof.
  unfold ttmqr_update, ttmqr_exchange, ttmqr_return.
  destruct (tile_of side (second_at A index) k) as [i0 j0].
  destruct (tileIsLocal C me i0 j0); [|intros []].
  destruct (Z.rem index (2 * step) =? 0); cbn [negb]; [intros []|].
  destruct (tile_of side (second_at A (index - step)) k) as [i' j'].
  intros [E|[E|[E|[E|[E|[E|[]]]]]]]; try discriminate.
  injection E as _ _ _ _ <- <- _ _. split; now left.
Qed.

Lemma ttmqr_index_between (step index : Z) :
  tpmqrt_between_recv_send C tag (ttmqr_index A C me side op tag step index).
Proof.
  intros pre post side' op' l rank_ind i1 j1 i j E.
  unfold ttmqr_index in E.
  set (ks := range 0 (k_end C side)) in *.
  apply split_after in E as (pre2 & -> & E).
  2:{ intros Hin. apply exchange_no_tpmqrt in Hin. discriminate. }
  apply split_before in E as (post1 & -> & E).
  2:{ intros Hin. apply return_no_tpmqrt in Hin. discriminate. }
  assert (Hin : In (tpmqrt side' op' l rank_ind i1 j1 i j)
                   (flat_map (ttmqr_update A C me side op step index) ks))
    by (rewrite E; apply in_elt).
  apply in_flat_map in Hin as (k & Hk & Hin).
  apply update_recv_send in Hin as [Hr Hs]. split.
  - apply in_or_app. left. apply in_flat_map. eauto.
  - apply in_or_app. right. apply in_flat_map. eauto.
Qed.

Lemma ttmqr_levels_between (l : nat) : forall step calls,
  ttmqr_levels A C me side op tag l step = Some calls ->
  tpmqrt_between_recv_send C tag calls.
Proof.
  induction l as [|l IH]; intros step calls; cbn [ttmqr_levels].
  - intros E. injection E as <-.
    intros [|? ?] ? ? ? ? ? ? ? ? ? E; discriminate.
  - destruct (for_lt _ _ _ _) as [ix|]; [|discriminate].
    destruct (ttmqr_levels A C me side op tag l _) as [later|] eqn:El;
      [|discriminate].
    intros E. injection E as <-. apply between_app.
    + apply between_flat_map. intros index. apply ttmqr_index_between.
    + eapply IH, El.
Qed.

End TtmqrBetween.

(** X16: the loops of [ttmqr] end, and what it does with tiles.  When
    the assertions at its head hold, every loop of the reduction tree
    ends, for any number of ranks and in both directions of the tree
    (the check of the tile state at line 233 is not modelled: the state
    of a tile is kept outside these sources).  In the calls a rank
    makes, tiles of [A] and [T] are only gotten for reading, only tiles
    of [C] are sent or received, and a tile gotten for writing is a tile
    of [C] that the rank owns.  A [tpmqrt] updates two tiles of [C]: the
    rank's own tile [C(i, j)], and the tile [C(i1, j1)] of the partner's
    row, which the rank has received from the owner of that tile earlier
    in its calls and sends back to that owner later in its calls.  And
    where the third loop receives a tile back (the place of the check
    of line 233), the first loop of the same index has gotten that tile
    for writing. *)
Theorem X16_ttmqr_tile_discipline (A C : MatrixDesc) (me : Z) (side : Side)
    (op : Op) (tag : Z) :
  nt A = 1 ->
  mt A = (if is_left side then mt C else nt C) ->
  exists calls,
    ttmqr A C me side op tag = Some calls
    /\ Forall (ttmqr_call_ok C me) calls
    /\ tpmqrt_between_recv_send C tag calls
    /\ forall step index k i j dst tg,
         In (tileRecv Q_C i j dst tg)
            (ttmqr_return A C me side tag step index k) ->
         In (tileGetForWriting Q_C i j)
            (ttmqr_exchange A C me side tag step index k).
Proof.
  intros Hnt Hmt.
  assert (Hret : exists calls, ttmqr A C me side op tag = Some calls).
  { unfold ttmqr. rewrite Hnt, <- Hmt, !Z.eqb_refl. cbn [negb].
    assert (Hnl : 0 <= nlevels A) by (unfold nlevels; apply Z.log2_up_nonneg).
    destruct (descend side op) eqn:Hd.
    - apply ttmqr_levels_descend; [exact Hd|].
      right. unfold first_step. rewrite Hd. f_equal. lia.
    - apply ttmqr_levels_ascend; [exact Hd|].
      unfold first_step. rewrite Hd. lia. }
  destruct Hret as (calls & E). exists calls. split; [exact E|].
  revert E. unfold ttmqr. destruct (negb _); [discriminate|].
  destruct (negb _); [discriminate|]. intros E.
  split; [eapply ttmqr_levels_ok, E|].
  split; [eapply ttmqr_levels_between, E|].
  intros step index k i j dst tg.
  unfold ttmqr_return, ttmqr_exchange.
  destruct (tile_of side (second_at A index) k) as [i0 j0].
  destruct (tileIsLocal C me i0 j0); [|intros []].
  destruct (Z.rem index (2 * step) =? 0).
  - destruct (index + step <? nranks A); [|intros []].
    destruct (tile_of side (second_at A (index + step)) k) as [i' j'].
    intros [E'|[]]. injection E' as <- <- _ _. now left.
  - destruct (tile_of side (second_at A (index - step)) k) as [i' j'].
    intros [E'|[E'|[]]]; discriminate.
Qed.

(** X16 for rank 1 of the two-rank panel, which applies [tpmqrt] to its
    own tile (1, 0) and to tile (0, 0) of rank 0. *)
Lemma X16_witness :
  exists calls,
    ttmqr A_two_ranks A_two_ranks 1 Left ConjTrans 9 = Some calls
    /\ Forall (ttmqr_call_ok A_two_ranks 1) calls
    /\ tpmqrt_between_recv_send A_two_ranks 9 calls
    /\ In (tpmqrt Left ConjTrans 2 1 0 0 1 0) calls.
Proof.
  destruct (X16_ttmqr_tile_discipline A_two_ranks A_two_ranks 1 Left
              ConjTrans 9 eq_refl eq_refl) as (calls & E & Hok & Hb & _).
  exists calls. split; [exact E|]. split; [exact Hok|]. split; [exact Hb|].
  vm_compute in E. injection E as <-.
  do 4 right. left. reflexivity.
Defined.

(** X17: the round trip of a tile between the two ranks of a pair.  In
    a level with [step > 0], a tile of [C] that a rank sends in the
    first loop at [index >= 0] goes to the owner of the tile of the
    partner, [index + step].  That rank receives the tile from the
    sender with the same tag, applies [tpmqrt] to it and to its own
    tile, sends it back and ticks it; and the sender receives it back
    from that rank in the third loop. *)
Theorem X17_ttmqr_tile_round_trip (A C : MatrixDesc) (side : Side) (op : Op)
    (tag me step index k i j dst tg : Z) :
  0 < step -> 0 <= index ->
  In (tileSend Q_C i j dst tg) (ttmqr_exchange A C me side tag step index k) ->
  exists i' j',
    tile_of side (second_at A (index + step)) k = (i', j')
    /\ ttmqr_exchange A C dst side tag step (index + step) k
       = [tileRecv Q_C i j me tag]
    /\ ttmqr_update A C dst side op step (index + step) k
       = [tileGetForReading Q_A (second_at A (index + step)) 0;
          tileGetForReading Q_T (second_at A (index + step)) 0;
          tileGetForWriting Q_C i' j';
          tpmqrt side op
            (Z.min (tileMb A (second_at A (index + step))) (tileNb A 0))
            (second_at A (index + step)) i j i' j';
          tileTick Q_A (second_at A (index + step)) 0;
          tileTick Q_T (second_at A (index + step)) 0]
    /\ ttmqr_return A C dst side tag step (index + step) k
       = [tileSend Q_C i j me tag; tileTick Q_C i j]
    /\ ttmqr_return A C me side tag step index k
       = [tileRecv Q_C i j dst tag].
Proof.
  intros Hs Hi Hin.
  apply ttmqr_sent_tile in Hin as (Et & Eme & Hr & Hn & Hd & ->); try lia.
  pose proof (rem_partner step index Hs Hi Hr) as Hp.
  destruct (tile_of side (second_at A (index + step)) k) as [i' j'] eqn:Et'.
  exists i', j'. split; [reflexivity|].
  unfold ttmqr_exchange, ttmqr_update, ttmqr_return.
  replace (index + step - step) with index by lia.
  rewrite Et, Et'. unfold tileIsLocal. rewrite <- Hd, Eme, !Z.eqb_refl.
  apply Z.eqb_neq in Hp. rewrite Hp. cbn [negb].
  rewrite Hr, Z.eqb_refl. apply Z.ltb_lt in Hn. rewrite Hn.
  rewrite <- ?Hd. auto.
Qed.

(** X17 for the tile rank 0 sends at index 0 of the two-rank panel. *)
Lemma X17_witness :
  exists i' j',
    tile_of Left (second_at A_two_ranks (0 + 1)) 0 = (i', j')
    /\ ttmqr_exchange A_two_ranks A_two_ranks 1 Left 9 1 (0 + 1) 0
       = [tileRecv Q_C 0 0 0 9]
    /\ ttmqr_update A_two_ranks A_two_ranks 1 Left ConjTrans 1 (0 + 1) 0
       = [tileGetForReading Q_A (second_at A_two_ranks (0 + 1)) 0;
          tileGetForReading Q_T (second_at A_two_ranks (0 + 1)) 0;
          tileGetForWriting Q_C i' j';
          tpmqrt Left ConjTrans
            (Z.min (tileMb A_two_ranks (second_at A_two_ranks (0 + 1)))
                   (tileNb A_two_ranks 0))
            (second_at A_two_ranks (0 + 1)) 0 0 i' j';
          tileTick Q_A (second_at A_two_ranks (0 + 1)) 0;
          tileTick Q_T (second_at A_two_ranks (0 + 1)) 0]
    /\ ttmqr_return A_two_ranks A_two_ranks 1 Left 9 1 (0 + 1) 0
       = [tileSend Q_C 0 0 0 9; tileTick Q_C 0 0]
    /\ ttmqr_return A_two_ranks A_two_ranks 0 Left 9 1 0 0
       = [tileRecv Q_C 0 0 1 9].
Proof.
  apply (X17_ttmqr_tile_round_trip A_two_ranks A_two_ranks Left ConjTrans
           9 0 1 0 0 0 0 1 9); [lia|lia|].
  vm_compute. right. left. reflexivity.
Defined.

(** X18: a receive of the first loop has its send.  At a loop index (a
    multiple of [step > 0] below [nranks]), when a rank receives a tile
    from [src], the rank [src] at [index - step] gets that very tile for
    writing and sends it to the receiver, with the same tag. *)
Theorem X18_ttmqr_receive_matched (A C : MatrixDesc) (side : Side)
    (tag me step index k i1 j1 src tg : Z) :
  0 < step -> 0 <= index < nranks A -> index mod step = 0 ->
  In (tileRecv Q_C i1 j1 src tg) (ttmqr_exchange A C me side tag step index k) ->
  ttmqr_exchange A C src side tag step (index - step) k
  = [tileGetForWriting Q_C i1 j1; tileSend Q_C i1 j1 me tag].
Proof.
  intros Hs Hi Hm. unfold ttmqr_exchange at 1.
  destruct (tile_of side (second_at A index) k) as [i j] eqn:Et.
  destruct (tileIsLocal C me i j) eqn:El; [|intros []].
  apply Z.eqb_eq in El.
  destruct (Z.eqb_spec (Z.rem index (2 * step)) 0) as [Hr|Hr].
  - destruct (_ <? _); [|intros []].
    destruct (tile_of side (second_at A (index + step)) k) as [i' j'].
    intros [E|[E|[]]]; discriminate.
  - destruct (tile_of side (second_at A (index - step)) k) as [i' j'] eqn:Et'.
    intros [E|[]]. injection E as <- <- <- <-.
    destruct (rem_sender step index Hs (proj1 Hi) Hm Hr) as [Hge Hr'].
    unfold ttmqr_exchange. rewrite Et'. unfold tileIsLocal.
    rewrite Z.eqb_refl, Hr', Z.eqb_refl.
    replace (index - step + step) with index by lia.
    destruct (Z.ltb_spec index (nranks A)); [|lia].
    rewrite Et, El. reflexivity.
Qed.

(** X18 for the receive of rank 1 at index 1 of the two-rank panel. *)
Lemma X18_witness :
  ttmqr_exchange A_two_ranks A_two_ranks 0 Left 9 1 (1 - 1) 0
  = [tileGetForWriting Q_C 0 0; tileSend Q_C 0 0 1 9].
Proof.
  apply (X18_ttmqr_receive_matched A_two_ranks A_two_ranks Left 9 1 1 1 0
           0 0 0 9).
  - lia.
  - vm_compute. split; [discriminate|reflexivity].
  - reflexivity.
  - vm_compute. left. reflexivity.
Defined.

(** X19: [rank_indices].  For a panel of one block column the list is
    sorted by strictly increasing row; an entry [(r, i)] names a row
    [i] of the panel that rank [r] owns, and no row above [i] belongs to
    [r]; every rank that owns a tile of the panel has its entry, at or
    above each row it owns; so there are at most [mt] entries.
    ([getRanks] is modelled from the spec.) *)
Theorem X19_ttmqr_rank_indices (A : MatrixDesc) :
  nt A = 1 ->
  StronglySorted (fun a b => snd a < snd b) (rank_indices A)
  /\ (forall r i, In (r, i) (rank_indices A) ->
        0 <= i < mt A /\ tileRank A i 0 = r
        /\ forall i', 0 <= i' < i -> tileRank A i' 0 <> r)
  /\ (forall i, 0 <= i < mt A ->
        exists i0, In (tileRank A i 0, i0) (rank_indices A) /\ i0 <= i)
  /\ nranks A <= Z.max 0 (mt A).
Proof.
  intros Hnt.
  assert (Hsorted : StronglySorted (fun a b => snd a < snd b) (rank_indices A)).
  { assert (G : forall l,
      StronglySorted (fun a b : Z * Z => snd a <= snd b) l ->
      NoDup (map snd l) ->
      StronglySorted (fun a b : Z * Z => snd a < snd b) l).
    { induction 1 as [|x l Hs IH Hx]; cbn; intros Hnd; [constructor|].
      inversion Hnd as [|? ? Hnin Hnd']; subst.
      constructor; [auto|]. apply Forall_forall. intros y Hy.
      rewrite Forall_forall in Hx. specialize (Hx y Hy).
      assert (snd y <> snd x); [|lia].
      intros E. apply Hnin. rewrite <- E. now apply in_map. }
    apply G; [apply sort_by_second_sorted|].
    (* distinct entries have distinct rows *)
    assert (Hinj : forall x y, In x (rank_indices A) -> In y (rank_indices A) ->
                               snd x = snd y -> x = y).
    { intros [r i] [r' i'] Hx Hy E. cbn in E. subst i'.
      apply rank_indices_top in Hx as (_ & <- & _).
      apply rank_indices_top in Hy as (_ & <- & _). reflexivity. }
    assert (Hnd : NoDup (rank_indices A)).
    { unfold rank_indices.
      assert (P : forall l : list (Z * Z), NoDup l -> NoDup (sort_by_second l)).
      { induction 1 as [|x l Hx Hl IHl]; cbn; [constructor|].
        assert (Q : forall m, NoDup m -> ~ In x m ->
                              NoDup (insert_by_second x m)).
        { induction 1 as [|z m Hz Hm IHm]; cbn; intros Hn.
          - repeat constructor. intros [].
          - destruct (snd x <=? snd z).
            + constructor; [exact Hn|now constructor].
            + constructor.
              * rewrite in_insert_by_second. intros [->|H']; [|auto].
                apply Hn. now left.
              * apply IHm. intros H'. apply Hn. now right. }
        apply Q; [exact IHl|]. now rewrite in_sort_by_second. }
      apply P.
      assert (R : forall s, StronglySorted Z.lt s ->
        NoDup (flat_map
          (fun r => match find (fun i => tileRank A i 0 =? r)
                            (range 0 (mt A)) with
                    | Some i => [(r, i)]
                    | None => []
                    end) s)).
      { induction 1 as [|r s Hs IHs Hr]; cbn; [constructor|].
        destruct (find _ _); [|exact IHs]. cbn. constructor; [|exact IHs].
        rewrite in_flat_map. intros (r' & Hr' & Hin).
        destruct (find _ _); [|destruct Hin]. destruct Hin as [E|[]].
        injection E as E1 E2. subst r'. rewrite Forall_forall in Hr.
        specialize (Hr r Hr'). lia. }
      apply R, getRanks_sorted. }
    clear G. induction Hnd as [|x l Hx Hl IHl]; cbn; [constructor|].
    constructor.
    - rewrite in_map_iff. intros (y & E & Hy).
      assert (y = x) by (apply Hinj; cbn; auto). subst y. contradiction.
    - apply IHl. intros a b Ha Hb. apply Hinj; now right. }
  split; [exact Hsorted|]. split; [apply rank_indices_top|]. split.
  - intros i Hi.
    destruct (find_range_some (fun i0 => tileRank A i0 0 =? tileRank A i 0)
                0 (mt A) i Hi (Z.eqb_refl _)) as (i0 & F).
    exists i0. split.
    + apply in_rank_indices. split; [|exact F].
      apply getRanks_has_owner; lia.
    + destruct (find_range_first _ _ _ _ _ eq_refl F) as (Hr & Hp & Hf).
      destruct (Z.le_gt_cases i0 i) as [Hle|Hgt]; [exact Hle|].
      specialize (Hf i). cbn beta in Hf. rewrite Z.eqb_refl in Hf.
      discriminate Hf. lia.
  - (* strictly increasing rows in [0, mt A) *)
    assert (G : forall l lo,
      StronglySorted (fun a b : Z * Z => snd a < snd b) l ->
      (forall x, In x l -> lo <= snd x < mt A) ->
      Z.of_nat (length l) <= Z.max 0 (mt A - lo)).
    { induction l as [|x l IH]; intros lo Hs Hb; cbn [length]; [lia|].
      inversion Hs as [|? ? Hs' Hx]; subst.
      pose proof (Hb x (or_introl eq_refl)).
      specialize (IH (snd x + 1) Hs').
      assert (forall y, In y l -> snd x + 1 <= snd y < mt A).
      { intros y Hy. rewrite Forall_forall in Hx. specialize (Hx y Hy).
        specialize (Hb y (or_intror Hy)). lia. }
      specialize (IH H0). lia. }
    unfold nranks. specialize (G (rank_indices A) 0 Hsorted).
    assert (forall x, In x (rank_indices A) -> 0 <= snd x < mt A).
    { intros [r i] Hx. apply rank_indices_top in Hx. cbn. lia. }
    specialize (G H). lia.
Qed.

(** X19 for the two-rank panel. *)
Lemma X19_witness :
  StronglySorted (fun a b : Z * Z => snd a < snd b) (rank_indices A_two_ranks).
Proof.
  exact (proj1 (X19_ttmqr_rank_indices A_two_ranks eq_refl)).
Defined.

(** ** ex13: the owner of a tile *)

(** X20: the ranks of ex13 form a [p_] x [q_] grid.  For grid
    dimensions above 0 with [p_ * q_ < 2^31] and a tile [(i, j)] with
    [i, j >= 0], the owner is a rank in [0, p_ * q_), its place in the
    grid is [(i mod p_, j mod q_)] in column-major order, and another
    tile has the same owner exactly when its row index agrees with [i]
    modulo [p_] and its column index agrees with [j] modulo [q_]. *)
Theorem X20_ex13_tileRank_grid (p_ q_ i j : Z) :
  0 < p_ -> 0 < q_ -> p_ * q_ < 2 ^ 31 -> 0 <= i -> 0 <= j ->
  exists r,
    ex13_tileRank p_ q_ i j = Some r
    /\ 0 <= r < p_ * q_
    /\ r mod p_ = i mod p_
    /\ r / p_ = j mod q_
    /\ forall i' j', 0 <= i' -> 0 <= j' ->
         (ex13_tileRank p_ q_ i' j' = Some r
          <-> i' mod p_ = i mod p_ /\ j' mod q_ = j mod q_).
Proof.
  intros Hp Hq Hpq Hi Hj.
  assert (R : forall i j, 0 <= i -> 0 <= j ->
    ex13_tileRank p_ q_ i j = Some (i mod p_ + j mod q_ * p_)
    /\ 0 <= i mod p_ + j mod q_ * p_ < p_ * q_).
  { clear i j Hi Hj. intros i j Hi Hj. unfold ex13_tileRank.
    destruct (Z.eqb_spec p_ 0); [lia|]. destruct (Z.eqb_spec q_ 0); [lia|].
    cbn [orb]. rewrite !Z.rem_mod_nonneg by lia.
    pose proof (Z.mod_pos_bound i p_ Hp). pose proof (Z.mod_pos_bound j q_ Hq).
    assert (0 <= i mod p_ + j mod q_ * p_ < p_ * q_) by nia.
    rewrite to_int_small by lia. auto. }
  destruct (R i j Hi Hj) as [E B].
  pose proof (Z.mod_pos_bound i p_ Hp) as Bi.
  pose proof (Z.mod_pos_bound j q_ Hq) as Bj.
  exists (i mod p_ + j mod q_ * p_). split; [exact E|]. split; [exact B|].
  split; [|split].
  - rewrite Z.mod_add by lia. apply Z.mod_small. lia.
  - rewrite Z.div_add by lia. rewrite Z.div_small by lia. lia.
  - intros i' j' Hi' Hj'. destruct (R i' j' Hi' Hj') as [E' _]. rewrite E'.
    pose proof (Z.mod_pos_bound i' p_ Hp) as Bi'.
    pose proof (Z.mod_pos_bound j' q_ Hq) as Bj'.
    split.
    + intros H. injection H as H.
      assert (Ej : j' mod q_ = j mod q_).
      { destruct (Z.lt_trichotomy (j' mod q_) (j mod q_)) as [L|[L|L]];
          [exfalso; nia|exact L|exfalso; nia]. }
      split; [nia|exact Ej].
    + intros [-> ->]. reflexivity.
Qed.

(** X20 for tile (5, 3) on the 2 x 2 grid of the example. *)
Lemma X20_witness :
  exists r, ex13_tileRank 2 2 5 3 = Some r /\ 0 <= r < 2 * 2.
Proof.
  destruct (X20_ex13_tileRank_grid 2 2 5 3 ltac:(lia) ltac:(lia) ltac:(lia)
              ltac:(lia) ltac:(lia)) as (r & E & B & _).
  exists r. split; assumption.
Defined.

(** ** The local part of the scaling factors *)

Lemma Zsum_app (l1 l2 : list Z) : Zsum (l1 ++ l2) = Zsum l1 + Zsum l2.
Proof.
  unfold Zsum. induction l1 as [|x l1 IH]; cbn; lia.
Qed.

Lemma range_snoc (k : Z) : 0 <= k -> range 0 (k + 1) = range 0 k ++ [k].
Proof.
  intros Hk. rewrite (range_app 0 k (k + 1)) by lia. f_equal.
  rewrite range_cons by lia. now rewrite range_nil by lia.
Qed.

Section CopyLocalFacts.
Context {X : Type}.
Variable tileMb : Z -> Z.
Variable A_mt : Z.
Variables p myrow : Z.
Variable R : Z -> X.
Variable R_size : Z.
Variable Rlocal_size : Z.
Variable Rlocal : Z -> X.
Hypothesis Hmb : forall i, 0 <= i < A_mt -> 0 <= tileMb i.
Hypothesis HR : global_offset tileMb A_mt <= R_size.
Hypothesis Hsize : 0 <= Rlocal_size.
Hypothesis Hp : p <> 0.

#[local] Abbreviation glob := (global_offset tileMb).
#[local] Abbreviation loc := (local_offset tileMb p myrow).

Lemma glob_succ (k : Z) : 0 <= k -> glob (k + 1) = glob k + tileMb k.
Proof.
  intros Hk. unfold global_offset. rewrite range_snoc by lia.
  rewrite map_app, Zsum_app. cbn. lia.
Qed.

Lemma loc_succ (k : Z) :
  0 <= k ->
  loc (k + 1) = loc k + (if Z.rem k p =? myrow then tileMb k else 0).
Proof.
  intros Hk. unfold local_offset. rewrite range_snoc by lia.
  rewrite filter_app, map_app, Zsum_app. cbn.
  destruct (Z.rem k p =? myrow); cbn; lia.
Qed.

Lemma glob_loc_bounds (n : nat) :
  Z.of_nat n <= A_mt ->
  0 <= loc (Z.of_nat n) <= glob (Z.of_nat n)
  /\ glob (Z.of_nat n) <= glob A_mt
  /\ loc (Z.of_nat n) <= loc A_mt.
Proof.
  intros Hn.
  assert (G : forall d : nat, Z.of_nat n + Z.of_nat d <= A_mt ->
    glob (Z.of_nat n) <= glob (Z.of_nat n + Z.of_nat d)
    /\ loc (Z.of_nat n) <= loc (Z.of_nat n + Z.of_nat d)).
  { induction d as [|d IH]; intros Hd.
    - rewrite Z.add_0_r. lia.
    - replace (Z.of_nat n + Z.of_nat (S d))
        with (Z.of_nat n + Z.of_nat d + 1) by lia.
      rewrite glob_succ, loc_succ by lia.
      specialize (IH ltac:(lia)).
      pose proof (Hmb (Z.of_nat n + Z.of_nat d) ltac:(lia)).
      destruct (_ =? _); lia. }
  assert (B : 0 <= loc (Z.of_nat n) <= glob (Z.of_nat n)).
  { clear G. induction n as [|n IH]; [cbn; lia|].
    replace (Z.of_nat (S n)) with (Z.of_nat n + 1) by lia.
    rewrite glob_succ, loc_succ by lia.
    specialize (IH ltac:(lia)). pose proof (Hmb (Z.of_nat n) ltac:(lia)).
    destruct (_ =? _); lia. }
  specialize (G (Z.to_nat (A_mt - Z.of_nat n)) ltac:(lia)).
  replace (Z.of_nat n + Z.of_nat (Z.to_nat (A_mt - Z.of_nat n)))
    with A_mt in G by lia.
  lia.
Qed.

Lemma copy_local_loop (n : nat) :
  Z.of_nat n <= A_mt ->
  let k := Z.of_nat n in
  let st := fold_left (copy_local_step tileMb p myrow R R_size Rlocal_size)
                      (range 0 k) (Some (mkLocalCopy 0 0 Rlocal)) in
  (loc k <= Rlocal_size ->
   exists L, st = Some (mkLocalCopy (glob k) (loc k) L)
     /\ (forall i r, 0 <= i < k -> Z.rem i p = myrow -> 0 <= r < tileMb i ->
           L (loc i + r) = R (glob i + r))
     /\ (forall a, ~ 0 <= a < loc k -> L a = Rlocal a))
  /\ (Rlocal_size < loc k -> st = None).
Proof.
  induction n as [|n IH]; intros Hn; cbv zeta.
  - cbn. split; [|unfold local_offset; cbn; lia].
    intros _. exists Rlocal. split; [reflexivity|]. split; [intros; lia|reflexivity].
  - specialize (IH ltac:(lia)). cbv zeta in IH. destruct IH as [IHok IHbad].
    replace (Z.of_nat (S n)) with (Z.of_nat n + 1) by lia.
    set (k := Z.of_nat n) in *.
    assert (Hk : 0 <= k < A_mt) by lia.
    pose proof (Hmb k Hk) as Hmbk.
    destruct (glob_loc_bounds n ltac:(lia)) as (B1 & _ & _). fold k in B1.
    destruct (glob_loc_bounds (S n) ltac:(lia)) as (_ & B2 & _).
    replace (Z.of_nat (S n)) with (k + 1) in B2 by lia.
    rewrite range_snoc, fold_left_app by lia. cbn [fold_left].
    rewrite glob_succ, loc_succ in * by lia.
    destruct (Z.eqb_spec (Z.rem k p) myrow) as [El|El].
    + split.
      * intros Hfit. destruct (IHok ltac:(lia)) as (L & -> & HL & HF).
        unfold copy_local_step. cbn [lc_ii lc_iilocal lc_local].
        destruct (Z.eqb_spec p 0); [contradiction|].
        destruct (Z.eqb_spec (Z.rem k p) myrow); [|contradiction].
        unfold copy_range.
        replace ((0 <=? glob k) && (glob k <=? glob k + tileMb k)
                 && (glob k + tileMb k <=? R_size) && (0 <=? loc k)
                 && (loc k + (glob k + tileMb k - glob k) <=? Rlocal_size))
          with true
          by (symmetry; rewrite !andb_true_iff, !Z.leb_le; lia).
        eexists. split; [reflexivity|]. split.
        -- intros i r Hi Hl Hr. cbv beta.
           destruct (Z.eq_dec i k) as [->|Hne].
           ++ replace ((loc k <=? loc k + r)
                       && (loc k + r <? loc k + (glob k + tileMb k - glob k)))
                with true
                by (symmetry; rewrite andb_true_iff, Z.leb_le, Z.ltb_lt; lia).
              f_equal. lia.
           ++ assert (Hi' : 0 <= i < k) by lia.
              assert (Hlt : loc i + r < loc k).
              { clear - Hi' Hl Hr Hmb Hk.
                assert (G : forall d : nat, i + 1 + Z.of_nat d <= k ->
                          loc i + tileMb i <= loc (i + 1 + Z.of_nat d)).
                { induction d as [|d IHd]; intros Hd.
                  - rewrite Z.add_0_r, loc_succ by lia.
                    rewrite Hl, Z.eqb_refl. lia.
                  - replace (i + 1 + Z.of_nat (S d))
                      with (i + 1 + Z.of_nat d + 1) by lia.
                    rewrite loc_succ by lia. specialize (IHd ltac:(lia)).
                    pose proof (Hmb (i + 1 + Z.of_nat d) ltac:(lia)).
                    destruct (_ =? _); lia. }
                specialize (G (Z.to_nat (k - i - 1)) ltac:(lia)).
                replace (i + 1 + Z.of_nat (Z.to_nat (k - i - 1))) with k in G
                  by lia.
                lia. }
              replace ((loc k <=? loc i + r)
                       && (loc i + r <? loc k + (glob k + tileMb k - glob k)))
                with false
                by (symmetry; rewrite andb_false_iff, Z.leb_gt; lia).
              now apply HL.
        -- intros a Ha. cbv beta.
           replace ((loc k <=? a)
                    && (a <? loc k + (glob k + tileMb k - glob k)))
             with false
             by (symmetry; rewrite andb_false_iff, Z.leb_gt, Z.ltb_ge; lia).
           apply HF. lia.
      * intros Hover.
        destruct (Z.le_gt_cases (loc k) Rlocal_size) as [Hfit|Hbad].
        -- destruct (IHok Hfit) as (L & -> & _).
           unfold copy_local_step. cbn [lc_ii lc_iilocal lc_local].
           destruct (Z.eqb_spec p 0); [contradiction|].
        destruct (Z.eqb_spec p 0); [contradiction|].
           destruct (Z.eqb_spec (Z.rem k p) myrow); [|contradiction].
           unfold copy_range.
           replace (loc k + (glob k + tileMb k - glob k) <=? Rlocal_size)
             with false by (symmetry; apply Z.leb_gt; lia).
           now rewrite andb_false_r.
        -- rewrite IHbad by lia. reflexivity.
    + rewrite Z.add_0_r in *. split.
      * intros Hfit. destruct (IHok Hfit) as (L & -> & HL & HF).
        unfold copy_local_step. cbn [lc_ii lc_iilocal lc_local].
        destruct (Z.eqb_spec p 0); [contradiction|].
        destruct (Z.eqb_spec (Z.rem k p) myrow); [contradiction|].
        exists L. split; [reflexivity|]. split; [|exact HF].
        intros i r Hi Hl Hr. apply HL; auto.
        assert (i <> k) by congruence. lia.
      * intros Hbad. rewrite IHbad by lia. reflexivity.
Qed.

End CopyLocalFacts.

(** X21: the local part of the scaling factors.  With block heights
    that are not negative and fit in [R], [p <> 0] and a local vector
    of [Rlocal_size >= 0] entries, the loop passes its assertion
    exactly when [Rlocal_size] is the sum of the heights of the block
    rows [i] with [i % p == myrow]; otherwise a copy runs past the end
    of the local vector or the assertion fails.  When it passes, entry
    [r] of every such block row has been copied from its place in [R]
    (the heights of all block rows before it, plus [r]) to its place in
    the local vector (the heights of the local block rows before it,
    plus [r]), and nothing outside the local vector is written. *)
Theorem X21_copy_local_part {X : Type} (tileMb : Z -> Z) (A_mt p myrow : Z)
    (R : Z -> X) (R_size Rlocal_size : Z) (Rlocal : Z -> X) :
  0 <= A_mt -> p <> 0 ->
  (forall i, 0 <= i < A_mt -> 0 <= tileMb i) ->
  global_offset tileMb A_mt <= R_size -> 0 <= Rlocal_size ->
  (Rlocal_size <> local_offset tileMb p myrow A_mt ->
   copy_local_part tileMb A_mt p myrow R R_size Rlocal_size Rlocal = None)
  /\ (Rlocal_size = local_offset tileMb p myrow A_mt ->
      exists L,
        copy_local_part tileMb A_mt p myrow R R_size Rlocal_size Rlocal
        = Some L
        /\ (forall i r, 0 <= i < A_mt -> Z.rem i p = myrow ->
              0 <= r < tileMb i ->
              L (local_offset tileMb p myrow i + r)
              = R (global_offset tileMb i + r))
        /\ (forall a, ~ 0 <= a < Rlocal_size -> L a = Rlocal a)).
Proof.
  intros Hmt Hp Hmb HR Hsize.
  pose proof (copy_local_loop tileMb A_mt p myrow R R_size Rlocal_size Rlocal
                Hmb HR Hsize Hp (Z.to_nat A_mt) ltac:(lia)) as H.
  cbv zeta in H. rewrite Z2Nat.id in H by lia. destruct H as [Hok Hbad].
  unfold copy_local_part. split.
  - intros Hne.
    destruct (Z.le_gt_cases (local_offset tileMb p myrow A_mt) Rlocal_size)
      as [Hfit|Hover].
    + destruct (Hok Hfit) as (L & -> & _). cbn [lc_iilocal].
      destruct (Z.eqb_spec (local_offset tileMb p myrow A_mt) Rlocal_size);
        [congruence|reflexivity].
    + now rewrite Hbad.
  - intros ->. destruct (Hok ltac:(lia)) as (L & -> & HL & HF).
    cbn [lc_iilocal lc_local]. rewrite Z.eqb_refl. eauto.
Qed.

(** X21 for three block rows of height 2 on a grid of two process rows: process row 0 holds block rows 0 and 2. *)
Lemma X21_witness :
  exists L,
    copy_local_part (fun _ => 2) 3 2 0 (fun a => 10 * a) 6 4 (fun _ => 0)
    = Some L
    /\ L 0 = 0 /\ L 1 = 10 /\ L 2 = 40 /\ L 3 = 50.
Proof.
  destruct (proj2 (X21_copy_local_part (fun _ => 2) 3 2 0 (fun a => 10 * a) 6 4
                     (fun _ => 0) ltac:(lia) ltac:(lia)
                     ltac:(intros; lia) ltac:(vm_compute; discriminate)
                     ltac:(lia))
              eq_refl) as (L & E & HL & _).
  exists L. split; [exact E|].
  pose proof (HL 0 0 ltac:(lia) eq_refl ltac:(lia)) as H0.
  pose proof (HL 0 1 ltac:(lia) eq_refl ltac:(lia)) as H1.
  pose proof (HL 2 0 ltac:(lia) eq_refl ltac:(lia)) as H2.
  pose proof (HL 2 1 ltac:(lia) eq_refl ltac:(lia)) as H3.
  repeat split; assumption.
Defined.
